(** * Key-ring reconciliation and the repository service of Argo CD

A shallow embedding of [util/db/gpgkeys.go] (package [db]) and of the
repository gRPC service (package [repository]), with the properties the
specification states about them.

Both packages are glue around external collaborators: the gpg
binary, the settings manager, the storage layer, the RBAC enforcer, the
connection cache, git.  A Go function is embedded as a program
of calls to these collaborators ([Prog]); what a collaborator answers is
decided by a handler.  Theorems that do not depend on what the
collaborators do quantify over every handler; theorems about the state
of the key ring or of the store are stated for the reference handlers
of the modules [Keyring] and [Store]. *)

From stdpp Require Import gmap strings list fin_maps pretty.
From Stdlib Require Import ZArith.

Local Open Scope string_scope.
Local Open Scope list_scope.
Local Open Scope stdpp_scope.

(** ** Go values, errors and programs *)

Module Go.

(** gRPC status codes used by the two packages ([google.golang.org/grpc/codes]). *)
Inductive Code : Set :=
| OK | Unknown | InvalidArgument | NotFound | AlreadyExists
| PermissionDenied | Internal.

Definition Code_String (c : Code) : string :=
  match c with
  | OK => "OK" | Unknown => "Unknown" | InvalidArgument => "InvalidArgument"
  | NotFound => "NotFound" | AlreadyExists => "AlreadyExists"
  | PermissionDenied => "PermissionDenied" | Internal => "Internal"
  end.

(** A Go [error] value: either a plain error ([fmt.Errorf], [errors.New]) or
  a gRPC status error ([status.Errorf]).  The nil error is [None] of
  [option error]. *)
Inductive error : Set :=
| Errorf (msg : string)
| status_Errorf (c : Code) (msg : string).

(** [err.Error()] *)
Definition Error (e : error) : string :=
  match e with
  | Errorf msg => msg
  | status_Errorf c msg =>
      "rpc error: code = " +:+ Code_String c +:+ " desc = " +:+ msg
  end.

(** [status.Convert(err).Code()]: [OK] for nil, the code of a status error,
  [Unknown] for any other error. *)
Definition status_Code (err : option error) : Code :=
  match err with
  | None => OK
  | Some (Errorf _) => Unknown
  | Some (status_Errorf c _) => c
  end.

Global Instance Code_eq_dec : EqDecision Code.
Proof. solve_decision. Defined.
Global Instance error_eq_dec : EqDecision error.
Proof. solve_decision. Defined.

(** Programs over a signature [E] of external calls: [E X] is a call whose
  answer has type [X].  [Panic] is a run-time panic of the Go program. *)
Section Prog.
Context {E : Type → Type}.

Inductive Prog (A : Type) : Type :=
| Ret (a : A)
| Panic (msg : string)
| Do {X : Type} (c : E X) (k : X → Prog A).
Global Arguments Ret {A} a.
Global Arguments Panic {A} msg.
Global Arguments Do {A X} c k.

Fixpoint bind {A B} (p : Prog A) (f : A → Prog B) : Prog B :=
  match p with
  | Ret a => f a
  | Panic msg => Panic msg
  | Do c k => Do c (λ x, bind (k x) f)
  end.

Definition call {X} (c : E X) : Prog X := Do c Ret.

(** [defer d; rest]: the deferred call [d] runs when the function leaves
    [rest], by a return or by a panic; what [d] returns is dropped. *)
Fixpoint defer {A} (d : Prog unit) (rest : Prog A) : Prog A :=
  match rest with
  | Ret a => bind d (λ _, Ret a)
  | Panic msg => bind d (λ _, Panic msg)
  | Do c k => Do c (λ x, defer d (k x))
  end.

(** Dereferencing a pointer that may be nil. *)
Definition deref {A} (p : option A) : Prog A :=
  match p with
  | Some a => Ret a
  | None => Panic "invalid memory address or nil pointer dereference"
  end.

(** One external call together with its answer. *)
Inductive Event : Type :=
| Ev {X : Type} (c : E X) (x : X).

Inductive Outcome (A : Type) : Type :=
| Done (a : A)
| Panicked (msg : string).
Global Arguments Done {A} a.
Global Arguments Panicked {A} msg.

(** A handler answers every call and moves the world [W] of the
    collaborators. *)
Definition Handler (W : Type) : Type := ∀ X, E X → W → X * W.

(** Running a program: its outcome, the calls it made in order, and the
    world it leaves. *)
Fixpoint run {W A} (h : Handler W) (p : Prog A) (w : W)
  : Outcome A * list Event * W :=
  match p with
  | Ret a => (Done a, [], w)
  | Panic msg => (Panicked msg, [], w)
  | Do c k =>
      let r := h _ c w in
      let r' := run h (k r.1) r.2 in
      (r'.1.1, Ev c r.1 :: r'.1.2, r'.2)
  end.

Definition outcome {W A} (h : Handler W) (p : Prog A) (w : W) : Outcome A :=
  (run h p w).1.1.
Definition trace {W A} (h : Handler W) (p : Prog A) (w : W) : list Event :=
  (run h p w).1.2.
Definition final {W A} (h : Handler W) (p : Prog A) (w : W) : W :=
  (run h p w).2.

(** Every call a program can make satisfies [P]. *)
Inductive CallsOnly (P : ∀ X, E X → Prop) {A} : Prog A → Prop :=
| CallsOnly_Ret a : CallsOnly P (Ret a)
| CallsOnly_Panic msg : CallsOnly P (Panic msg)
| CallsOnly_Do {X} (c : E X) k :
    P X c → (∀ x, CallsOnly P (k x)) → CallsOnly P (Do c k).

Definition EventIs (P : ∀ X, E X → Prop) (e : Event) : Prop :=
  match e with Ev c _ => P _ c end.

(** Two goroutines run the programs [p1] and [p2] at once, call by call: the
    schedule says which of the two makes the next call ([false] the first,
    [true] the second); a goroutine that has returned makes none. *)
Fixpoint interleave {W A} (h : Handler W) (sched : list bool) (p1 p2 : Prog A) (w : W)
  : list (bool * Event) * (Prog A * Prog A * W) :=
  match sched with
  | [] => ([], (p1, p2, w))
  | t :: sched =>
    match (if t then p2 else p1) with
    | Do c k =>
      let r := h _ c w in
      let rest := if t then interleave h sched p1 (k r.1) r.2
                  else interleave h sched (k r.1) p2 r.2 in
      ((t, Ev c r.1) :: rest.1, rest.2)
    | _ => interleave h sched p1 p2 w
    end
  end.
End Prog.
Global Arguments Prog : clear implicits.
Global Arguments Event : clear implicits.
Global Arguments Handler : clear implicits.

Global Instance Prog_ret {E} : MRet (Prog E) := λ A a, Ret a.
Global Instance Prog_bind {E} : MBind (Prog E) := λ A B f p, bind p f.

(** A nil Go map reads as the empty map. *)
Definition gomap {V} (m : option (gmap string V)) : gmap string V :=
  default ∅ m.

End Go.
Import Go.

(** ** Package [db]: [util/db/gpgkeys.go] *)

Module appsv1.

(** Modelled from the spec: the declaration of [appsv1.GnuPGPublicKey] is not
    part of the sources; the spec's KeyRecord has a key ID and the key
    material, and [gpgkeys.go] reads only [KeyID]. *)
Record GnuPGPublicKey : Set := { KeyID : string; KeyData : string }.

(** [v1.ConfigMap], of which only [Data] is read. *)
Record ConfigMap : Type := { Data : gmap string string }.

(** [metav1.Time], in seconds. *)
Definition Time : Set := Z.

Definition ConnectionStatus : Set := string.
Definition ConnectionStatusUnknown : ConnectionStatus := "Unknown".
Definition ConnectionStatusSuccessful : ConnectionStatus := "Successful".
Definition ConnectionStatusFailed : ConnectionStatus := "Failed".

(** Modelled from the spec: the declarations of [appsv1.ConnectionState] and
    [appsv1.Repository] are not part of the sources.  The fields are those
    the repository service reads or writes, which are those of the spec's
    ConnectionState and RepositoryRecord, the credentials spelled out as in
    [ValidateAccess].  The zero value of a string is the empty string, of a
    bool [false], of a pointer nil. *)
Record ConnectionState : Set := {
  Status : ConnectionStatus;
  Message : string;
  ModifiedAt : option Time;
}.

Record Repository : Set := {
  Repo : string;
  Username : string;
  Password : string;
  SSHPrivateKey : string;
  ConnectionState_ : ConnectionState;
  Insecure : bool;
  EnableLFS : bool;
  TLSClientCertData : string;
  TLSClientCertKey : string;
}.

Global Instance ConnectionState_eq_dec : EqDecision ConnectionState.
Proof. solve_decision. Defined.
Global Instance Repository_eq_dec : EqDecision Repository.
Proof. solve_decision. Defined.

Definition ConnectionState_zero : ConnectionState :=
  {| Status := ""; Message := ""; ModifiedAt := None |}.

(** [&appsv1.Repository{Repo: url}]: every other field has its zero value. *)
Definition Repository_of_url (url : string) : Repository :=
  {| Repo := url; Username := ""; Password := ""; SSHPrivateKey := "";
     ConnectionState_ := ConnectionState_zero; Insecure := false;
     EnableLFS := false; TLSClientCertData := ""; TLSClientCertKey := "" |}.

(** [r.ConnectionState = cs] *)
Definition set_ConnectionState (cs : ConnectionState) (r : Repository) : Repository :=
  {| Repo := Repo r; Username := Username r; Password := Password r;
     SSHPrivateKey := SSHPrivateKey r; ConnectionState_ := cs;
     Insecure := Insecure r; EnableLFS := EnableLFS r;
     TLSClientCertData := TLSClientCertData r;
     TLSClientCertKey := TLSClientCertKey r |}.

(** Modelled from the spec: the methods [IsInsecure], [HasCredentials] and
    [CopyCredentialsFrom] of [appsv1.Repository] are not part of the
    sources.  A record carries explicit credentials when one of its
    credential fields is set. *)
Definition IsInsecure (repo : Repository) : bool := Insecure repo.

Definition HasCredentials (repo : Repository) : bool :=
  bool_decide (Username repo ≠ "" ∨ Password repo ≠ "" ∨ SSHPrivateKey repo ≠ ""
               ∨ TLSClientCertData repo ≠ "" ∨ TLSClientCertKey repo ≠ "").

Definition CopyCredentialsFrom (source repo : Repository) : Repository :=
  {| Repo := Repo repo; Username := Username source; Password := Password source;
     SSHPrivateKey := SSHPrivateKey source;
     ConnectionState_ := ConnectionState_ repo;
     Insecure := Insecure repo; EnableLFS := EnableLFS repo;
     TLSClientCertData := TLSClientCertData source;
     TLSClientCertKey := TLSClientCertKey source |}.

End appsv1.

Module db.
Import appsv1.

(** [gpg.KeyID]: the short key ID denoted by a ConfigMap key, or the empty
    string when the key is no PGP key ID.  A pure function of package [gpg],
    which is not part of the sources: a parameter of the development. *)
Class gpg_pure : Type := { gpg_KeyID : string → string }.

(** The external calls of [gpgkeys.go].  A temporary file is identified by its
    name.  [range m] is the order in which one [for ... := range m] loop visits
    the map [m], which the Go runtime chooses. *)
Inductive Call : Type → Type :=
| syncSemaphore_TryAcquire (n : Z) : Call bool
| syncSemaphore_Release (n : Z) : Call unit
| settingsMgr_GetConfigMapByName (name : string)
  : Call (option ConfigMap * option error)
| ioutil_TempFile (dir pattern : string) : Call (string * option error)
| ioutil_WriteFile (filename data : string) (perm : Z) : Call (option error)
| os_Remove (name : string) : Call (option error)
| File_Close (name : string) : Call (option error)
| gpg_ValidatePGPKeys (keyFile : string) : Call (list string * option error)
| gpg_GetInstalledPGPKeys : Call (list GnuPGPublicKey * option error)
| gpg_IsSecretKey (keyID : string) : Call (bool * option error)
| gpg_ImportPGPKeysFromString (keyData : string)
  : Call (list GnuPGPublicKey * option error)
| gpg_DeletePGPKey (keyID : string) : Call (option error)
| range {V : Type} (m : gmap string V) : Call (list (string * V))
| log_Debugf (msg : string) : Call unit
| log_Infof (msg : string) : Call unit
| log_Warnf (msg : string) : Call unit.

(** The calls on the semaphore, the imports and the deletes. *)
Definition is_sem {X} (c : Call X) : bool :=
  match c with
  | syncSemaphore_TryAcquire _ | syncSemaphore_Release _ => true
  | _ => false
  end.
Definition is_import {X} (c : Call X) : bool :=
  match c with gpg_ImportPGPKeysFromString _ => true | _ => false end.
Definition is_delete {X} (c : Call X) : bool :=
  match c with gpg_DeletePGPKey _ => true | _ => false end.

(** [semaphore.NewWeighted(1)] *)
Definition sem_size : Z := 1.

(** The semaphore [syncSemaphore = semaphore.NewWeighted(1)] of
    [golang.org/x/sync/semaphore], kept beside the world of the other
    collaborators: [TryAcquire(n)] succeeds, and takes [n], when [n] is still
    free; [Release(n)] gives [n] back.  There are no waiters: [Acquire] is
    never called. *)
Definition with_sem {W} (h : Handler Call W) : Handler Call (Z * W) :=
  λ X c s,
  match c in Call X return (W → X * W) → X * (Z * W) with
  | syncSemaphore_TryAcquire n => λ _,
    if decide (n ≤ sem_size - s.1)%Z then (true, ((s.1 + n)%Z, s.2)) else (false, s)
  | syncSemaphore_Release n => λ _, ((), ((s.1 - n)%Z, s.2))
  | _ => λ hc, let r := hc s.2 in (r.1, (s.1, r.2))
  end (h X c).

Section gpgkeys.
Context `{gpg_pure}.

(** Validates a single GnuPG key and returns the key's ID. *)
Definition validatePGPKey (keyData : string) : Prog Call (string * option error) :=
  '(f, err) ← call (ioutil_TempFile "" "gpg-public-key");
  match err with
  | Some e => Ret ("", Some e)
  | None =>
    defer (call (os_Remove f) ;; Ret ()) (
      (* 0600 *)
      err ← call (ioutil_WriteFile f keyData 384);
      match err with
      | Some e => Ret ("", Some e)
      | None =>
        call (File_Close f) ;;
        '(parsed, err) ← call (gpg_ValidatePGPKeys f);
        match err with
        | Some e => Ret ("", Some e)
        | None =>
          if decide (length parsed ≠ 1)
          then Ret ("", Some (Errorf "More than one key found in input data"))
          else match parsed with
               | parsed0 :: _ => Ret (parsed0, None)
               | [] => Panic "index out of range"
               end
        end
      end)
  end.

(** The body of the loop [for k, p := range keysCM.Data] of
    [ListConfiguredGPGPublicKeys], over the entries still to visit. *)
Fixpoint ListConfiguredGPGPublicKeys_loop (entries : list (string * string))
    (result : gmap string string)
  : Prog Call (option (gmap string string) * option error) :=
  match entries with
  | [] => Ret (Some result, None)
  | (k, p) :: entries =>
    let expectedKeyID := gpg_KeyID k in
    if decide (expectedKeyID ≠ "") then
      '(parsedKeyID, err) ← validatePGPKey p;
      match err with
      | Some e =>
        Ret (None, Some (Errorf ("Could not parse GPG key for entry '"
               +:+ expectedKeyID +:+ "': " +:+ Error e)))
      | None =>
        if decide (expectedKeyID ≠ parsedKeyID) then
          Ret (None, Some (Errorf ("Key parsed for entry with key ID '"
                 +:+ expectedKeyID +:+ "' had different key ID '"
                 +:+ parsedKeyID +:+ "'")))
        else
          ListConfiguredGPGPublicKeys_loop entries (<[parsedKeyID := p]> result)
      end
    else
      Ret (None, Some (Errorf ("Found entry with key '" +:+ k
             +:+ "' in ConfigMap, but this is not a valid PGP key ID")))
  end.

(** Reads all configured GPG public keys from the ConfigMap and returns
    information about them. *)
Definition ListConfiguredGPGPublicKeys
  : Prog Call (option (gmap string string) * option error) :=
  call (log_Debugf "Loading PGP public keys from config map") ;;
  let result : gmap string string := ∅ in
  '(keysCM, err) ← call (settingsMgr_GetConfigMapByName "argocd-gpg-cm");
  match err with
  | Some e => Ret (None, Some e)
  | None =>
    keysCM ← deref keysCM;
    entries ← call (range (Data keysCM));
    ListConfiguredGPGPublicKeys_loop entries result
  end.

(** The body of the loop [for _, v := range keys] of
    [ListInstalledGPGPublicKeys]; [keys] is a slice, visited in order. *)
Fixpoint ListInstalledGPGPublicKeys_loop (keys : list GnuPGPublicKey)
    (result : gmap string GnuPGPublicKey)
  : Prog Call (option (gmap string GnuPGPublicKey) * option error) :=
  match keys with
  | [] => Ret (Some result, None)
  | v :: keys =>
    '(isSecret, err) ← call (gpg_IsSecretKey (KeyID v));
    match err with
    | None =>
      if negb isSecret
      then ListInstalledGPGPublicKeys_loop keys (<[KeyID v := v]> result)
      else ListInstalledGPGPublicKeys_loop keys result
    | Some e => Ret (None, Some e)
    end
  end.

(** List all GPG public keys actually installed in the keyring. *)
Definition ListInstalledGPGPublicKeys
  : Prog Call (option (gmap string GnuPGPublicKey) * option error) :=
  let result : gmap string GnuPGPublicKey := ∅ in
  '(keys, err) ← call gpg_GetInstalledPGPKeys;
  match err with
  | Some e => Ret (None, Some e)
  | None => ListInstalledGPGPublicKeys_loop keys result
  end.

(** Import all keys that are configured but not yet in the keyring:
    the loop [for keyID, keyData := range configuredKeys]. *)
Fixpoint SynchronizeGPGPublicKeys_import (entries : list (string * string))
    (installedKeys : gmap string GnuPGPublicKey) : Prog Call unit :=
  match entries with
  | [] => Ret ()
  | (keyID, keyData) :: entries =>
    match installedKeys !! keyID with
    | None =>
      call (log_Infof ("Importing key ID '" +:+ keyID +:+ "' from configuration")) ;;
      '(importedKeys, err) ← call (gpg_ImportPGPKeysFromString keyData);
      match err with
      | Some e =>
        call (log_Warnf ("Could not import GPG key " +:+ keyID +:+ ": " +:+ Error e))
      | None =>
        match importedKeys with
        | imported0 :: _ =>
          if decide (keyID ≠ KeyID imported0)
          then call (log_Warnf "KeyIDs differ, should not happen")
          else Ret ()
        | [] => Panic "index out of range"
        end
      end
    | Some _ => Ret ()
    end ;;
    SynchronizeGPGPublicKeys_import entries installedKeys
  end.

(** Remove all keys that are in the keyring, but not in the configuration
    anymore: the loop [for keyID, _ := range installedKeys]. *)
Fixpoint SynchronizeGPGPublicKeys_remove (entries : list (string * GnuPGPublicKey))
    (configuredKeys : gmap string string) : Prog Call unit :=
  match entries with
  | [] => Ret ()
  | (keyID, _) :: entries =>
    match configuredKeys !! keyID with
    | None =>
      '(isSecret, err) ← call (gpg_IsSecretKey keyID);
      match err with
      | None =>
        if negb isSecret then
          call (log_Infof ("Removing key ID '" +:+ keyID +:+ "' from GnuPG's keyring")) ;;
          err ← call (gpg_DeletePGPKey keyID);
          match err with
          | Some e =>
            call (log_Warnf ("Could not delete key with key ID '" +:+ keyID
                    +:+ "': " +:+ Error e))
          | None => Ret ()
          end
        else Ret ()
      | Some e =>
        call (log_Warnf ("Error figuring out private key status for key ID "
                +:+ keyID +:+ ": " +:+ Error e))
      end
    | Some _ => Ret ()
    end ;;
    SynchronizeGPGPublicKeys_remove entries configuredKeys
  end.

(** What [SynchronizeGPGPublicKeys] does while it holds the semaphore. *)
Definition SynchronizeGPGPublicKeys_locked : Prog Call (option error) :=
  '(configuredKeys, err) ← ListConfiguredGPGPublicKeys;
  match err with
  | Some e => Ret (Some e)
  | None =>
    '(installedKeys, err) ← ListInstalledGPGPublicKeys;
    match err with
    | Some e => Ret (Some e)
    | None =>
      entries ← call (range (gomap configuredKeys));
      SynchronizeGPGPublicKeys_import entries (gomap installedKeys) ;;
      entries ← call (range (gomap installedKeys));
      SynchronizeGPGPublicKeys_remove entries (gomap configuredKeys) ;;
      Ret None
    end
  end.

Definition locked_error : error := Errorf "GnuPG database is locked, try again.".

(** SynchronizeGPGPublicKeys synchronizes the installed keys with the
    configured keys. *)
Definition SynchronizeGPGPublicKeys : Prog Call (option error) :=
  acquired ← call (syncSemaphore_TryAcquire 1);
  if negb acquired then Ret (Some locked_error)
  else defer (call (syncSemaphore_Release 1)) SynchronizeGPGPublicKeys_locked.

End gpgkeys.
End db.

(** ** A reference key ring *)

Module Keyring.
Import appsv1 db.

(** Modelled from the spec: package [gpg], the settings manager and the
    temporary files are external collaborators whose code is not part of the
    sources.  Following sections 3 and 6 of the spec, the key ring maps a key
    ID to whether the key is secret; [parse] is the validator, giving the IDs
    of the keys some key material holds; an import installs the keys of the
    material that are not yet in the ring as public keys and leaves the keys
    already there as they are (secret keys are fixed); a delete removes the
    key.  Every operation on the key ring (list, secret-key check, import,
    delete) may fail and then changes nothing: [fails n] says whether the
    [n]-th operation does.  [order] is the order in which a [range] loop
    visits a map. *)
Record Env : Type := {
  parse : string → option (list string);
  fails : nat → bool;
  order : ∀ V : Type, list (string * V) → list (string * V);
}.

(** The order of a [range] loop is some order of the entries of the map. *)
Definition OrderLaw (env : Env) : Prop :=
  ∀ (V : Type) (l : list (string * V)), order env V l ≡ₚ l.

(** [tick] counts the operations on the key ring so far. *)
Record World : Type := {
  sem_cur : Z;
  config : option (gmap string string);
  files : gmap string string;
  tmp_seq : nat;
  keyring : gmap string bool;
  tick : nat;
}.

Definition set_sem (f : Z → Z) (w : World) : World :=
  {| sem_cur := f (sem_cur w); config := config w; files := files w;
     tmp_seq := tmp_seq w; keyring := keyring w; tick := tick w |}.
Definition set_files (f : gmap string string → gmap string string) (w : World) : World :=
  {| sem_cur := sem_cur w; config := config w; files := f (files w);
     tmp_seq := tmp_seq w; keyring := keyring w; tick := tick w |}.
Definition set_tmp_seq (f : nat → nat) (w : World) : World :=
  {| sem_cur := sem_cur w; config := config w; files := files w;
     tmp_seq := f (tmp_seq w); keyring := keyring w; tick := tick w |}.
Definition set_keyring (f : gmap string bool → gmap string bool) (w : World) : World :=
  {| sem_cur := sem_cur w; config := config w; files := files w;
     tmp_seq := tmp_seq w; keyring := f (keyring w); tick := tick w |}.
(** One more operation on the key ring. *)
Definition next (w : World) : World :=
  {| sem_cur := sem_cur w; config := config w; files := files w;
     tmp_seq := tmp_seq w; keyring := keyring w; tick := S (tick w) |}.
Definition gpg_failed : error := Errorf "gpg: exit status 2".

(** The non-secret subset of the key ring, as a set of key IDs. *)
Definition public_keys (w : World) : gset string :=
  dom (filter (λ kv, kv.2 = false) (keyring w)).
Definition secret_keys (w : World) : gset string :=
  dom (filter (λ kv, kv.2 = true) (keyring w)).

Definition install (kr : gmap string bool) (keyID : string) : gmap string bool :=
  match kr !! keyID with
  | Some _ => kr
  | None => <[keyID := false]> kr
  end.

Definition public_key (keyID : string) : GnuPGPublicKey :=
  {| KeyID := keyID; KeyData := "" |}.

Definition handle (env : Env) : Handler Call World :=
  λ X c w,
  match c in Call X return X * World with
  | syncSemaphore_TryAcquire n =>
    if decide (n ≤ sem_size - sem_cur w)%Z
    then (true, set_sem (λ cur, cur + n)%Z w)
    else (false, w)
  | syncSemaphore_Release n => ((), set_sem (λ cur, cur - n)%Z w)
  | settingsMgr_GetConfigMapByName name =>
    match config w with
    | Some data =>
      if decide (name = "argocd-gpg-cm")
      then (Some {| Data := data |}, None, w)
      else (None, Some (status_Errorf NotFound ("configmap " +:+ name +:+ " not found")), w)
    | None => (None, Some (Errorf "configuration unavailable"), w)
    end
  | ioutil_TempFile dir pattern =>
    let name := dir +:+ "/" +:+ pattern +:+ pretty (tmp_seq w) in
    (name, None, set_tmp_seq S (set_files (insert name "") w))
  | ioutil_WriteFile filename data perm =>
    (None, set_files (insert filename data) w)
  | os_Remove name => (None, set_files (delete name) w)
  | File_Close name => (None, w)
  | gpg_ValidatePGPKeys keyFile =>
    match files w !! keyFile with
    | Some data =>
      match parse env data with
      | Some ids => (ids, None, w)
      | None => ([], Some (Errorf "no valid PGP key in input data"), w)
      end
    | None => ([], Some (Errorf ("open " +:+ keyFile +:+ ": no such file")), w)
    end
  | gpg_GetInstalledPGPKeys =>
    if fails env (tick w) then ([], Some gpg_failed, next w)
    else (public_key <$> (map_to_list (keyring w)).*1, None, next w)
  | gpg_IsSecretKey keyID =>
    if fails env (tick w) then (false, Some gpg_failed, next w)
    else (default false (keyring w !! keyID), None, next w)
  | gpg_ImportPGPKeysFromString keyData =>
    if fails env (tick w) then ([], Some gpg_failed, next w)
    else match parse env keyData with
         | Some ids =>
           (public_key <$> ids, None, next (set_keyring (λ kr, foldl install kr ids) w))
         | None => ([], Some (Errorf "no valid PGP key in input data"), next w)
         end
  | gpg_DeletePGPKey keyID =>
    if fails env (tick w) then (Some gpg_failed, next w)
    else (None, next (set_keyring (delete keyID) w))
  | @range V m => (order env V (map_to_list m), w)
  | log_Debugf _ | log_Infof _ | log_Warnf _ => ((), w)
  end.

(** What [validatePGPKey] returns for some key material. *)
Definition validated (env : Env) (keyData : string) : string * option error :=
  match parse env keyData with
  | None => ("", Some (Errorf "no valid PGP key in input data"))
  | Some [keyID] => (keyID, None)
  | Some _ => ("", Some (Errorf "More than one key found in input data"))
  end.

(** A small environment to run examples in: the material of a key is its key
    ID, but for the material "garbage", which does not parse, and "A+B",
    which holds two keys; a ConfigMap key is the key ID it denotes; no
    operation fails, and maps are visited in the order of [map_to_list]. *)
Definition plain_env : Env :=
  {| parse := λ data,
       if decide (data = "garbage") then None
       else if decide (data = "A+B") then Some ["A"; "B"]
       else Some [data];
     fails := λ _, false;
     order := λ V l, l |}.

(** The same, but that the third operation on the key ring fails. *)
Definition flaky_env : Env :=
  {| parse := parse plain_env; fails := λ n, bool_decide (n = 2); order := λ V l, l |}.

Definition plain_gpg : gpg_pure := {| gpg_KeyID := λ k, k |}.

Definition world0 (cfg : list (string * string)) (kr : list (string * bool)) : World :=
  {| sem_cur := 0; config := Some (list_to_map cfg); files := ∅; tmp_seq := 0;
     keyring := list_to_map kr; tick := 0 |}.

(** The example of the spec: the keys A and B are declared; the key ring
    has B, the key C, and the secret key S. *)
Definition example_world : World :=
  world0 [("A", "A"); ("B", "B")] [("B", false); ("C", false); ("S", true)].

End Keyring.


(** ** Package [repository]: the repository service *)

Module repositorypkg.
Import appsv1.

Record RepoQuery : Set := { Query_Repo : string; Query_ForceRefresh : bool }.
Record RepoCreateRequest : Set := { Create_Repo : option Repository; Create_Upsert : bool }.
Record RepoUpdateRequest : Set := { Update_Repo : option Repository }.
(** [RepoResponse] is the empty message. *)
Definition RepoResponse : Set := unit.

End repositorypkg.

Module repository.
Import appsv1 repositorypkg.

(** [git.Creds] are opaque: the credentials [argo.GetRepoCreds] derives from a
    repository record (or from nil). *)
Inductive Creds : Set :=
| argo_GetRepoCreds (repo : option Repository).

(** [rbacpolicy] *)
Definition ResourceRepositories : string := "repositories".
Definition ActionGet : string := "get".
Definition ActionCreate : string := "create".
Definition ActionUpdate : string := "update".
Definition ActionDelete : string := "delete".

(** The external calls of the service: the enforcer [s.enf], the storage
    [s.db], the connection cache [s.cache], [git.TestRepo], the clock and the
    log.  [claims] is [ctx.Value("claims")], the subject of the request. *)
Inductive Call : Type → Type :=
| enf_Enforce (claims resource action object : string) : Call bool
| db_ListRepoURLs : Call (list string * option error)
| db_GetRepository (url : string) : Call (option Repository * option error)
| db_CreateRepository (r : Repository) : Call (option Repository * option error)
| db_UpdateRepository (r : Repository) : Call (option Repository * option error)
| db_DeleteRepository (url : string) : Call (option error)
| db_ListRepositoryCredentials : Call (list string * option error)
| db_GetRepositoryCredentials (url : string)
  : Call (option Repository * option error)
| db_CreateRepositoryCredentials (r : Repository)
  : Call (option Repository * option error)
| db_UpdateRepositoryCredentials (r : Repository)
  : Call (option Repository * option error)
| db_DeleteRepositoryCredentials (url : string) : Call (option error)
| git_TestRepo (repo : string) (creds : Creds) (insecure enableLFS : bool)
  : Call (option error)
| cache_GetRepoConnectionState (url : string) : Call (ConnectionState * option error)
| cache_SetRepoConnectionState (url : string) (state : option ConnectionState)
  : Call (option error)
| metav1_Now : Call Time
| log_Warnf (msg : string) : Call unit
| log_Errorf (msg : string) : Call unit.

(** Modelled from the spec: [rbac.Enforcer.EnforceErr] is not part of the
    sources; it evaluates the oracle and, on denial, gives a permission
    error. *)
Definition permission_denied (resource action object : string) : error :=
  status_Errorf PermissionDenied
    ("permission denied: " +:+ resource +:+ ", " +:+ action +:+ ", " +:+ object).

Definition enf_EnforceErr (claims resource action object : string)
  : Prog Call (option error) :=
  allowed ← call (enf_Enforce claims resource action object);
  if allowed : bool then Ret None
  else Ret (Some (permission_denied resource action object)).

Section Server.
(** [ctx.Value("claims")] *)
Context (claims : string).

(** The part of [getConnectionState] after the look-up in the cache. *)
Definition getConnectionState_connect (url : string) : Prog Call ConnectionState :=
  now ← call metav1_Now;
  let connectionState :=
    {| Status := ConnectionStatusSuccessful; Message := ""; ModifiedAt := Some now |} in
  '(repo, err) ← call (db_GetRepository url);
  err ← match err with
        | None =>
          repo ← deref repo;
          call (git_TestRepo (Repo repo) (argo_GetRepoCreds (Some repo))
                  (IsInsecure repo) (EnableLFS repo))
        | Some e => Ret (Some e)
        end;
  let connectionState :=
    match err with
    | Some e =>
      {| Status := ConnectionStatusFailed;
         Message := "Unable to connect to repository: " +:+ Error e;
         ModifiedAt := Some now |}
    | None => connectionState
    end in
  err ← call (cache_SetRepoConnectionState url (Some connectionState));
  match err with
  | Some e =>
    call (log_Warnf ("getConnectionState cache set error " +:+ url +:+ ": " +:+ Error e))
  | None => Ret ()
  end ;;
  Ret connectionState.

(** Get the connection state for a given repository URL by connecting to the
    repo and evaluate the results.  Unless forceRefresh is set to true, the
    result may be retrieved out of the cache. *)
Definition getConnectionState (url : string) (forceRefresh : bool)
  : Prog Call ConnectionState :=
  if negb forceRefresh then
    '(connectionState, err) ← call (cache_GetRepoConnectionState url);
    match err with
    | None => Ret connectionState
    | Some _ => getConnectionState_connect url
    end
  else getConnectionState_connect url.

(** The loop [for _, url := range urls] of [ListRepositories]. *)
Fixpoint ListRepositories_loop (urls : list string) (items : list Repository)
  : Prog Call (list Repository + error) :=
  match urls with
  | [] => Ret (inl items)
  | url :: urls =>
    allowed ← call (enf_Enforce claims ResourceRepositories ActionGet url);
    if allowed : bool then
      '(repo, err) ← call (db_GetRepository url);
      match err with
      | Some e => Ret (inr e)
      | None =>
        repo ← deref repo;
        ListRepositories_loop urls
          (items ++ [ {| Repo := url; Username := Username repo; Password := "";
                         SSHPrivateKey := ""; ConnectionState_ := ConnectionState_zero;
                         Insecure := IsInsecure repo; EnableLFS := EnableLFS repo;
                         TLSClientCertData := ""; TLSClientCertKey := "" |} ])
      end
    else ListRepositories_loop urls items
  end.

(** Modelled from the spec: [util.RunAllAsync] is not part of the sources.  It
    runs one unit per item and waits for all of them; the units, which here
    never return an error, are run one after the other in the order of the
    items.  [done] are the items whose unit has run. *)
Fixpoint ListRepositories_states (items done : list Repository) (forceRefresh : bool)
  : Prog Call (list Repository) :=
  match items with
  | [] => Ret done
  | item :: items =>
    state ← getConnectionState (Repo item) forceRefresh;
    ListRepositories_states items (done ++ [set_ConnectionState state item]) forceRefresh
  end.

(** ListRepositories returns a list of all configured repositories and the
    state of their connections. *)
Definition ListRepositories (q : RepoQuery)
  : Prog Call (option (list Repository) * option error) :=
  '(urls, err) ← call db_ListRepoURLs;
  match err with
  | Some e => Ret (None, Some e)
  | None =>
    items ← ListRepositories_loop urls [];
    match items with
    | inr e => Ret (None, Some e)
    | inl items =>
      items ← ListRepositories_states items [] (Query_ForceRefresh q);
      Ret (Some items, None)
    end
  end.

(** UpdateRepository updates a repository configuration. *)
Definition UpdateRepository (q : RepoUpdateRequest)
  : Prog Call (option Repository * option error) :=
  r ← deref (Update_Repo q);
  err ← enf_EnforceErr claims ResourceRepositories ActionUpdate (Repo r);
  match err with
  | Some e => Ret (None, Some e)
  | None =>
    '(_, err) ← call (db_UpdateRepository r);
    Ret (Some (Repository_of_url (Repo r)), err)
  end.

(** UpdateRepositoryCredentials updates a repository credential set. *)
Definition UpdateRepositoryCredentials (q : RepoUpdateRequest)
  : Prog Call (option Repository * option error) :=
  r ← deref (Update_Repo q);
  err ← enf_EnforceErr claims ResourceRepositories ActionUpdate (Repo r);
  match err with
  | Some e => Ret (None, Some e)
  | None =>
    '(_, err) ← call (db_UpdateRepositoryCredentials r);
    Ret (Some (Repository_of_url (Repo r)), err)
  end.

Definition successful : ConnectionState :=
  {| Status := ConnectionStatusSuccessful; Message := ""; ModifiedAt := None |}.

(** CreateRepository creates a repository configuration.  [r := q.Repo] is a
    pointer, so that [r.ConnectionState = ...] changes the record of the
    request itself: from that line on [r] is the request's record with the
    connection state overwritten. *)
Definition CreateRepository (q : RepoCreateRequest)
  : Prog Call (option Repository * option error) :=
  r ← deref (Create_Repo q);
  err ← enf_EnforceErr claims ResourceRepositories ActionCreate (Repo r);
  match err with
  | Some e => Ret (None, Some e)
  | None =>
    (* If repository create request does not carry any credentials, check if
       there is a credential set configured for requested repository URL and
       use it for checking the access. *)
    creds ← (if negb (HasCredentials r) then
               '(repo, err) ← call (db_GetRepositoryCredentials (Repo r));
               Ret (match err with Some e => inr e | None => inl repo end)
             else
               Ret (inl (Some (CopyCredentialsFrom r (Repository_of_url (Repo r))))));
    match creds with
    | inr e => Ret (None, Some e)
    | inl repo =>
      err ← call (git_TestRepo (Repo r) (argo_GetRepoCreds repo) (IsInsecure r) (EnableLFS r));
      match err with
      | Some e => Ret (None, Some e)
      | None =>
        let r := set_ConnectionState successful r in
        '(repo, err) ← call (db_CreateRepository r);
        if decide (status_Code err = AlreadyExists) then
          (* act idempotent if existing spec matches new spec *)
          '(existing, getErr) ← call (db_GetRepository (Repo r));
          match getErr with
          | Some getErr =>
            Ret (None, Some (status_Errorf Internal
                   ("unable to check existing repository details: " +:+ Error getErr)))
          | None =>
            (* repository ConnectionState may differ, so make consistent
               before testing *)
            existing ← deref existing;
            let existing := set_ConnectionState (ConnectionState_ r) existing in
            if decide (existing = r) then
              Ret (Some (Repository_of_url (Repo existing)), None)
            else if Create_Upsert q then
              UpdateRepository {| Update_Repo := Some r |}
            else
              Ret (None, Some (status_Errorf InvalidArgument
                     "existing repository spec is different; use upsert flag to force update"))
          end
        else
          repo ← deref repo;
          Ret (Some (Repository_of_url (Repo repo)), err)
      end
    end
  end.

Definition CreateRepositoryCredentials (q : RepoCreateRequest)
  : Prog Call (option Repository * option error) :=
  r ← deref (Create_Repo q);
  err ← enf_EnforceErr claims ResourceRepositories ActionCreate (Repo r);
  match err with
  | Some e => Ret (None, Some e)
  | None =>
    '(repo, err) ← call (db_CreateRepositoryCredentials r);
    if decide (status_Code err = AlreadyExists) then
      (* act idempotent if existing spec matches new spec *)
      '(existing, getErr) ← call (db_GetRepositoryCredentials (Repo r));
      match getErr with
      | Some getErr =>
        Ret (None, Some (status_Errorf Internal
               ("unable to check existing repository credentials details: "
                +:+ Error getErr)))
      | None =>
        if decide (existing = Some r) then
          existing ← deref existing;
          Ret (Some (Repository_of_url (Repo existing)), None)
        else if Create_Upsert q then
          UpdateRepositoryCredentials {| Update_Repo := Some r |}
        else
          Ret (None, Some (status_Errorf InvalidArgument
                 "existing repository credentials spec is different; use upsert flag to force update"))
      end
    else
      repo ← deref repo;
      Ret (Some (Repository_of_url (Repo repo)), err)
  end.

(** DeleteRepository removes a repository from the configuration. *)
Definition DeleteRepository (q : RepoQuery)
  : Prog Call (option RepoResponse * option error) :=
  err ← enf_EnforceErr claims ResourceRepositories ActionDelete (Query_Repo q);
  match err with
  | Some e => Ret (None, Some e)
  | None =>
    (* invalidate cache *)
    err ← call (cache_SetRepoConnectionState (Query_Repo q) None);
    match err with
    | None => call (log_Errorf "error invalidating cache: <nil>")
    | Some _ => Ret ()
    end ;;
    err ← call (db_DeleteRepository (Query_Repo q));
    Ret (Some (), err)
  end.

(** DeleteRepositoryCredentials removes a credential set from the
    configuration. *)
Definition DeleteRepositoryCredentials (q : RepoQuery)
  : Prog Call (option RepoResponse * option error) :=
  err ← enf_EnforceErr claims ResourceRepositories ActionDelete (Query_Repo q);
  match err with
  | Some e => Ret (None, Some e)
  | None =>
    err ← call (db_DeleteRepositoryCredentials (Query_Repo q));
    Ret (Some (), err)
  end.

End Server.
End repository.

(** ** A reference store *)

Module Store.
Import appsv1 repository.

(** Modelled from the spec: the storage layer [db.ArgoDB], the enforcer, the
    connection cache and [git.TestRepo] are external collaborators whose code
    is not part of the sources.  Following sections 4.2 and 6 of the spec, the
    storage keeps one repository record per URL and one credential record
    per URL, with record-level get, list, create, update and delete; a create
    of a URL that is stored is refused with AlreadyExists, a get, update or
    delete of a URL that is not stored with NotFound, and a credential
    look-up is by exact match and gives nil when there is none.  The enforcer
    is the oracle [allowed]; [git.TestRepo] is the oracle [test_repo].  The
    cache maps a URL to its last state; setting nil clears the entry. *)
Record Env : Type := {
  allowed : string → string → string → string → bool;
  test_repo : string → Creds → bool → bool → option error;
}.

Record World : Type := {
  repos : gmap string Repository;
  credentials : gmap string Repository;
  cache : gmap string ConnectionState;
  clock : Time;
}.

Definition set_repos (f : gmap string Repository → gmap string Repository)
    (w : World) : World :=
  {| repos := f (repos w); credentials := credentials w; cache := cache w;
     clock := clock w |}.
Definition set_credentials (f : gmap string Repository → gmap string Repository)
    (w : World) : World :=
  {| repos := repos w; credentials := f (credentials w); cache := cache w;
     clock := clock w |}.
Definition set_cache (f : gmap string ConnectionState → gmap string ConnectionState)
    (w : World) : World :=
  {| repos := repos w; credentials := credentials w; cache := f (cache w);
     clock := clock w |}.
Definition set_clock (f : Time → Time) (w : World) : World :=
  {| repos := repos w; credentials := credentials w; cache := cache w;
     clock := f (clock w) |}.

Definition already_exists (url : string) : error :=
  status_Errorf AlreadyExists ("repository '" +:+ url +:+ "' already exists").
Definition not_found (url : string) : error :=
  status_Errorf NotFound ("repo '" +:+ url +:+ "' not found").

Definition create (r : Repository) (m : gmap string Repository)
  : option Repository * option error * gmap string Repository :=
  match m !! Repo r with
  | Some _ => (None, Some (already_exists (Repo r)), m)
  | None => (Some r, None, <[Repo r := r]> m)
  end.

Definition update (r : Repository) (m : gmap string Repository)
  : option Repository * option error * gmap string Repository :=
  match m !! Repo r with
  | Some _ => (Some r, None, <[Repo r := r]> m)
  | None => (None, Some (not_found (Repo r)), m)
  end.

Definition remove (url : string) (m : gmap string Repository)
  : option error * gmap string Repository :=
  match m !! url with
  | Some _ => (None, delete url m)
  | None => (Some (not_found url), m)
  end.

Definition handle (env : Env) : Handler Call World :=
  λ X c w,
  match c in Call X return X * World with
  | enf_Enforce claims resource action object =>
    (allowed env claims resource action object, w)
  | db_ListRepoURLs => ((map_to_list (repos w)).*1, None, w)
  | db_GetRepository url =>
    match repos w !! url with
    | Some r => (Some r, None, w)
    | None => (None, Some (not_found url), w)
    end
  | db_CreateRepository r =>
    let res := create r (repos w) in (res.1, set_repos (λ _, res.2) w)
  | db_UpdateRepository r =>
    let res := update r (repos w) in (res.1, set_repos (λ _, res.2) w)
  | db_DeleteRepository url =>
    let res := remove url (repos w) in (res.1, set_repos (λ _, res.2) w)
  | db_ListRepositoryCredentials => ((map_to_list (credentials w)).*1, None, w)
  | db_GetRepositoryCredentials url => (credentials w !! url, None, w)
  | db_CreateRepositoryCredentials r =>
    let res := create r (credentials w) in (res.1, set_credentials (λ _, res.2) w)
  | db_UpdateRepositoryCredentials r =>
    let res := update r (credentials w) in (res.1, set_credentials (λ _, res.2) w)
  | db_DeleteRepositoryCredentials url =>
    let res := remove url (credentials w) in (res.1, set_credentials (λ _, res.2) w)
  | git_TestRepo repo creds insecure enableLFS =>
    (test_repo env repo creds insecure enableLFS, w)
  | cache_GetRepoConnectionState url =>
    match cache w !! url with
    | Some state => (state, None, w)
    | None => (ConnectionState_zero, Some (Errorf "cache: key is missing"), w)
    end
  | cache_SetRepoConnectionState url state =>
    (None, set_cache (λ m, match state with
                           | Some state => <[url := state]> m
                           | None => delete url m
                           end) w)
  | metav1_Now => (clock w, set_clock (λ t, t + 1)%Z w)
  | log_Warnf _ | log_Errorf _ => ((), w)
  end.

(** An environment to run examples in: everything is allowed, and every
    repository is reachable except those of the host [down]. *)
Definition open_env : Env :=
  {| allowed := λ _ _ _ _, true;
     test_repo := λ repo _ _ _,
       if decide (repo = "https://down/x")
       then Some (Errorf "repository not found") else None |}.

Definition empty_world : World :=
  {| repos := ∅; credentials := ∅; cache := ∅; clock := 0%Z |}.

(** The world that stores the records [l] and nothing else. *)
Definition world_of (l : list Repository) : World :=
  {| repos := list_to_map ((λ r, (Repo r, r)) <$> l); credentials := ∅;
     cache := ∅; clock := 0%Z |}.

(** Two records for the same URL that differ in their credentials. *)
Definition alice : Repository :=
  {| Repo := "git@x/y"; Username := "alice"; Password := "s3cret"; SSHPrivateKey := "";
     ConnectionState_ := ConnectionState_zero; Insecure := false; EnableLFS := false;
     TLSClientCertData := ""; TLSClientCertKey := "" |}.
Definition bob : Repository :=
  {| Repo := "git@x/y"; Username := "bob"; Password := "hunter2"; SSHPrivateKey := "";
     ConnectionState_ := ConnectionState_zero; Insecure := false; EnableLFS := true;
     TLSClientCertData := ""; TLSClientCertKey := "" |}.

Definition open_and_secret : World :=
  world_of [Repository_of_url "https://open/r"; Repository_of_url "https://secret/r"].

(** An environment in which the enforcer denies every action on the
    repositories of the host [secret] and allows everything else. *)
Definition guarded_env : Env :=
  {| allowed := λ _ _ _ object, bool_decide (object ≠ "https://secret/r");
     test_repo := λ _ _ _ _, None |}.

End Store.


(** ** The vocabulary of the statements *)

Module KeySpec.
Import appsv1 db Keyring.

Section Entries.
Context `{gpg_pure} (env : Env).

(** The entry [k ↦ p] of the ConfigMap is accepted: [k] denotes a key ID, and
    the material [p] holds exactly one key, the one of this ID. *)
Definition Accepted (k p : string) : Prop :=
  gpg_KeyID k ≠ "" ∧ parse env p = Some [gpg_KeyID k].

(** The entry is rejected: its material fails validation, is ambiguous, holds
    a key of another ID than the declared one, or its key denotes no key
    ID. *)
Inductive Rejected (k p : string) : Prop :=
| fails_validation : parse env p = None → Rejected k p
| ambiguous ids : parse env p = Some ids → length ids ≠ 1 → Rejected k p
| keyID_mismatch parsedKeyID :
    parse env p = Some [parsedKeyID] → parsedKeyID ≠ gpg_KeyID k → Rejected k p
| invalid_keyID : gpg_KeyID k = "" → Rejected k p.

(** What the loop of [ListConfiguredGPGPublicKeys] builds from accepted
    entries visited in the order [entries]. *)
Definition declared (entries : list (string * string)) (result : gmap string string)
  : gmap string string :=
  foldl (λ m kp, <[gpg_KeyID kp.1 := kp.2]> m) result entries.

(** The declared key set of a ConfigMap, as a set of key IDs. *)
Definition declared_keys (data : gmap string string) : gset string :=
  set_map gpg_KeyID (dom data).

End Entries.

(** The call neither touches the semaphore nor changes the key ring. *)
Definition reads (X : Type) (c : Call X) : Prop :=
  is_sem c = false ∧ is_import c = false ∧ is_delete c = false.
Definition no_sem (X : Type) (c : Call X) : Prop := is_sem c = false.

(** The call deletes the key [keyID]; the call spares it. *)
Definition deletes (keyID : string) (X : Type) (c : Call X) : Prop :=
  match c with
  | gpg_DeletePGPKey keyID' => keyID' = keyID
  | _ => False
  end.

Definition spares (keyID : string) (X : Type) (c : Call X) : Prop := ¬ deletes keyID X c.

(** The handler keeps the secret keys: with [secret w keyID] saying that the
    key is marked secret in the world [w], a key marked secret is reported
    as secret whenever [gpg.IsSecretKey] answers without an error, and it
    stays marked secret through every call but its own delete. *)
Record SecretKeeper {W} (h : Handler Call W) (secret : W → string → Prop) : Prop := {
  secret_answer keyID w isSecret :
    secret w keyID → (h _ (gpg_IsSecretKey keyID) w).1 = (isSecret, None) →
    isSecret = true;
  secret_kept X (c : Call X) keyID w :
    ¬ deletes keyID X c → secret w keyID → secret (h X c w).2 keyID;
}.


(** From a world in which [keyID] is marked secret, the program makes no call
    that deletes [keyID] and ends in a world in which it is still marked. *)
Definition Safe {W} (h : Handler Call W) (secret : W → string → Prop)
    (keyID : string) {A} (p : Prog Call A) : Prop :=
  ∀ w, secret w keyID →
    Forall (EventIs (spares keyID)) (trace h p w) ∧
    secret (final h p w) keyID.

(** The import or the delete recorded by the event succeeded (other events
    pass). *)
Definition mutation_succeeded (ev : Event Call) : Prop :=
  match ev with
  | Ev c x =>
    match c in Call X return X → Prop with
    | gpg_ImportPGPKeysFromString _ => λ x, x.2 = None
    | gpg_DeletePGPKey _ => λ x, x = None
    | _ => λ _, True
    end x
  end.

(** The import, the delete or the secret-key check recorded by the event
    succeeded (other events pass). *)
Definition attempt_succeeded (ev : Event Call) : Prop :=
  match ev with
  | Ev c x =>
    match c in Call X return X → Prop with
    | gpg_ImportPGPKeysFromString _ => λ x, x.2 = None
    | gpg_DeletePGPKey _ => λ x, x = None
    | gpg_IsSecretKey _ => λ x, x.2 = None
    | _ => λ _, True
    end x
  end.

(** The event is no import and no delete. *)
Definition no_mutation (X : Type) (c : Call X) : Prop :=
  is_import c = false ∧ is_delete c = false.

(** What one round of each loop of [SynchronizeGPGPublicKeys] does to the key
    ring when the import or the delete succeeds. *)
Definition import_step (installedKeys : gmap string GnuPGPublicKey)
    (kr : gmap string bool) (keyID : string) : gmap string bool :=
  match installedKeys !! keyID with
  | None => install kr keyID
  | Some _ => kr
  end.
Definition remove_step (configuredKeys : gmap string string)
    (kr : gmap string bool) (keyID : string) : gmap string bool :=
  match configuredKeys !! keyID with
  | None => if default false (kr !! keyID) then kr else delete keyID kr
  | Some _ => kr
  end.
(** The installed public keys that [ListInstalledGPGPublicKeys] collects. *)
Definition installed_step (kr : gmap string bool)
    (result : gmap string GnuPGPublicKey) (v : GnuPGPublicKey)
  : gmap string GnuPGPublicKey :=
  if default false (kr !! KeyID v) then result else <[KeyID v := v]> result.

(** Two worlds with the same key ring, ConfigMap and semaphore. *)
Definition same_ring (w w' : World) : Prop :=
  keyring w' = keyring w ∧ config w' = config w ∧ sem_cur w' = sem_cur w.


(** The phases of a call of [SynchronizeGPGPublicKeys]: before it tries the
    semaphore, while it holds it, after it was rejected, after it released
    it. *)
Inductive Phase : Set := Fresh | Holding | Refused | Released.
Global Instance Phase_eq_dec : EqDecision Phase.
Proof. solve_decision. Defined.

(** What a goroutine in the phase [me] may do next, beside one in the phase
    [other], and the phase this takes it to. *)
Definition protocol_step (me other : Phase) (ev : Event Call) : option Phase :=
  match ev with
  | Ev c x =>
    match c in Call X return X → option Phase with
    | syncSemaphore_TryAcquire _ => λ acquired : bool,
      match me, acquired, other with
      | Fresh, true, (Fresh | Refused | Released) => Some Holding
      | Fresh, false, Holding => Some Refused
      | _, _, _ => None
      end
    | syncSemaphore_Release _ => λ _,
      match me with Holding => Some Released | _ => None end
    | _ => λ _,
      match me with Holding => Some Holding | _ => None end
    end x
  end.

Fixpoint protocol (ph1 ph2 : Phase) (tr : list (bool * Event Call))
  : option (Phase * Phase) :=
  match tr with
  | [] => Some (ph1, ph2)
  | (false, ev) :: tr =>
    match protocol_step ph1 ph2 ev with
    | Some ph1 => protocol ph1 ph2 tr
    | None => None
    end
  | (true, ev) :: tr =>
    match protocol_step ph2 ph1 ev with
    | Some ph2 => protocol ph1 ph2 tr
    | None => None
    end
  end.

Section Phases.
Context `{gpg_pure}.

(** The program a goroutine still has to run, by its phase. *)
Definition in_phase (ph : Phase) (p : Prog Call (option error)) : Prop :=
  match ph with
  | Fresh => p = SynchronizeGPGPublicKeys
  | Holding => ∃ rest, p = defer (call (syncSemaphore_Release 1)) rest ∧ CallsOnly no_sem rest
  | Refused => p = Ret (Some locked_error)
  | Released => (∃ err, p = Ret err) ∨ (∃ msg, p = Panic msg)
  end.

Definition held (ph1 ph2 : Phase) : Z :=
  if decide (ph1 = Holding ∨ ph2 = Holding) then 1%Z else 0%Z.
End Phases.

End KeySpec.

Module Spec.
Import appsv1 repositorypkg repository.

(** The program [p] is gated by the oracle for [action] on [url]: its first
    call asks the enforcer, and on denial this stays its only call, the
    program failing with the permission error. *)
Definition Gated (claims : string) {A} (p : Prog Call (option A * option error))
    (action url : string) : Prop :=
  ∀ (W : Type) (h : Handler Call W) (w : W),
    let ask := enf_Enforce claims ResourceRepositories action url in
    ∃ rest, trace h p w = Ev ask (h _ ask w).1 :: rest ∧
      ((h _ ask w).1 = false →
        rest = [] ∧
        outcome h p w
          = Done (None, Some (permission_denied ResourceRepositories action url)) ∧
        final h p w = (h _ ask w).2).

(** The event is a look-up of a repository that [allowed] permits and that
    the storage answered with the error [e]. *)
Definition failed_get (allowed : string → bool) (e : error) (ev : Event Call) : Prop :=
  match ev with
  | Ev c x =>
    match c in Call X return X → Prop with
    | db_GetRepository url => λ x, x.2 = Some e ∧ allowed url = true
    | _ => λ _, False
    end x
  end.

(** The states [getConnectionState] computes. *)
Definition state_successful (now : Time) : ConnectionState :=
  {| Status := ConnectionStatusSuccessful; Message := ""; ModifiedAt := Some now |}.
Definition state_failed (e : error) (now : Time) : ConnectionState :=
  {| Status := ConnectionStatusFailed;
     Message := "Unable to connect to repository: " +:+ Error e;
     ModifiedAt := Some now |}.

(** The world in which [getConnectionState] starts to connect, when it does:
    at once when a refresh is forced, after the cache has answered with an
    error otherwise. *)
Definition probing {W} (h : Handler Call W) (url : string) (forceRefresh : bool) (w : W)
  : option W :=
  if forceRefresh then Some w
  else let r := h _ (cache_GetRepoConnectionState url) w in
       match r.1.2 with Some _ => Some r.2 | None => None end.

(** A repository record without its connection state, the volatile field. *)
Definition spec_of (r : Repository) : Repository :=
  set_ConnectionState ConnectionState_zero r.

(** The connectivity test [CreateRepository] performs for the record [r] in
    the world [w] of the reference store: with the credentials of the
    record, or with the stored credential set of its URL when it has none. *)
Definition create_probe (env : Store.Env) (w : Store.World) (r : Repository)
  : option error :=
  Store.test_repo env (Repo r)
    (argo_GetRepoCreds
       (if HasCredentials r
        then Some (CopyCredentialsFrom r (Repository_of_url (Repo r)))
        else Store.credentials w !! Repo r))
    (IsInsecure r) (EnableLFS r).

(** The record the storage gave back for an insertion that it did not refuse
    as AlreadyExists. *)
Definition inserted (ev : Event Call) : option Repository :=
  match ev with
  | Ev c x =>
    match c in Call X return X → option Repository with
    | db_CreateRepository _ | db_CreateRepositoryCredentials _ =>
      λ x, if decide (status_Code x.2 = AlreadyExists) then None else x.1
    | _ => λ _, None
    end x
  end.

(** The URL of the response to a request for the record [r], given the calls
    of the run: the URL of the record the storage gave back when it has
    inserted one, the URL of the request otherwise. *)
Definition response_url (r : Repository) (calls : list (Event Call)) : string :=
  default (Repo r) (Repo <$> head (omap inserted calls)).

End Spec.

(** ** What the calls of a run did to the temporary files and the key ring *)

Module KeyTrace.
Import appsv1 db.

(** The temporary file the event created, removed, closed. *)
Definition created (ev : Event Call) : option string :=
  match ev with
  | Ev c x =>
    match c in Call X return X → option string with
    | ioutil_TempFile _ _ => λ x, match x.2 with None => Some x.1 | Some _ => None end
    | _ => λ _, None
    end x
  end.
Definition removed (ev : Event Call) : option string :=
  match ev with Ev (os_Remove name) _ => Some name | _ => None end.
Definition closed (ev : Event Call) : option string :=
  match ev with Ev (File_Close name) _ => Some name | _ => None end.

(** The event is the write of the temporary file, and failed. *)
Definition write_failed (ev : Event Call) : Prop :=
  match ev with
  | Ev c x =>
    match c in Call X return X → Prop with
    | ioutil_WriteFile _ _ _ => λ x, x ≠ None
    | _ => λ _, False
    end x
  end.

(** The event is the validator's answer [ans]. *)
Definition validator_answered (ans : list string * option error) (ev : Event Call) : Prop :=
  match ev with
  | Ev c x =>
    match c in Call X return X → Prop with
    | gpg_ValidatePGPKeys _ => λ x, x = ans
    | _ => λ _, False
    end x
  end.

(** The event is the check whether [keyID] is a secret key, answered [ans]. *)
Definition secret_check (keyID : string) (ans : bool * option error) (ev : Event Call)
  : Prop :=
  match ev with
  | Ev c x =>
    match c in Call X return X → Prop with
    | gpg_IsSecretKey k => λ x, k = keyID ∧ x = ans
    | _ => λ _, False
    end x
  end.


(** The key material the event tried to import, the key it tried to delete,
    the key it checked. *)
Definition imported (ev : Event Call) : option string :=
  match ev with Ev (gpg_ImportPGPKeysFromString keyData) _ => Some keyData | _ => None end.
Definition deleted (ev : Event Call) : option string :=
  match ev with Ev (gpg_DeletePGPKey keyID) _ => Some keyID | _ => None end.
Definition checked (ev : Event Call) : option string :=
  match ev with Ev (gpg_IsSecretKey keyID) _ => Some keyID | _ => None end.

End KeyTrace.

(** ** Programs over a larger signature *)

Module Lift.
Section lift.
Context {E F : Type → Type} (inj : ∀ X, E X → F X).

(** A program over the calls [E], as a program over the calls [F] that
    include them. *)
Fixpoint lift {A} (p : Prog E A) : Prog F A :=
  match p with
  | Ret a => Ret a
  | Panic msg => Panic msg
  | Do c k => Do (inj _ c) (λ x, lift (k x))
  end.

Definition lift_event (ev : Event E) : Event F :=
  match ev with Ev c x => Ev (inj _ c) x end.

(** A handler of the calls [F] handles the calls [E]. *)
Definition lower {W} (h : Handler F W) : Handler E W := λ X c, h X (inj X c).
End lift.
End Lift.

(** ** Package [db]: [InitializeGPGKeyRing] *)

Module gpgkeys.
Import appsv1 db Lift.

(** The external calls of [InitializeGPGKeyRing]: those of the functions
    above, and three more ([f.WriteString] on the temporary file of this
    name). *)
Inductive Call : Type → Type :=
| base {X : Type} (c : db.Call X) : Call X
| gpg_InitializeGnuPG : Call (option error)
| File_WriteString (name s : string) : Call (Z * option error)
| gpg_ImportPGPKeys (keyFile : string) : Call (list GnuPGPublicKey * option error).

Section gpgkeys.
Context `{gpg_pure}.

(** The loop [for _, key := range configuredKeys] of [InitializeGPGKeyRing]
    and the return after it.  The two [defer] of a round run when the
    function returns, after those of the later rounds. *)
Fixpoint InitializeGPGKeyRing_loop (entries : list (string * string))
    (importedKeys : gmap string GnuPGPublicKey)
  : Prog Call (option (gmap string GnuPGPublicKey) * option error) :=
  match entries with
  | [] => Ret (Some importedKeys, None)
  | (_, key) :: entries =>
    '(f, err) ← call (base (ioutil_TempFile "" "gpg-import-key"));
    match err with
    | Some e => Ret (None, Some e)
    | None =>
      defer (call (base (os_Remove f)) ;; Ret ()) (
      defer (call (base (File_Close f)) ;; Ret ()) (
        '(_, err) ← call (File_WriteString f key);
        match err with
        | Some e => Ret (None, Some e)
        | None =>
          '(keys, err) ← call (gpg_ImportPGPKeys f);
          match err with
          | Some e => Ret (None, Some e)
          | None =>
            (* This should not happen, because we already ensured singularity. *)
            if decide (length keys ≠ 1)
            then Ret (None, Some (Errorf "Unexpected key data."))
            else match keys with
                 | keys0 :: _ =>
                   call (base (log_Infof ("Imported GnuPG key with keyID '"
                           +:+ KeyID keys0 +:+ "' to local keyring"))) ;;
                   InitializeGPGKeyRing_loop entries (<[KeyID keys0 := keys0]> importedKeys)
                 | [] => Panic "index out of range"
                 end
          end
        end))
    end
  end.

(** InitializeGPGKeyRing initializes a GnuPG keyring and imports all public
    keys configured in the ConfigMap. *)
Definition InitializeGPGKeyRing
  : Prog Call (option (gmap string GnuPGPublicKey) * option error) :=
  let importedKeys : gmap string GnuPGPublicKey := ∅ in
  err ← call gpg_InitializeGnuPG;
  match err with
  | Some e => Ret (None, Some e)
  | None =>
    '(configuredKeys, err) ← lift (@base) ListConfiguredGPGPublicKeys;
    match err with
    | Some e => Ret (None, Some e)
    | None =>
      entries ← call (base (range (gomap configuredKeys)));
      InitializeGPGKeyRing_loop entries importedKeys
    end
  end.
End gpgkeys.

(** What an event did to a temporary file. *)
Inductive FileOp : Set := Created (f : string) | Closed (f : string) | Removed (f : string).

Definition file_op (ev : Event Call) : option FileOp :=
  match ev with
  | Ev c x =>
    match c in Call X return X → option FileOp with
    | base c => λ x,
      match KeyTrace.created (Ev c x), KeyTrace.closed (Ev c x), KeyTrace.removed (Ev c x) with
      | Some f, _, _ => Some (Created f)
      | _, Some f, _ => Some (Closed f)
      | _, _, Some f => Some (Removed f)
      | _, _, _ => None
      end
    | _ => λ _, None
    end x
  end.
Definition created (ev : Event Call) : option string :=
  match file_op ev with Some (Created f) => Some f | _ => None end.
Definition removed (ev : Event Call) : option string :=
  match file_op ev with Some (Removed f) => Some f | _ => None end.
(** The closes and removes. *)
Definition cleanup (ev : Event Call) : option FileOp :=
  match file_op ev with Some (Created _) => None | op => op end.




(** The call is none on the semaphore and deletes no key. *)
Definition unlocked (X : Type) (c : Call X) : Prop :=
  match c with
  | base c => is_sem c = false ∧ is_delete c = false
  | _ => True
  end.

End gpgkeys.

(** ** Package [repository]: the other operations of the service *)

Module server.
Import appsv1 repositorypkg repository Lift.

(** What the service uses and the sources do not declare: the types of the
    connection to the repo server, of its client and of the messages the
    service only passes on, the constants of [appsv1.ApplicationSourceType]
    (a string type), [kustomize.KustomizationNames], and the pure functions
    [path.Join] (of two elements), [path.Dir] and [filepath.Dir].  They are
    parameters of the development. *)
Class external : Type := {
  Conn : Type;
  RepoClient : Type;
  HelmRepository : Type;
  HelmAppDetailsQuery : Type;
  KsonnetAppDetailsQuery : Type;
  RepoAppDetailsResponse : Type;
  ApplicationSourceTypeKsonnet : string;
  ApplicationSourceTypeHelm : string;
  ApplicationSourceTypeKustomize : string;
  KustomizationNames : list string;
  path_Join : string → string → string;
  path_Dir : string → string;
  filepath_Dir : string → string;
}.

(** The messages, with the fields the service reads or writes. *)
Record RepoAccessQuery : Set := {
  Access_Repo : string;
  Access_Username : string;
  Access_Password : string;
  Access_SshPrivateKey : string;
  Access_Insecure : bool;
  Access_TlsClientCertData : string;
  Access_TlsClientCertKey : string;
}.
Record RepoAppsQuery : Set := { Apps_Repo : string; Apps_Revision : string }.
Record AppInfo : Set := { App_Type : string; App_Path : string }.
Record RepoAppsResponse : Set := { Apps_Items : list AppInfo }.
Record ListDirRequest : Set := {
  ListDir_Repo : option Repository;
  ListDir_Revision : string;
  ListDir_Path : string;
}.
Record FileList : Set := { Items : list string }.
Record KustomizeOptions : Set := { BuildOptions : string }.

Section Messages.
Context `{external}.

Record RepoAppDetailsQuery : Type := {
  Details_Repo : string;
  Details_Revision : string;
  Details_Path : string;
  Details_Helm : option HelmAppDetailsQuery;
  Details_Ksonnet : option KsonnetAppDetailsQuery;
}.
Record RepoServerAppDetailsQuery : Type := {
  Server_Repo : option Repository;
  Server_Revision : string;
  Server_Path : string;
  Server_HelmRepos : list HelmRepository;
  Server_Helm : option HelmAppDetailsQuery;
  Server_Ksonnet : option KsonnetAppDetailsQuery;
  Server_KustomizeOptions : option KustomizeOptions;
}.

(** The external calls of these operations: those of the operations above,
    the repo server ([s.repoClientset] and the client it gives), the Helm
    repositories of the storage and the settings.  [git_TestRepo_nil] is
    [git.TestRepo] with the nil [git.Creds], which [ValidateAccess] passes
    when there are no credentials at all; [range_paths] is the order in which
    [ListApps] visits the map of the paths. *)
Inductive Call : Type → Type :=
| base {X : Type} (c : repository.Call X) : Call X
| repoClientset_NewRepoServerClient
  : Call (option Conn * option RepoClient * option error)
| util_Close (conn : option Conn) : Call unit
| repoClient_ListDir (repoClient : RepoClient) (req : ListDirRequest)
  : Call (option FileList * option error)
| repoClient_GetAppDetails (repoClient : RepoClient) (q : RepoServerAppDetailsQuery)
  : Call (option RepoAppDetailsResponse * option error)
| db_ListHelmRepos : Call (list HelmRepository * option error)
| settings_GetKustomizeBuildOptions : Call (string * option error)
| git_TestRepo_nil (repo : string) (insecure enableLFS : bool) : Call (option error)
| range_paths (m : gmap string string) : Call (list (string * string)).

Section Server.
(** [ctx.Value("claims")] *)
Context (claims : string).

(** The loop [for _, url := range urls] of [ListRepositoryCredentials]. *)
Fixpoint ListRepositoryCredentials_loop (urls : list string) (items : list Repository)
  : Prog repository.Call (list Repository + error) :=
  match urls with
  | [] => Ret (inl items)
  | url :: urls =>
    allowed ← call (enf_Enforce claims ResourceRepositories ActionGet url);
    if allowed : bool then
      '(repo, err) ← call (db_GetRepositoryCredentials url);
      match err with
      | Some e => Ret (inr e)
      | None =>
        repo ← deref repo;
        ListRepositoryCredentials_loop urls
          (items ++ [ {| Repo := url; Username := Username repo; Password := "";
                         SSHPrivateKey := ""; ConnectionState_ := ConnectionState_zero;
                         Insecure := false; EnableLFS := false;
                         TLSClientCertData := ""; TLSClientCertKey := "" |} ])
      end
    else ListRepositoryCredentials_loop urls items
  end.

(** ListRepositoryCredentials returns a list of all configured repository
    credential sets. *)
Definition ListRepositoryCredentials (q : RepoQuery)
  : Prog repository.Call (option (list Repository) * option error) :=
  '(urls, err) ← call db_ListRepositoryCredentials;
  match err with
  | Some e => Ret (None, Some e)
  | None =>
    items ← ListRepositoryCredentials_loop urls [];
    match items with
    | inr e => Ret (None, Some e)
    | inl items => Ret (Some items, None)
    end
  end.

Definition getKustomizationRes (repoClient : RepoClient) (repo : option Repository)
    (revision subPath : string) : Prog Call (option FileList * option error) :=
  match KustomizationNames with
  | kustomization :: _ =>
    let request := {| ListDir_Repo := repo; ListDir_Revision := revision;
                      ListDir_Path := path_Join subPath ("*" +:+ kustomization) |} in
    '(kustomizationRes, err) ← call (repoClient_ListDir repoClient request);
    match err with
    | Some e => Ret (None, Some e)
    | None => Ret (kustomizationRes, None)
    end
  | [] => Ret (None, Some (Errorf "could not find kustomization"))
  end.

(** The map [listAppsPaths] builds from the four listings: the loops over
    the items of [componentRes], [ksonnetRes], [helmRes] and
    [kustomizationRes]. *)
Definition listAppsPaths_componentDirs (componentRes : list string) : gset string :=
  foldl (λ componentDirs i, {[ filepath_Dir (filepath_Dir i) ]} ∪ componentDirs)
    ∅ componentRes.

Definition listAppsPaths_pathToType (ksonnetRes componentRes helmRes kustomizationRes
    : list string) : gmap string string :=
  let componentDirs := listAppsPaths_componentDirs componentRes in
  let pathToType :=
    foldl (λ pathToType i,
             if decide (filepath_Dir i ∈ componentDirs)
             then <[i := ApplicationSourceTypeKsonnet]> pathToType
             else pathToType)
      ∅ ksonnetRes in
  let pathToType :=
    foldl (λ pathToType i, <[i := ApplicationSourceTypeHelm]> pathToType)
      pathToType helmRes in
  foldl (λ pathToType i, <[i := ApplicationSourceTypeKustomize]> pathToType)
    pathToType kustomizationRes.

Definition listAppsPaths (repoClient : RepoClient) (repo : option Repository)
    (revision subPath : string) : Prog Call (option (gmap string string) * option error) :=
  let revision := if decide (revision = "") then "HEAD" else revision in
  '(ksonnetRes, err) ← call (repoClient_ListDir repoClient
      {| ListDir_Repo := repo; ListDir_Revision := revision;
         ListDir_Path := path_Join subPath "*app.yaml" |});
  match err with
  | Some e => Ret (None, Some e)
  | None =>
    '(componentRes, err) ← call (repoClient_ListDir repoClient
        {| ListDir_Repo := repo; ListDir_Revision := revision;
           ListDir_Path := path_Join subPath "*components/params.libsonnet" |});
    match err with
    | Some e => Ret (None, Some e)
    | None =>
      '(helmRes, err) ← call (repoClient_ListDir repoClient
          {| ListDir_Repo := repo; ListDir_Revision := revision;
             ListDir_Path := path_Join subPath "*Chart.yaml" |});
      match err with
      | Some e => Ret (None, Some e)
      | None =>
        '(kustomizationRes, err) ← getKustomizationRes repoClient repo revision subPath;
        match err with
        | Some e => Ret (None, Some e)
        | None =>
          componentRes ← deref componentRes;
          ksonnetRes ← deref ksonnetRes;
          helmRes ← deref helmRes;
          kustomizationRes ← deref kustomizationRes;
          Ret (Some (listAppsPaths_pathToType (Items ksonnetRes) (Items componentRes)
                       (Items helmRes) (Items kustomizationRes)), None)
        end
      end
    end
  end.

(** ListApps returns list of apps in the repo. *)
Definition ListApps (q : RepoAppsQuery) : Prog Call (option RepoAppsResponse * option error) :=
  err ← lift (@base) (enf_EnforceErr claims ResourceRepositories ActionGet (Apps_Repo q));
  match err with
  | Some e => Ret (None, Some e)
  | None =>
    '(repo, err) ← call (base (db_GetRepository (Apps_Repo q)));
    match err with
    | Some e => Ret (None, Some e)
    | None =>
      (* Test the repo *)
      '(conn, repoClient, err) ← call repoClientset_NewRepoServerClient;
      match err with
      | Some e => Ret (None, Some e)
      | None =>
        defer (call (util_Close conn)) (
          let revision := Apps_Revision q in
          let revision := if decide (revision = "") then "HEAD" else revision in
          repoClient ← deref repoClient;
          '(paths, err) ← listAppsPaths repoClient repo revision "";
          match err with
          | Some e => Ret (None, Some e)
          | None =>
            entries ← call (range_paths (gomap paths));
            let items :=
              (λ '(appFilePath, appType),
                 {| App_Path := path_Dir appFilePath; App_Type := appType |}) <$> entries in
            Ret (Some {| Apps_Items := items |}, None)
          end)
      end
    end
  end.

Definition GetAppDetails (q : RepoAppDetailsQuery)
  : Prog Call (option RepoAppDetailsResponse * option error) :=
  err ← lift (@base) (enf_EnforceErr claims ResourceRepositories ActionGet (Details_Repo q));
  match err with
  | Some e => Ret (None, Some e)
  | None =>
    '(repo, err) ← call (base (db_GetRepository (Details_Repo q)));
    match err with
    | Some e => Ret (None, Some e)
    | None =>
      '(conn, repoClient, err) ← call repoClientset_NewRepoServerClient;
      match err with
      | Some e => Ret (None, Some e)
      | None =>
        defer (call (util_Close conn)) (
          '(helmRepos, err) ← call db_ListHelmRepos;
          match err with
          | Some e => Ret (None, Some e)
          | None =>
            '(buildOptions, err) ← call settings_GetKustomizeBuildOptions;
            match err with
            | Some e => Ret (None, Some e)
            | None =>
              repoClient ← deref repoClient;
              call (repoClient_GetAppDetails repoClient
                {| Server_Repo := repo;
                   Server_Revision := Details_Revision q;
                   Server_Path := Details_Path q;
                   Server_HelmRepos := helmRepos;
                   Server_Helm := Details_Helm q;
                   Server_Ksonnet := Details_Ksonnet q;
                   Server_KustomizeOptions := Some {| BuildOptions := buildOptions |} |})
            end
          end)
      end
    end
  end.

(** The record [repo] that [ValidateAccess] builds from the query; its URL
    is not set. *)
Definition ValidateAccess_repo (q : RepoAccessQuery) : Repository :=
  {| Repo := ""; Username := Access_Username q; Password := Access_Password q;
     SSHPrivateKey := Access_SshPrivateKey q;
     ConnectionState_ := ConnectionState_zero;
     Insecure := Access_Insecure q; EnableLFS := false;
     TLSClientCertData := Access_TlsClientCertData q;
     TLSClientCertKey := Access_TlsClientCertKey q |}.

(** ValidateAccess checks whether access to a repository is possible with
    the given URL and credentials. *)
Definition ValidateAccess (q : RepoAccessQuery)
  : Prog Call (option RepoResponse * option error) :=
  err ← lift (@base) (enf_EnforceErr claims ResourceRepositories ActionCreate (Access_Repo q));
  match err with
  | Some e => Ret (None, Some e)
  | None =>
    let repo := ValidateAccess_repo q in
    (* If repo does not have credentials *)
    creds ← (if negb (HasCredentials repo) then
               '(repoCreds, err) ← call (base (db_GetRepositoryCredentials (Access_Repo q)));
               match err with
               | Some e => Ret (inr e)
               | None =>
                 match repoCreds with
                 | None => Ret (inl None)
                 | Some _ => Ret (inl (Some (argo_GetRepoCreds repoCreds)))
                 end
               end
             else Ret (inl (Some (argo_GetRepoCreds (Some repo)))));
    match creds with
    | inr e => Ret (None, Some e)
    | inl creds =>
      err ← match creds with
            | Some creds =>
              call (base (git_TestRepo (Access_Repo q) creds (Access_Insecure q) false))
            | None => call (git_TestRepo_nil (Access_Repo q) (Access_Insecure q) false)
            end;
      match err with
      | Some e => Ret (None, Some e)
      | None => Ret (Some (), err)
      end
    end
  end.

End Server.
End Messages.
End server.

Module ServiceTrace.
Import appsv1 repositorypkg repository.

(** The record holds a URL and a user name and nothing else. *)
Definition only_username (item : Repository) : Prop :=
  item = {| Repo := Repo item; Username := Username item; Password := "";
            SSHPrivateKey := ""; ConnectionState_ := ConnectionState_zero;
            Insecure := false; EnableLFS := false;
            TLSClientCertData := ""; TLSClientCertKey := "" |}.

(** The record carries no secret: no password, no SSH key, no TLS client
    certificate. *)
Definition no_secret (item : Repository) : Prop :=
  Password item = "" ∧ SSHPrivateKey item = "" ∧
  TLSClientCertData item = "" ∧ TLSClientCertKey item = "".

(** The call asks the enforcer or reads the credential sets. *)
Definition reads_credentials (X : Type) (c : Call X) : Prop :=
  match c with
  | enf_Enforce _ _ _ _ | db_ListRepositoryCredentials | db_GetRepositoryCredentials _ => True
  | _ => False
  end.

(** The URL whose record the call looks up in the storage, or whose cached
    connection state it reads or writes. *)
Definition touched {X} (c : Call X) : option string :=
  match c with
  | db_GetRepository url => Some url
  | cache_GetRepoConnectionState url => Some url
  | cache_SetRepoConnectionState url _ => Some url
  | _ => None
  end.
Definition touches (P : string → Prop) (X : Type) (c : Call X) : Prop :=
  match touched c with Some url => P url | None => True end.

(** The connection state the event wrote to the cache for [url]. *)
Definition cached (url : string) (ev : Event Call) : option (option ConnectionState) :=
  match ev with
  | Ev (cache_SetRepoConnectionState url' state) _ =>
    if decide (url' = url) then Some state else None
  | _ => None
  end.
Definition reads_cache (X : Type) (c : Call X) : Prop :=
  match c with cache_GetRepoConnectionState _ => True | _ => False end.

(** The record the event gave to the storage to create or to update. *)
Definition stored (ev : Event Call) : option Repository :=
  match ev with
  | Ev (db_CreateRepository r) _ | Ev (db_UpdateRepository r) _ => Some r
  | _ => None
  end.

(** The event is the connectivity test of the repository [repo], answered
    [ans]. *)
Definition probe (repo : string) (ans : option error) (ev : Event Call) : Prop :=
  match ev with
  | Ev c x =>
    match c in Call X return X → Prop with
    | git_TestRepo repo' _ _ _ => λ x, repo' = repo ∧ x = ans
    | _ => λ _, False
    end x
  end.

(** The event is the insertion of a repository or of a credential set,
    answered [ans]. *)
Definition insertion (ans : option Repository * option error) (ev : Event Call) : Prop :=
  match ev with
  | Ev c x =>
    match c in Call X return X → Prop with
    | db_CreateRepository _ | db_CreateRepositoryCredentials _ => λ x, x = ans
    | _ => λ _, False
    end x
  end.

(** A storage that is out of order, to run examples with: the enforcer
    allows everything, the connectivity test passes, and every request to
    the storage fails. *)
Definition out_of_order : error := status_Errorf Internal "storage is out of order".
Definition broken_storage : Handler Call unit :=
  λ X c w,
  match c in Call X return X * unit with
  | enf_Enforce _ _ _ _ => (true, w)
  | db_ListRepoURLs | db_ListRepositoryCredentials => ([], Some out_of_order, w)
  | db_GetRepository _ | db_GetRepositoryCredentials _
  | db_CreateRepository _ | db_UpdateRepository _
  | db_CreateRepositoryCredentials _ | db_UpdateRepositoryCredentials _ =>
    (None, Some out_of_order, w)
  | db_DeleteRepository _ | db_DeleteRepositoryCredentials _ => (Some out_of_order, w)
  | git_TestRepo _ _ _ _ => (None, w)
  | cache_GetRepoConnectionState _ =>
    (ConnectionState_zero, Some (Errorf "cache: key is missing"), w)
  | cache_SetRepoConnectionState _ _ => (None, w)
  | metav1_Now => (0%Z, w)
  | log_Warnf _ | log_Errorf _ => ((), w)
  end.

End ServiceTrace.

Module ServerTrace.
Import appsv1 repositorypkg repository server.

Section ServerTrace.
Context `{external}.

(** The program first asks the enforcer for [action] on [url], and on denial
    this is its only call and it fails with the permission error. *)
Definition gated (claims : string) {A} (p : Prog Call (option A * option error))
    (action url : string) : Prop :=
  ∀ (W : Type) (h : Handler Call W) (w : W),
    let ask := base (enf_Enforce claims ResourceRepositories action url) in
    (∃ rest, trace h p w = Ev ask (h _ ask w).1 :: rest) ∧
    ((h _ ask w).1 = false →
     run h p w
     = (Done (None, Some (permission_denied ResourceRepositories action url)),
        [Ev ask false], (h _ ask w).2)).

(** The connection to the repo server the event opened, closed. *)
Definition opened (ev : Event Call) : option (option Conn) :=
  match ev with
  | Ev c x =>
    match c in Call X return X → option (option Conn) with
    | repoClientset_NewRepoServerClient =>
      λ x, match x.2 with None => Some x.1.1 | Some _ => None end
    | _ => λ _, None
    end x
  end.
Definition closed (ev : Event Call) : option (option Conn) :=
  match ev with Ev (util_Close conn) _ => Some conn | _ => None end.

(** The call neither opens nor closes a connection to the repo server. *)
Definition no_connection (X : Type) (c : Call X) : Prop :=
  match c with
  | repoClientset_NewRepoServerClient | util_Close _ => False
  | _ => True
  end.

(** The listing the event asked the repo server for. *)
Definition requested (ev : Event Call) : option ListDirRequest :=
  match ev with Ev (repoClient_ListDir _ req) _ => Some req | _ => None end.

(** The event is a listing by the repo server, answered [ans]. *)
Definition listed (ans : option FileList * option error) (ev : Event Call) : Prop :=
  match ev with
  | Ev c x =>
    match c in Call X return X → Prop with
    | repoClient_ListDir _ _ => λ x, x = ans
    | _ => λ _, False
    end x
  end.

(** The query the event passed on to the repo server, and the event being
    this call answered [ans]. *)
Definition details_asked (ev : Event Call) : option RepoServerAppDetailsQuery :=
  match ev with Ev (repoClient_GetAppDetails _ q) _ => Some q | _ => None end.
Definition details_answered (ans : option RepoAppDetailsResponse * option error)
    (ev : Event Call) : Prop :=
  match ev with
  | Ev c x =>
    match c in Call X return X → Prop with
    | repoClient_GetAppDetails _ _ => λ x, x = ans
    | _ => λ _, False
    end x
  end.

(** The event is the look-up of the repository [url], answered [ans]. *)
Definition repository_found (url : string) (ans : option Repository * option error)
    (ev : Event Call) : Prop :=
  match ev with
  | Ev c x =>
    match c in Call X return X → Prop with
    | base c =>
      match c in repository.Call X return X → Prop with
      | db_GetRepository url' => λ x, url' = url ∧ x = ans
      | _ => λ _, False
      end
    | _ => λ _, False
    end x
  end.

(** What [ValidateAccess] may call for the query [q]: the enforcer, the
    credential set of the URL, and the connectivity test of the URL, with the
    insecure flag of the query and without LFS. *)
Definition validates (q : RepoAccessQuery) (X : Type) (c : Call X) : Prop :=
  match c with
  | base (enf_Enforce _ _ _ _) => True
  | base (db_GetRepositoryCredentials url) => url = Access_Repo q
  | base (git_TestRepo repo _ insecure enableLFS) =>
    repo = Access_Repo q ∧ insecure = Access_Insecure q ∧ enableLFS = false
  | git_TestRepo_nil repo insecure enableLFS =>
    repo = Access_Repo q ∧ insecure = Access_Insecure q ∧ enableLFS = false
  | _ => False
  end.

(** The credentials the event tested the connection with: [None] for the nil
    credentials. *)
Definition tested_with (ev : Event Call) : option (option Creds) :=
  match ev with
  | Ev (base (git_TestRepo _ creds _ _)) _ => Some (Some creds)
  | Ev (git_TestRepo_nil _ _ _) _ => Some None
  | _ => None
  end.

(** The event is the look-up of a credential set, answered [ans]. *)
Definition credentials_found (ans : option Repository * option error) (ev : Event Call)
  : Prop :=
  match ev with
  | Ev c x =>
    match c in Call X return X → Prop with
    | base c =>
      match c in repository.Call X return X → Prop with
      | db_GetRepositoryCredentials _ => λ x, x = ans
      | _ => λ _, False
      end
    | _ => λ _, False
    end x
  end.
Definition reads_storage (X : Type) (c : Call X) : Prop :=
  match c with
  | base (db_GetRepositoryCredentials _) => True
  | _ => False
  end.

(** The event is the connectivity test, answered [ans]. *)
Definition tested (ans : option error) (ev : Event Call) : Prop :=
  match ev with
  | Ev c x =>
    match c in Call X return X → Prop with
    | base c =>
      match c in repository.Call X return X → Prop with
      | git_TestRepo _ _ _ _ => λ x, x = ans
      | _ => λ _, False
      end
    | git_TestRepo_nil _ _ _ => λ x, x = ans
    | _ => λ _, False
    end x
  end.

End ServerTrace.
End ServerTrace.

(** ** The REST gateway: [repository.pb.gw.go] *)

Module gateway.
Import appsv1 repositorypkg.

(** [utilities.DoubleArray], as the filters of the file spell it out. *)
Record DoubleArray : Set := {
  Encoding : list (string * Z);
  Base : list Z;
  Check : list Z;
}.

(** [runtime.ServerMetadata]: the header and the trailer of the answer
    ([metadata.MD]).  The zero value has two nil maps. *)
Record ServerMetadata : Set := {
  HeaderMD : list (string * list string);
  TrailerMD : list (string * list string);
}.
Definition ServerMetadata_zero : ServerMetadata := {| HeaderMD := []; TrailerMD := [] |}.

Definition RepoQuery_zero : RepoQuery := {| Query_Repo := ""; Query_ForceRefresh := false |}.
Definition RepoCreateRequest_zero : RepoCreateRequest :=
  {| Create_Repo := None; Create_Upsert := false |}.
Definition RepoUpdateRequest_zero : RepoUpdateRequest := {| Update_Repo := None |}.
Definition RepoAppsQuery_zero : server.RepoAppsQuery :=
  {| server.Apps_Repo := ""; server.Apps_Revision := "" |}.
Definition RepoAccessQuery_zero : server.RepoAccessQuery :=
  {| server.Access_Repo := ""; server.Access_Username := "";
     server.Access_Password := ""; server.Access_SshPrivateKey := "";
     server.Access_Insecure := false; server.Access_TlsClientCertData := "";
     server.Access_TlsClientCertKey := "" |}.

(** [protoReq.Repo = repo] *)
Definition RepoQuery_set_Repo (repo : string) (q : RepoQuery) : RepoQuery :=
  {| Query_Repo := repo; Query_ForceRefresh := Query_ForceRefresh q |}.
Definition RepoCreateRequest_set_Repo (repo : option Repository) (q : RepoCreateRequest)
  : RepoCreateRequest := {| Create_Repo := repo; Create_Upsert := Create_Upsert q |}.
Definition RepoAppsQuery_set_Repo (repo : string) (q : server.RepoAppsQuery)
  : server.RepoAppsQuery :=
  {| server.Apps_Repo := repo; server.Apps_Revision := server.Apps_Revision q |}.
Definition RepoAccessQuery_set_Repo (repo : string) (q : server.RepoAccessQuery)
  : server.RepoAccessQuery :=
  {| server.Access_Repo := repo; server.Access_Username := server.Access_Username q;
     server.Access_Password := server.Access_Password q;
     server.Access_SshPrivateKey := server.Access_SshPrivateKey q;
     server.Access_Insecure := server.Access_Insecure q;
     server.Access_TlsClientCertData := server.Access_TlsClientCertData q;
     server.Access_TlsClientCertKey := server.Access_TlsClientCertKey q |}.

(** The filters of the query parameters. *)
Definition filter_RepositoryService_ListRepositories_0 : DoubleArray :=
  {| Encoding := []; Base := []; Check := [] |}.
Definition filter_RepositoryService_ListApps_0 : DoubleArray :=
  {| Encoding := [("repo", 0%Z)]; Base := [1; 1; 0]%Z; Check := [0; 1; 2]%Z |}.
Definition filter_RepositoryService_CreateRepository_0 : DoubleArray :=
  {| Encoding := [("repo", 0%Z)]; Base := [1; 1; 0]%Z; Check := [0; 1; 2]%Z |}.
Definition filter_RepositoryService_DeleteRepository_0 : DoubleArray :=
  {| Encoding := [("repo", 0%Z)]; Base := [1; 1; 0]%Z; Check := [0; 1; 2]%Z |}.
Definition filter_RepositoryService_ValidateAccess_0 : DoubleArray :=
  {| Encoding := [("repo", 0%Z)]; Base := [1; 2; 0; 0]%Z; Check := [0; 1; 2; 2]%Z |}.

(** The methods of [RepositoryServiceClient] the functions below call. *)
Inductive Method : Type → Type → Type :=
| ListRepositories : Method RepoQuery (list Repository)
| ListApps : Method server.RepoAppsQuery server.RepoAppsResponse
| CreateRepository : Method RepoCreateRequest Repository
| UpdateRepository : Method RepoUpdateRequest Repository
| DeleteRepository : Method RepoQuery RepoResponse
| ValidateAccess : Method server.RepoAccessQuery RepoResponse.

(** The external calls of the gateway.  The request [req] is part of the
    world: [runtime_PopulateQueryParameters] reads its query and [Decode]
    its body.  A call that writes through a pointer returns what it has
    written: the message with its new fields, the decoded value, and for
    the method of the client the metadata it has filled in. *)
Inductive Call : Type → Type :=
| runtime_PopulateQueryParameters {M : Type} (msg : M) (filter : DoubleArray)
  : Call (M * option error)
| runtime_String (val : string) : Call (string * option error)
| runtime_PopulateFieldFromPath {M : Type} (msg : M) (fieldPath val : string)
  : Call (M * option error)
| Decode {T : Type} (v : T) : Call (T * option error)
| client {In Out : Type} (method : Method In Out) (protoReq : In)
  : Call (option Out * ServerMetadata * option error).

Section Requests.
Context (pathParams : gmap string string).

Definition request_RepositoryService_ListRepositories_0
  : Prog Call (option (list Repository) * ServerMetadata * option error) :=
  let protoReq := RepoQuery_zero in
  let metadata := ServerMetadata_zero in
  '(protoReq, err) ← call (runtime_PopulateQueryParameters protoReq
                             filter_RepositoryService_ListRepositories_0);
  match err with
  | Some err => Ret (None, metadata, Some (status_Errorf InvalidArgument (Error err)))
  | None => call (client ListRepositories protoReq)
  end.

Definition request_RepositoryService_ListApps_0
  : Prog Call (option server.RepoAppsResponse * ServerMetadata * option error) :=
  let protoReq := RepoAppsQuery_zero in
  let metadata := ServerMetadata_zero in
  match pathParams !! "repo" with
  | None =>
    Ret (None, metadata, Some (status_Errorf InvalidArgument ("missing parameter " +:+ "repo")))
  | Some val =>
    '(repo, err) ← call (runtime_String val);
    let protoReq := RepoAppsQuery_set_Repo repo protoReq in
    match err with
    | Some err =>
      Ret (None, metadata,
           Some (status_Errorf InvalidArgument
                   ("type mismatch, parameter: " +:+ "repo" +:+ ", error: " +:+ Error err)))
    | None =>
      '(protoReq, err) ← call (runtime_PopulateQueryParameters protoReq
                                 filter_RepositoryService_ListApps_0);
      match err with
      | Some err => Ret (None, metadata, Some (status_Errorf InvalidArgument (Error err)))
      | None => call (client ListApps protoReq)
      end
    end
  end.

Definition request_RepositoryService_CreateRepository_0
  : Prog Call (option Repository * ServerMetadata * option error) :=
  let protoReq := RepoCreateRequest_zero in
  let metadata := ServerMetadata_zero in
  '(repo, err) ← call (Decode (Create_Repo protoReq));
  let protoReq := RepoCreateRequest_set_Repo repo protoReq in
  match err with
  | Some err => Ret (None, metadata, Some (status_Errorf InvalidArgument (Error err)))
  | None =>
    '(protoReq, err) ← call (runtime_PopulateQueryParameters protoReq
                               filter_RepositoryService_CreateRepository_0);
    match err with
    | Some err => Ret (None, metadata, Some (status_Errorf InvalidArgument (Error err)))
    | None => call (client CreateRepository protoReq)
    end
  end.

Definition request_RepositoryService_UpdateRepository_0
  : Prog Call (option Repository * ServerMetadata * option error) :=
  let protoReq := RepoUpdateRequest_zero in
  let metadata := ServerMetadata_zero in
  '(repo, err) ← call (Decode (Update_Repo protoReq));
  let protoReq := {| Update_Repo := repo |} in
  match err with
  | Some err => Ret (None, metadata, Some (status_Errorf InvalidArgument (Error err)))
  | None =>
    match pathParams !! "repo.repo" with
    | None =>
      Ret (None, metadata,
           Some (status_Errorf InvalidArgument ("missing parameter " +:+ "repo.repo")))
    | Some val =>
      '(protoReq, err) ← call (runtime_PopulateFieldFromPath protoReq "repo.repo" val);
      match err with
      | Some err =>
        Ret (None, metadata,
             Some (status_Errorf InvalidArgument
                     ("type mismatch, parameter: " +:+ "repo.repo" +:+ ", error: "
                      +:+ Error err)))
      | None => call (client UpdateRepository protoReq)
      end
    end
  end.

Definition request_RepositoryService_DeleteRepository_0
  : Prog Call (option RepoResponse * ServerMetadata * option error) :=
  let protoReq := RepoQuery_zero in
  let metadata := ServerMetadata_zero in
  match pathParams !! "repo" with
  | None =>
    Ret (None, metadata, Some (status_Errorf InvalidArgument ("missing parameter " +:+ "repo")))
  | Some val =>
    '(repo, err) ← call (runtime_String val);
    let protoReq := RepoQuery_set_Repo repo protoReq in
    match err with
    | Some err =>
      Ret (None, metadata,
           Some (status_Errorf InvalidArgument
                   ("type mismatch, parameter: " +:+ "repo" +:+ ", error: " +:+ Error err)))
    | None =>
      '(protoReq, err) ← call (runtime_PopulateQueryParameters protoReq
                                 filter_RepositoryService_DeleteRepository_0);
      match err with
      | Some err => Ret (None, metadata, Some (status_Errorf InvalidArgument (Error err)))
      | None => call (client DeleteRepository protoReq)
      end
    end
  end.

Definition request_RepositoryService_ValidateAccess_0
  : Prog Call (option RepoResponse * ServerMetadata * option error) :=
  let protoReq := RepoAccessQuery_zero in
  let metadata := ServerMetadata_zero in
  '(repo, err) ← call (Decode (server.Access_Repo protoReq));
  let protoReq := RepoAccessQuery_set_Repo repo protoReq in
  match err with
  | Some err => Ret (None, metadata, Some (status_Errorf InvalidArgument (Error err)))
  | None =>
    match pathParams !! "repo" with
    | None =>
      Ret (None, metadata,
           Some (status_Errorf InvalidArgument ("missing parameter " +:+ "repo")))
    | Some val =>
      '(repo, err) ← call (runtime_String val);
      let protoReq := RepoAccessQuery_set_Repo repo protoReq in
      match err with
      | Some err =>
        Ret (None, metadata,
             Some (status_Errorf InvalidArgument
                     ("type mismatch, parameter: " +:+ "repo" +:+ ", error: " +:+ Error err)))
      | None =>
        '(protoReq, err) ← call (runtime_PopulateQueryParameters protoReq
                                   filter_RepositoryService_ValidateAccess_0);
        match err with
        | Some err => Ret (None, metadata, Some (status_Errorf InvalidArgument (Error err)))
        | None => call (client ValidateAccess protoReq)
        end
      end
    end
  end.
End Requests.

(** The event is a call of the service. *)
Definition reaches_service (ev : Event Call) : Prop :=
  match ev with Ev (client _ _) _ => True | _ => False end.

(** The event is a step of the decoding of the request (of its body, of a
    path parameter, of its query) that failed. *)
Definition decoding_failed (ev : Event Call) : Prop :=
  match ev with
  | Ev c x =>
    match c in Call X return X → Prop with
    | runtime_PopulateQueryParameters _ _ => λ x, x.2 ≠ None
    | runtime_String _ => λ x, x.2 ≠ None
    | runtime_PopulateFieldFromPath _ _ _ => λ x, x.2 ≠ None
    | Decode _ => λ x, x.2 ≠ None
    | client _ _ => λ _, False
    end x
  end.

(** The function transcodes a request with the path parameters [params]:
    it calls the service at most once, as its last call, and returns what
    the service answers; it calls the service only when all the parameters
    are there and no step of the decoding has failed; and when it does not
    call the service it returns no message, the zero metadata, and an
    InvalidArgument error. *)
Definition transcodes (pathParams : gmap string string) (params : list string) {Out}
    (p : Prog Call (option Out * ServerMetadata * option error)) : Prop :=
  ∀ (W : Type) (h : Handler Call W) (w : W),
    ∃ ans, outcome h p w = Done ans ∧
    ((∃ pre In (method : Method In Out) protoReq,
        trace h p w = pre ++ [Ev (client method protoReq) ans] ∧
        Forall (λ ev, ¬ reaches_service ev ∧ ¬ decoding_failed ev) pre ∧
        Forall (λ param, is_Some (pathParams !! param)) params)
     ∨
     (Forall (λ ev, ¬ reaches_service ev) (trace h p w) ∧
      ∃ msg, ans = (None, ServerMetadata_zero, Some (status_Errorf InvalidArgument msg)))).

End gateway.

(** ** Worlds to run examples in *)

Module Examples.
Import appsv1 repositorypkg repository.

(** A store with two credential sets and no repository. *)
Definition two_credential_sets : Store.World :=
  Store.set_credentials
    (λ _, list_to_map [("https://open/r", Store.alice); ("https://secret/r", Store.bob)])
    Store.empty_world.

(** The policy of [Store.guarded_env] on the URLs. *)
Definition guarded (url : string) : bool := bool_decide (url ≠ "https://secret/r").

Definition list_all : RepoQuery := {| Query_Repo := ""; Query_ForceRefresh := false |}.

(** What [ListRepositories] answers for a store that holds [Store.alice]. *)
Definition alice_listed : Repository :=
  {| Repo := "git@x/y"; Username := "alice"; Password := ""; SSHPrivateKey := "";
     ConnectionState_ :=
       {| Status := ConnectionStatusSuccessful; Message := ""; ModifiedAt := Some 0%Z |};
     Insecure := false; EnableLFS := false;
     TLSClientCertData := ""; TLSClientCertKey := "" |}.

(** A record for another URL, with a user name and a password. *)
Definition carol : Repository :=
  {| Repo := "https://open/r"; Username := "carol"; Password := "pa55w0rd";
     SSHPrivateKey := ""; ConnectionState_ := ConnectionState_zero;
     Insecure := true; EnableLFS := true;
     TLSClientCertData := ""; TLSClientCertKey := "" |}.

End Examples.

(** Case analysis on the answers of a handler and on the branches of a
    program. *)
Ltac answer h :=
  match goal with
  | |- context [h ?X ?c ?w] =>
    let x := fresh "x" in let w' := fresh "w" in let Hx := fresh "Hx" in
    destruct (h X c w) as [x w'] eqn:Hx; simpl
  end.
Ltac branch :=
  match goal with
  | |- context [match ?x with _ => _ end] => is_var x; destruct x; simpl
  | |- context [if ?x then _ else _] => is_var x; destruct x; simpl
  end.
Ltac crunch h := simpl; repeat first [ answer h | branch | case_decide; simpl ].


(** * Properties *)

(** ** Running programs *)

Section ProgFacts.
Context {E : Type → Type} {W : Type} (h : Handler E W).

Lemma run_bind {A B} (p : Prog E A) (f : A → Prog E B) (w : W) :
  run h (bind p f) w =
    match outcome h p w with
    | Done a =>
      let r := run h (f a) (final h p w) in (r.1.1, trace h p w ++ r.1.2, r.2)
    | Panicked msg => (Panicked msg, trace h p w, final h p w)
    end.
Proof.
  revert w. induction p as [a|msg|X c k IH]; intros w.
  - simpl. unfold outcome, trace, final. simpl. by destruct (run h (f a) w) as [[??]?].
  - done.
  - simpl. rewrite IH. unfold outcome, trace, final. simpl.
    by destruct (run h (k (h X c w).1) (h X c w).2) as [[[a|msg] t] w'].
Qed.

Lemma run_mbind {A B} (p : Prog E A) (f : A → Prog E B) (w : W) :
  run h (p ≫= f) w =
    match outcome h p w with
    | Done a =>
      let r := run h (f a) (final h p w) in (r.1.1, trace h p w ++ r.1.2, r.2)
    | Panicked msg => (Panicked msg, trace h p w, final h p w)
    end.
Proof. apply run_bind. Qed.

Lemma outcome_mbind {A B} (p : Prog E A) (f : A → Prog E B) (w : W) :
  outcome h (p ≫= f) w =
    match outcome h p w with
    | Done a => outcome h (f a) (final h p w)
    | Panicked msg => Panicked msg
    end.
Proof. unfold outcome at 1. rewrite run_mbind. by destruct (outcome h p w). Qed.

Lemma trace_mbind {A B} (p : Prog E A) (f : A → Prog E B) (w : W) :
  trace h (p ≫= f) w =
    trace h p w ++
    match outcome h p w with
    | Done a => trace h (f a) (final h p w)
    | Panicked msg => []
    end.
Proof.
  unfold trace at 1. rewrite run_mbind.
  destruct (outcome h p w); simpl; by rewrite ?app_nil_r.
Qed.

Lemma final_mbind {A B} (p : Prog E A) (f : A → Prog E B) (w : W) :
  final h (p ≫= f) w =
    match outcome h p w with
    | Done a => final h (f a) (final h p w)
    | Panicked msg => final h p w
    end.
Proof. unfold final at 1. rewrite run_mbind. by destruct (outcome h p w). Qed.

Lemma run_call {X} (c : E X) (w : W) :
  run h (call c) w = (Done (h X c w).1, [Ev c (h X c w).1], (h X c w).2).
Proof. done. Qed.

Lemma run_defer {A} (d : Prog E unit) (p : Prog E A) (w : W) :
  run h (defer d p) w =
    let r := run h p w in
    let r' := run h d r.2 in
    (match r'.1.1 with Done _ => r.1.1 | Panicked msg => Panicked msg end,
     r.1.2 ++ r'.1.2, r'.2).
Proof.
  revert w. induction p as [a|msg|X c k IH]; intros w.
  - simpl. rewrite run_bind. unfold outcome, trace, final.
    destruct (run h d w) as [[[[]|msg] t] w']; simpl; by rewrite ?app_nil_r.
  - simpl. rewrite run_bind. unfold outcome, trace, final.
    destruct (run h d w) as [[[[]|msg'] t] w']; simpl; by rewrite ?app_nil_r.
  - simpl. by rewrite IH.
Qed.

Lemma CallsOnly_bind (P : ∀ X, E X → Prop) {A B} (p : Prog E A) (f : A → Prog E B) :
  CallsOnly P p → (∀ a, CallsOnly P (f a)) → CallsOnly P (bind p f).
Proof.
  intros Hp Hf. induction Hp as [a|msg|X c k Hc Hk IH]; simpl; [done|constructor|].
  by constructor.
Qed.

Lemma CallsOnly_mbind (P : ∀ X, E X → Prop) {A B} (p : Prog E A) (f : A → Prog E B) :
  CallsOnly P p → (∀ a, CallsOnly P (f a)) → CallsOnly P (p ≫= f).
Proof. apply CallsOnly_bind. Qed.

Lemma CallsOnly_call (P : ∀ X, E X → Prop) {X} (c : E X) :
  P X c → CallsOnly P (call c).
Proof. intros Hc. constructor; [done|]. intros x. constructor. Qed.

Lemma CallsOnly_deref (P : ∀ X, E X → Prop) {A} (p : option A) :
  CallsOnly P (deref p).
Proof. destruct p; constructor. Qed.

Lemma CallsOnly_defer (P : ∀ X, E X → Prop) {A} (d : Prog E unit) (p : Prog E A) :
  CallsOnly P d → CallsOnly P p → CallsOnly P (defer d p).
Proof.
  intros Hd Hp. induction Hp as [a|msg|X c k Hc Hk IH]; simpl.
  - apply CallsOnly_bind; [done|]. intros _. constructor.
  - apply CallsOnly_bind; [done|]. intros _. constructor.
  - by constructor.
Qed.

Lemma CallsOnly_mono (P Q : ∀ X, E X → Prop) {A} (p : Prog E A) :
  (∀ X c, P X c → Q X c) → CallsOnly P p → CallsOnly Q p.
Proof. intros HPQ Hp. induction Hp; constructor; auto. Qed.

(** The calls of a run are calls of the program. *)
Lemma trace_CallsOnly (P : ∀ X, E X → Prop) {A} (p : Prog E A) (w : W) :
  CallsOnly P p → Forall (EventIs P) (trace h p w).
Proof.
  intros Hp. revert w. induction Hp as [a|msg|X c k Hc Hk IH]; intros w.
  - constructor.
  - constructor.
  - unfold trace. simpl. constructor; [done|]. apply IH.
Qed.

(** What every call of a program keeps, its run keeps. *)
Lemma final_CallsOnly (P : ∀ X, E X → Prop) (I : W → Prop) {A} (p : Prog E A) (w : W) :
  (∀ X (c : E X) w, P X c → I w → I (h X c w).2) →
  CallsOnly P p → I w → I (final h p w).
Proof.
  intros Hstep Hp. revert w. induction Hp as [a|msg|X c k Hc Hk IH]; intros w Hw.
  - done.
  - done.
  - unfold final. simpl. apply IH. by apply Hstep.
Qed.

End ProgFacts.

(** The calls a program can make, read off the program. *)
Ltac calls_only :=
  simpl;
  repeat match goal with
  | |- CallsOnly _ (Ret _) => constructor
  | |- CallsOnly _ (Panic _) => constructor
  | |- CallsOnly _ (Do _ _) => constructor; [done|intros ?; simpl]
  | |- CallsOnly _ (match ?x with _ => _ end) => destruct x; simpl
  | |- CallsOnly _ (if ?x then _ else _) => destruct x; simpl
  | |- CallsOnly _ (bind _ _) => apply CallsOnly_bind; [|intros ?; simpl]
  | |- CallsOnly _ (_ ≫= _) => apply CallsOnly_mbind; [|intros ?; simpl]
  | |- CallsOnly _ (defer _ _) => apply CallsOnly_defer
  | |- CallsOnly _ (call _) => apply CallsOnly_call; done
  | |- CallsOnly _ (deref _) => apply CallsOnly_deref
  | |- CallsOnly _ _ => by auto
  end.

Ltac spare := unfold KeySpec.spares; simpl; first [tauto | done].
Ltac not_both := let Hc := fresh in intros Hc; destruct Hc as [? ?]; done.

Global Arguments db.validatePGPKey : simpl never.
Global Arguments db.ListConfiguredGPGPublicKeys : simpl never.
Global Arguments db.ListInstalledGPGPublicKeys : simpl never.
Global Arguments db.SynchronizeGPGPublicKeys_locked : simpl never.

(** ** The repository service, for every behaviour of its collaborators *)

Section Service.
Import appsv1 repositorypkg repository Spec.
Context (claims : string).

Section AnyHandler.
Context {W : Type} (h : Handler Call W).

Lemma UpdateRepository_url q w rec err :
  outcome h (UpdateRepository claims q) w = Done (Some rec, err) →
  ∃ r, Update_Repo q = Some r ∧ rec = Repository_of_url (Repo r) ∧
       omap inserted (trace h (UpdateRepository claims q) w) = [].
Proof.
  unfold UpdateRepository, outcome, trace.
  destruct q as [[r|]]; crunch h; intros ?; simplify_eq; by exists r.
Qed.

Lemma UpdateRepositoryCredentials_url q w rec err :
  outcome h (UpdateRepositoryCredentials claims q) w = Done (Some rec, err) →
  ∃ r, Update_Repo q = Some r ∧ rec = Repository_of_url (Repo r) ∧
       omap inserted (trace h (UpdateRepositoryCredentials claims q) w) = [].
Proof.
  unfold UpdateRepositoryCredentials, outcome, trace.
  destruct q as [[r|]]; crunch h; intros ?; simplify_eq; by exists r.
Qed.

Lemma CreateRepository_url q w rec err :
  outcome h (CreateRepository claims q) w = Done (Some rec, err) →
  ∃ r, Create_Repo q = Some r ∧
       rec = Repository_of_url (response_url r (trace h (CreateRepository claims q) w)).
Proof.
  unfold CreateRepository, outcome, trace, response_url.
  destruct q as [[r|] upsert]; simpl; [|done].
  intros Hrec. exists r. split; [done|]. revert Hrec.
  remember (UpdateRepository claims) as update eqn:Hupdate.
  answer h. destruct x; simpl; [|done].
  destruct (HasCredentials r); simpl.
  - answer h. destruct x as [e|]; simpl; [done|].
    answer h. destruct x as [repo err']; simpl.
    case_decide as Hcode; simpl.
      answer h. destruct x as [[existing|] [getErr|]]; simpl; try done.
      case_decide as Heq; simpl.
      { intros [= <- <-]. apply (f_equal Repo) in Heq. simpl in Heq. simpl. by rewrite Heq. }
      destruct upsert; [|done]. subst update. intros Hupd.
      destruct (UpdateRepository_url _ _ _ _ Hupd) as (r0 & [= <-] & -> & Hnone).
      unfold trace, omap in Hnone. by rewrite Hnone.
    + destruct repo; simpl; [|done]. by intros [= <- <-].
  - answer h. destruct x as [creds [e|]]; simpl; [done|].
    answer h. destruct x as [e|]; simpl; [done|].
    answer h. destruct x as [repo err']; simpl.
    case_decide as Hcode; simpl.
      answer h. destruct x as [[existing|] [getErr|]]; simpl; try done.
      case_decide as Heq; simpl.
      { intros [= <- <-]. apply (f_equal Repo) in Heq. simpl in Heq. simpl. by rewrite Heq. }
      destruct upsert; [|done]. subst update. intros Hupd.
      destruct (UpdateRepository_url _ _ _ _ Hupd) as (r0 & [= <-] & -> & Hnone).
      unfold trace, omap in Hnone. by rewrite Hnone.
    + destruct repo; simpl; [|done]. by intros [= <- <-].
Qed.

Lemma CreateRepositoryCredentials_url q w rec err :
  outcome h (CreateRepositoryCredentials claims q) w = Done (Some rec, err) →
  ∃ r, Create_Repo q = Some r ∧
       rec = Repository_of_url
               (response_url r (trace h (CreateRepositoryCredentials claims q) w)).
Proof.
  unfold CreateRepositoryCredentials, outcome, trace, response_url.
  destruct q as [[r|] upsert]; simpl; [|done].
  intros Hrec. exists r. split; [done|]. revert Hrec.
  remember (UpdateRepositoryCredentials claims) as update eqn:Hupdate.
  answer h. destruct x; simpl; [|done].
  answer h. destruct x as [repo err']; simpl.
  case_decide as Hcode; simpl.
    answer h. destruct x as [existing [getErr|]]; simpl; try done.
    case_decide as Heq; simpl; [subst; by intros [= <- <-]|].
    destruct upsert; [|done]. subst update. intros Hupd.
    destruct (UpdateRepositoryCredentials_url _ _ _ _ Hupd) as (r0 & [= <-] & -> & Hnone).
    unfold trace, omap in Hnone. by rewrite Hnone.
  - destruct repo; simpl; [|done]. by intros [= <- <-].
Qed.

(** C10: whatever the storage, the enforcer and git answer, the record that
    [CreateRepository], [CreateRepositoryCredentials], [UpdateRepository] or
    [UpdateRepositoryCredentials] returns holds a URL and nothing else: the
    user name, the password, the SSH key, the TLS material and every other
    field have their zero value, whatever the request and the storage hold.
    The URL is that of the request's record for the two updates; for the two
    creations it is that of the record the storage gave back when it has
    inserted one, and that of the request's record when the insertion was
    refused as AlreadyExists.  (This holds for every returned record, hence
    for that of every successful call.) *)
Theorem response_holds_only_the_url (qc : RepoCreateRequest) (qu : RepoUpdateRequest)
    (w : W) (rec : Repository) (err : option error) :
  let create := CreateRepository claims qc in
  let create_credentials := CreateRepositoryCredentials claims qc in
  let update := UpdateRepository claims qu in
  let update_credentials := UpdateRepositoryCredentials claims qu in
  (outcome h create w = Done (Some rec, err) →
   ∃ r, Create_Repo qc = Some r ∧
        rec = Repository_of_url (response_url r (trace h create w))) ∧
  (outcome h create_credentials w = Done (Some rec, err) →
   ∃ r, Create_Repo qc = Some r ∧
        rec = Repository_of_url (response_url r (trace h create_credentials w))) ∧
  (outcome h update w = Done (Some rec, err) →
   ∃ r, Update_Repo qu = Some r ∧ rec = Repository_of_url (Repo r)) ∧
  (outcome h update_credentials w = Done (Some rec, err) →
   ∃ r, Update_Repo qu = Some r ∧ rec = Repository_of_url (Repo r)) ∧
  (outcome h create w = Done (Some rec, err) ∨
   outcome h create_credentials w = Done (Some rec, err) ∨
   outcome h update w = Done (Some rec, err) ∨
   outcome h update_credentials w = Done (Some rec, err) →
   rec = Repository_of_url (Repo rec) ∧
   Username rec = "" ∧ Password rec = "" ∧ SSHPrivateKey rec = "" ∧
   TLSClientCertData rec = "" ∧ TLSClientCertKey rec = "" ∧
   Insecure rec = false ∧ EnableLFS rec = false ∧
   ConnectionState_ rec = ConnectionState_zero).
Proof.
  intros create create_credentials update update_credentials.
  split_and!.
  - apply CreateRepository_url.
  - apply CreateRepositoryCredentials_url.
  - intros Hrec. destruct (UpdateRepository_url _ _ _ _ Hrec) as (r & ? & ? & _). eauto.
  - intros Hrec.
    destruct (UpdateRepositoryCredentials_url _ _ _ _ Hrec) as (r & ? & ? & _). eauto.
  - intros Hrec.
    assert (∃ url, rec = Repository_of_url url) as [url ->]; [|done].
    destruct Hrec as [Hrec|[Hrec|[Hrec|Hrec]]].
    + destruct (CreateRepository_url _ _ _ _ Hrec) as (r & _ & ->). eauto.
    + destruct (CreateRepositoryCredentials_url _ _ _ _ Hrec) as (r & _ & ->). eauto.
    + destruct (UpdateRepository_url _ _ _ _ Hrec) as (r & _ & -> & _). eauto.
    + destruct (UpdateRepositoryCredentials_url _ _ _ _ Hrec) as (r & _ & -> & _). eauto.
Qed.

Lemma ListRepositories_loop_spec (allowed : string → bool) urls :
  (∀ url w,
     (h _ (enf_Enforce claims ResourceRepositories ActionGet url) w).1 = allowed url) →
  ∀ items w,
  match outcome h (ListRepositories_loop claims urls items) w with
  | Done (inl items') => Repo <$> items' = (Repo <$> items) ++ List.filter allowed urls
  | Done (inr e) =>
    Exists (failed_get allowed e) (trace h (ListRepositories_loop claims urls items) w)
  | Panicked _ => True
  end.
Proof.
  intros Hallowed. induction urls as [|url urls IH]; intros items w.
  - simpl. by rewrite app_nil_r.
  - unfold outcome, trace. simpl. specialize (Hallowed url w).
    destruct (h bool _ w) as [b w1]. simpl in *. subst b.
    destruct (allowed url) eqn:Hurl; simpl.
    + destruct (h _ (db_GetRepository url) w1) as [[repo [e|]] w2] eqn:Hget; simpl.
      * apply Exists_cons_tl, Exists_cons_hd. by simpl.
      * destruct repo as [repo|]; simpl; [|done].
        match goal with |- context [ListRepositories_loop _ _ ?items'] =>
          specialize (IH items' w2) end.
        unfold outcome, trace in IH.
        destruct (run h _ w2) as [[[[items'|e]|msg] t] w3]; simpl in *; [| |done].
        -- rewrite IH, fmap_app. simpl. by rewrite <-app_assoc.
        -- by do 2 apply Exists_cons_tl.
    + specialize (IH items w1). unfold outcome, trace in IH.
      destruct (run h _ w1) as [[[[items'|e]|msg] t] w3]; simpl in *; [done| |done].
      by apply Exists_cons_tl.
Qed.

Lemma ListRepositories_states_spec force items :
  ∀ done w res,
  outcome h (ListRepositories_states items done force) w = Done res →
  Repo <$> res = (Repo <$> done) ++ (Repo <$> items).
Proof.
  induction items as [|item items IH]; intros done w res.
  - simpl. unfold outcome. simpl. intros [= <-]. by rewrite app_nil_r.
  - simpl. rewrite outcome_mbind.
    destruct (outcome h (getConnectionState (Repo item) force) w); [|done].
    intros Hres. apply IH in Hres. rewrite Hres, fmap_app. simpl. by rewrite <-app_assoc.
Qed.

Lemma ListRepositories_filters (allowed : string → bool) q w :
  (∀ url w,
     (h _ (enf_Enforce claims ResourceRepositories ActionGet url) w).1 = allowed url) →
  let urls := (h _ db_ListRepoURLs w).1.1 in
  (∀ items err, outcome h (ListRepositories claims q) w = Done (Some items, err) →
     err = None ∧ Repo <$> items = List.filter allowed urls) ∧
  (∀ e, outcome h (ListRepositories claims q) w = Done (None, Some e) →
     (h _ db_ListRepoURLs w).1.2 = Some e ∨
     Exists (failed_get allowed e) (trace h (ListRepositories claims q) w)).
Proof.
  intros Hallowed urls. subst urls. unfold ListRepositories.
  unfold outcome, trace. simpl.
  destruct (h _ db_ListRepoURLs w) as [[urls [e|]] w1]; simpl.
  { split; [done|]. intros e' [= ->]. by left. }
  rewrite run_mbind.
  pose proof (ListRepositories_loop_spec allowed urls Hallowed [] w1) as Hloop.
  destruct (outcome h (ListRepositories_loop claims urls []) w1) as [[items|e]|msg]; simpl.
  - rewrite run_mbind.
    pose proof (ListRepositories_states_spec (Query_ForceRefresh q) items []
                  (final h (ListRepositories_loop claims urls []) w1)) as Hst.
    destruct (outcome h (ListRepositories_states items [] _) _) as [res|msg]; simpl.
    + split; [|done]. intros items' err [= <- <-]. split; [done|].
      rewrite (Hst res eq_refl). simpl. by rewrite Hloop.
    + done.
  - split; [done|]. intros e' [= ->]. right. apply Exists_cons_tl.
    rewrite app_nil_r. apply Hloop.
  - done.
Qed.

Lemma getConnectionState_connect_spec url w :
  let now := h _ metav1_Now w in
  let lookup := h _ (db_GetRepository url) now.2 in
  (∀ e, lookup.1.2 = Some e →
     outcome h (getConnectionState_connect url) w = Done (state_failed e now.1)) ∧
  (∀ repo, lookup.1 = (Some repo, None) →
     let probe := h _ (git_TestRepo (Repo repo) (argo_GetRepoCreds (Some repo))
                         (IsInsecure repo) (EnableLFS repo)) lookup.2 in
     outcome h (getConnectionState_connect url) w =
       Done (match probe.1 with
             | Some e => state_failed e now.1
             | None => state_successful now.1
             end)).
Proof.
  intros now lookup. subst now lookup. unfold getConnectionState_connect, outcome. simpl.
  destruct (h _ metav1_Now w) as [now w1]; simpl.
  destruct (h _ (db_GetRepository url) w1) as [[repo err] w2]; simpl.
  split.
  - intros e ->. simpl. crunch h; done.
  - intros repo' [= -> ->]. simpl. crunch h; done.
Qed.

(** C7, as amended: when [getConnectionState] connects (a refresh is forced or
    the cache has no state), it returns a state and no error, whatever the
    collaborators answer.  A failure of the connection test is captured as
    the state Failed with the diagnostic and the current time, and so is an
    error of the storage look-up of the URL: it is not propagated, the
    function has no error result.  Without an error the state is Successful. *)
Theorem connection_errors_are_captured url forceRefresh w0 w :
  probing h url forceRefresh w0 = Some w →
  let now := h _ metav1_Now w in
  let lookup := h _ (db_GetRepository url) now.2 in
  (∀ e, lookup.1.2 = Some e →
     outcome h (getConnectionState url forceRefresh) w0 = Done (state_failed e now.1)) ∧
  (∀ repo, lookup.1 = (Some repo, None) →
     let probe := h _ (git_TestRepo (Repo repo) (argo_GetRepoCreds (Some repo))
                         (IsInsecure repo) (EnableLFS repo)) lookup.2 in
     outcome h (getConnectionState url forceRefresh) w0 =
       Done (match probe.1 with
             | Some e => state_failed e now.1
             | None => state_successful now.1
             end)).
Proof.
  intros Hprobing.
  assert (outcome h (getConnectionState url forceRefresh) w0
          = outcome h (getConnectionState_connect url) w) as ->.
  { unfold probing in Hprobing. unfold getConnectionState, outcome.
    destruct forceRefresh; simpl in *; [by simplify_eq|].
    destruct (h _ (cache_GetRepoConnectionState url) w0) as [[st [e|]] w1]; simpl in *;
      by simplify_eq. }
  apply getConnectionState_connect_spec.
Qed.

End AnyHandler.

Lemma CreateRepository_gated r upsert :
  Gated claims (CreateRepository claims {| Create_Repo := Some r; Create_Upsert := upsert |})
    ActionCreate (Repo r).
Proof.
  intros W h w ask. unfold trace, outcome, final, CreateRepository. simpl.
  eexists. split; [done|]. fold ask. by intros ->.
Qed.

Lemma CreateRepositoryCredentials_gated r upsert :
  Gated claims
    (CreateRepositoryCredentials claims {| Create_Repo := Some r; Create_Upsert := upsert |})
    ActionCreate (Repo r).
Proof.
  intros W h w ask. unfold trace, outcome, final, CreateRepositoryCredentials. simpl.
  eexists. split; [done|]. fold ask. by intros ->.
Qed.

Lemma UpdateRepository_gated r :
  Gated claims (UpdateRepository claims {| Update_Repo := Some r |}) ActionUpdate (Repo r).
Proof.
  intros W h w ask. unfold trace, outcome, final, UpdateRepository. simpl.
  eexists. split; [done|]. fold ask. by intros ->.
Qed.

Lemma UpdateRepositoryCredentials_gated r :
  Gated claims (UpdateRepositoryCredentials claims {| Update_Repo := Some r |})
    ActionUpdate (Repo r).
Proof.
  intros W h w ask. unfold trace, outcome, final, UpdateRepositoryCredentials. simpl.
  eexists. split; [done|]. fold ask. by intros ->.
Qed.

Lemma DeleteRepository_gated q :
  Gated claims (DeleteRepository claims q) ActionDelete (Query_Repo q).
Proof.
  intros W h w ask. unfold trace, outcome, final, DeleteRepository. simpl.
  eexists. split; [done|]. fold ask. by intros ->.
Qed.

Lemma DeleteRepositoryCredentials_gated q :
  Gated claims (DeleteRepositoryCredentials claims q) ActionDelete (Query_Repo q).
Proof.
  intros W h w ask. unfold trace, outcome, final, DeleteRepositoryCredentials. simpl.
  eexists. split; [done|]. fold ask. by intros ->.
Qed.

(** C9: every mutating operation (create, update and delete of a repository
    and of a credential set) first asks the enforcer, for its action on the
    URL of the request, and on denial fails with the permission error
    without any other call, hence before any access to the storage.
    [ListRepositories] filters instead: with an enforcer that follows the
    policy [allowed], a list that is returned holds exactly the listed URLs
    the policy allows, in order, the denied ones being left out; and when the
    call fails, the error is one the storage gave, for the listing or for
    the look-up of an allowed URL, never a denial. *)
Theorem mutations_are_gated_and_list_filters :
  (∀ r upsert,
     Gated claims
       (CreateRepository claims {| Create_Repo := Some r; Create_Upsert := upsert |})
       ActionCreate (Repo r) ∧
     Gated claims
       (CreateRepositoryCredentials claims
          {| Create_Repo := Some r; Create_Upsert := upsert |})
       ActionCreate (Repo r)) ∧
  (∀ r,
     Gated claims (UpdateRepository claims {| Update_Repo := Some r |})
       ActionUpdate (Repo r) ∧
     Gated claims (UpdateRepositoryCredentials claims {| Update_Repo := Some r |})
       ActionUpdate (Repo r)) ∧
  (∀ q,
     Gated claims (DeleteRepository claims q) ActionDelete (Query_Repo q) ∧
     Gated claims (DeleteRepositoryCredentials claims q) ActionDelete (Query_Repo q)) ∧
  (∀ (W : Type) (h : Handler Call W) (allowed : string → bool) q w,
     (∀ url w,
        (h _ (enf_Enforce claims ResourceRepositories ActionGet url) w).1 = allowed url) →
     let urls := (h _ db_ListRepoURLs w).1.1 in
     (∀ items err, outcome h (ListRepositories claims q) w = Done (Some items, err) →
        err = None ∧ Repo <$> items = List.filter allowed urls) ∧
     (∀ e, outcome h (ListRepositories claims q) w = Done (None, Some e) →
        (h _ db_ListRepoURLs w).1.2 = Some e ∨
        Exists (failed_get allowed e) (trace h (ListRepositories claims q) w))).
Proof.
  split_and!.
  - intros r upsert.
    split; [apply CreateRepository_gated|apply CreateRepositoryCredentials_gated].
  - intros r. split; [apply UpdateRepository_gated|apply UpdateRepositoryCredentials_gated].
  - intros q. split; [apply DeleteRepository_gated|apply DeleteRepositoryCredentials_gated].
  - intros W h allowed q w Hallowed. by apply ListRepositories_filters.
Qed.

End Service.

(** ** The repository service at the reference store *)

Section StoreService.
Import appsv1 repositorypkg repository Spec.
Context (env : Store.Env) (claims : string).
Local Abbreviation h := (Store.handle env).

Lemma set_ConnectionState_spec_of cs a b :
  set_ConnectionState cs a = set_ConnectionState cs b ↔ spec_of a = spec_of b.
Proof.
  unfold spec_of. destruct a, b; simpl. split; intros [=]; by subst.
Qed.

(** What [CreateRepository] does at the reference store, case by case. *)
Lemma CreateRepository_run r upsert w :
  let q := {| Create_Repo := Some r; Create_Upsert := upsert |} in
  let r' := set_ConnectionState successful r in
  let prog := CreateRepository claims q in
  if Store.allowed env claims ResourceRepositories ActionCreate (Repo r) then
    match create_probe env w r with
    | Some e => outcome h prog w = Done (None, Some e) ∧ final h prog w = w
    | None =>
      match Store.repos w !! Repo r with
      | None =>
        outcome h prog w = Done (Some (Repository_of_url (Repo r)), None) ∧
        final h prog w = Store.set_repos (λ _, <[Repo r := r']> (Store.repos w)) w
      | Some stored =>
        if decide (spec_of stored = spec_of r) then
          outcome h prog w = Done (Some (Repository_of_url (Repo r)), None) ∧
          final h prog w = w
        else if upsert then
          outcome h prog w
            = outcome h (UpdateRepository claims {| Update_Repo := Some r' |})
                (w) ∧
          final h prog w
            = final h (UpdateRepository claims {| Update_Repo := Some r' |})
                (w)
        else
          outcome h prog w
            = Done (None, Some (status_Errorf InvalidArgument
                "existing repository spec is different; use upsert flag to force update")) ∧
          final h prog w = w
      end
    end
  else
    outcome h prog w
      = Done (None, Some (permission_denied ResourceRepositories ActionCreate (Repo r))) ∧
    final h prog w = w.
Proof.
  intros q r' prog. subst q r' prog. destruct w as [repos creds cache clock].
  unfold outcome, final, CreateRepository, create_probe. simpl.
  destruct (Store.allowed env _ _ _ _); simpl; [|done].
  destruct (HasCredentials r); simpl.
  - destruct (Store.test_repo env _ _ _ _); simpl; [done|].
    unfold Store.create. simpl.
    destruct (repos !! Repo r) as [stored|] eqn:Hst; simpl; [|done].
    rewrite Hst. simpl.
    destruct (decide (set_ConnectionState successful stored = set_ConnectionState successful r)) as [Heq|Hne].
    + rewrite decide_True. 2:{ by apply set_ConnectionState_spec_of in Heq. }
      simpl. split; [|done]. apply (f_equal Repo) in Heq. simpl in Heq. by rewrite Heq.
    + rewrite decide_False. 2:{ by rewrite <-(set_ConnectionState_spec_of successful). }
      by destruct upsert.
  - destruct (Store.test_repo env _ _ _ _); simpl; [done|].
    unfold Store.create. simpl.
    destruct (repos !! Repo r) as [stored|] eqn:Hst; simpl; [|done].
    rewrite Hst. simpl.
    destruct (decide (set_ConnectionState successful stored = set_ConnectionState successful r)) as [Heq|Hne].
    + rewrite decide_True. 2:{ by apply set_ConnectionState_spec_of in Heq. }
      simpl. split; [|done]. apply (f_equal Repo) in Heq. simpl in Heq. by rewrite Heq.
    + rewrite decide_False. 2:{ by rewrite <-(set_ConnectionState_spec_of successful). }
      by destruct upsert.
Qed.

(** [CreateRepository] for a URL whose stored record has the content of the
    incoming one, the connection state apart. *)
Lemma CreateRepository_again r stored upsert w :
  let q := {| Create_Repo := Some r; Create_Upsert := upsert |} in
  let r' := set_ConnectionState successful r in
  let create := CreateRepository claims q in
  Store.repos w !! Repo r = Some stored →
  spec_of stored = spec_of r →
  Store.allowed env claims ResourceRepositories ActionCreate (Repo r) = true →
  create_probe env w r = None →
  (∃ calls,
     trace h create w
     = calls ++ [Ev (db_CreateRepository r') (None, Some (Store.already_exists (Repo r)));
                 Ev (db_GetRepository (Repo r)) (Some stored, None)]) ∧
  set_ConnectionState (ConnectionState_ r') stored = r' ∧
  outcome h create w = Done (Some (Repository_of_url (Repo stored)), None) ∧
  final h create w = w.
Proof.
  intros q r' create Hstored Hspec Hallowed Hprobe. subst q r' create.
  assert (set_ConnectionState successful stored = set_ConnectionState successful r) as Heq
    by by apply set_ConnectionState_spec_of.
  destruct w as [repos creds cache clock].
  unfold outcome, final, trace, CreateRepository, create_probe in *. simpl in *.
  rewrite Hallowed. simpl.
  destruct (HasCredentials r); simpl.
  - rewrite Hprobe. simpl. unfold Store.create. simpl. rewrite Hstored. simpl.
    rewrite Hstored. simpl. rewrite decide_True by done. simpl.
    split_and!; [|done..].
    by eexists [_; _].
  - rewrite Hprobe. simpl. unfold Store.create. simpl. rewrite Hstored. simpl.
    rewrite Hstored. simpl. rewrite decide_True by done. simpl.
    split_and!; [|done..].
    by eexists [_; _; _].
Qed.

(** C4: at the reference store, [CreateRepository] with upsert=false is
    idempotent.
    - When the store holds, for the URL, a record with the content of the
      incoming one, whatever the connection state of the stored record, the
      enforcer allows the create and the connectivity test passes: the
      insertion is refused as AlreadyExists, the stored record is read back,
      and these are the last two calls; the stored record equals the
      incoming one once its connection state is overwritten with that of the
      incoming record ([existing.ConnectionState = r.ConnectionState]), the
      call returns the existing record (its URL) without an error, and the
      world is left as it was.
    - When a call succeeds and returns a record, that record is the URL of
      the request; the store then holds, for the URL, the record it held
      before, or the incoming record with the connection state Successful
      when it held none; and the same call repeated right after it (the same
      record content, upsert=false) takes the path above: it returns the
      same record and no error, and leaves the world as it finds it. *)
Theorem create_twice_is_idempotent r w :
  let q := {| Create_Repo := Some r; Create_Upsert := false |} in
  let r' := set_ConnectionState successful r in
  let create := CreateRepository claims q in
  let refused := Ev (db_CreateRepository r') (None, Some (Store.already_exists (Repo r))) in
  let found stored := Ev (db_GetRepository (Repo r)) (Some stored, None) in
  let w1 := final h create w in
  (∀ stored,
     Store.repos w !! Repo r = Some stored →
     spec_of stored = spec_of r →
     Store.allowed env claims ResourceRepositories ActionCreate (Repo r) = true →
     create_probe env w r = None →
     (∃ calls, trace h create w = calls ++ [refused; found stored]) ∧
     set_ConnectionState (ConnectionState_ r') stored = r' ∧
     outcome h create w = Done (Some (Repository_of_url (Repo stored)), None) ∧
     final h create w = w) ∧
  (∀ rec,
     outcome h create w = Done (Some rec, None) →
     rec = Repository_of_url (Repo r) ∧
     Store.repos w1 !! Repo r = Some (default r' (Store.repos w !! Repo r)) ∧
     (∃ stored calls,
        trace h create w1 = calls ++ [refused; found stored] ∧
        set_ConnectionState (ConnectionState_ r') stored = r') ∧
     outcome h create w1 = Done (Some rec, None) ∧
     final h create w1 = w1).
Proof.
  intros q r' create refused found w1. split.
  { intros stored. apply CreateRepository_again. }
  intros rec Hfirst. subst w1.
  pose proof (CreateRepository_run r false w) as Hrun. simpl in Hrun.
  fold q r' create in Hrun.
  destruct (Store.allowed env claims ResourceRepositories ActionCreate (Repo r)) eqn:Hallowed.
  2:{ destruct Hrun as [Hrun _]. congruence. }
  destruct (create_probe env w r) eqn:Hprobe.
  { destruct Hrun as [Hrun _]. congruence. }
  assert (∀ stored w1,
            Store.repos w1 !! Repo r = Some stored → spec_of stored = spec_of r →
            Store.credentials w1 = Store.credentials w →
            rec = Repository_of_url (Repo r) →
            (∃ stored calls,
               trace h create w1 = calls ++ [refused; found stored] ∧
               set_ConnectionState (ConnectionState_ r') stored = r') ∧
            outcome h create w1 = Done (Some rec, None) ∧
            final h create w1 = w1) as Hagain.
  { intros stored w1 Hstored Hspec Hcreds ->.
    destruct (CreateRepository_again r stored false w1 Hstored Hspec Hallowed)
      as (Htrace & Hsame & Hout & Hfin).
    { unfold create_probe in *. by rewrite Hcreds. }
    destruct Htrace as [calls Htrace].
    split_and!; [by exists stored, calls| |done].
    fold q create in Hout. rewrite Hout.
    apply (f_equal Repo) in Hsame. simpl in Hsame. by rewrite Hsame. }
  destruct (Store.repos w !! Repo r) as [stored|] eqn:Hstored.
  - case_decide as Hsame; [|destruct Hrun as [Hrun _]; congruence].
    destruct Hrun as [Hout Hfin]. rewrite Hout in Hfirst.
    assert (rec = Repository_of_url (Repo r)) as Hrec by congruence.
    rewrite Hfin. split; [done|]. split; [done|]. by apply (Hagain stored).
  - destruct Hrun as [Hout Hfin]. rewrite Hout in Hfirst.
    assert (rec = Repository_of_url (Repo r)) as Hrec by congruence.
    rewrite Hfin. split; [done|]. split; [apply lookup_insert_eq|].
    apply (Hagain r'); [apply lookup_insert_eq|by destruct r|done..].
Qed.

(** C5: at the reference store, when the record stored for the URL differs
    from the incoming record (the connection state apart) and upsert=false,
    [CreateRepository] leaves the store as it is and returns an error, no
    record; and when the enforcer allows the create and the connectivity
    test passes, so that the call gets as far as the insertion, the error is
    the InvalidArgument error whose message names the upsert flag as the
    remedy. *)
Theorem create_conflict_is_rejected r stored w :
  let q := {| Create_Repo := Some r; Create_Upsert := false |} in
  Store.repos w !! Repo r = Some stored →
  spec_of stored ≠ spec_of r →
  final h (CreateRepository claims q) w = w ∧
  (∃ e, outcome h (CreateRepository claims q) w = Done (None, Some e)) ∧
  (Store.allowed env claims ResourceRepositories ActionCreate (Repo r) = true →
   create_probe env w r = None →
   outcome h (CreateRepository claims q) w
     = Done (None, Some (status_Errorf InvalidArgument
         "existing repository spec is different; use upsert flag to force update"))).
Proof.
  intros q Hstored Hdiff.
  pose proof (CreateRepository_run r false w) as Hrun. simpl in Hrun. fold q in Hrun.
  rewrite Hstored in Hrun. rewrite decide_False in Hrun by done.
  destruct (Store.allowed env _ _ _ _); [|split_and!; [apply Hrun|eexists; apply Hrun|done]].
  destruct (create_probe env w r);
    (split_and!; [apply Hrun|eexists; apply Hrun|intros; simplify_eq; apply Hrun]).
Qed.

End StoreService.

(** ** The repository service: examples *)

Section ServiceExamples.
Import appsv1 repositorypkg repository Spec Store.

Lemma response_holds_only_the_url_witness :
  let h := Store.handle open_env in
  let w := set_credentials (λ _, {[ "git@x/y" := alice ]}) (world_of [alice]) in
  let qc := {| Create_Repo := Some Examples.carol; Create_Upsert := false |} in
  let qu := {| Update_Repo := Some bob |} in
  let create := CreateRepository "admin" qc in
  let create_credentials := CreateRepositoryCredentials "admin" qc in
  (outcome h create w = Done (Some (Repository_of_url "https://open/r"), None) ∧
   outcome h create_credentials w = Done (Some (Repository_of_url "https://open/r"), None) ∧
   outcome h (UpdateRepository "admin" qu) w = Done (Some (Repository_of_url "git@x/y"), None) ∧
   outcome h (UpdateRepositoryCredentials "admin" qu) w
     = Done (Some (Repository_of_url "git@x/y"), None)) ∧
  (∃ r, Create_Repo qc = Some r ∧
        Repository_of_url "https://open/r"
        = Repository_of_url (response_url r (trace h create w))) ∧
  (∃ r, Create_Repo qc = Some r ∧
        Repository_of_url "https://open/r"
        = Repository_of_url (response_url r (trace h create_credentials w))) ∧
  (∃ r, Update_Repo qu = Some r ∧ Repository_of_url "git@x/y" = Repository_of_url (Repo r)) ∧
  (∃ r, Update_Repo qu = Some r ∧ Repository_of_url "git@x/y" = Repository_of_url (Repo r)) ∧
  Password (Repository_of_url "https://open/r") = "".
Proof.
  intros h w qc qu create create_credentials.
  assert (outcome h create w = Done (Some (Repository_of_url "https://open/r"), None))
    as Hc by (vm_compute; reflexivity).
  assert (outcome h create_credentials w
          = Done (Some (Repository_of_url "https://open/r"), None))
    as Hcc by (vm_compute; reflexivity).
  assert (outcome h (UpdateRepository "admin" qu) w
          = Done (Some (Repository_of_url "git@x/y"), None))
    as Hu by (vm_compute; reflexivity).
  assert (outcome h (UpdateRepositoryCredentials "admin" qu) w
          = Done (Some (Repository_of_url "git@x/y"), None))
    as Huc by (vm_compute; reflexivity).
  split; [done|].
  destruct (response_holds_only_the_url "admin" h qc qu w
              (Repository_of_url "https://open/r") None) as (H1 & H2 & _ & _ & H5).
  destruct (response_holds_only_the_url "admin" h qc qu w
              (Repository_of_url "git@x/y") None) as (_ & _ & H3 & H4 & _).
  split; [exact (H1 Hc)|]. split; [exact (H2 Hcc)|]. split; [exact (H3 Hu)|].
  split; [exact (H4 Huc)|].
  exact (proj1 (proj2 (proj2 (H5 (or_introl Hc))))).
Defined.

Lemma list_filters_witness :
  let h := Store.handle guarded_env in
  let q := {| Query_Repo := ""; Query_ForceRefresh := false |} in
  let item := set_ConnectionState (state_successful 0%Z) (Repository_of_url "https://open/r") in
  outcome h (ListRepositories "bob" q) open_and_secret = Done (Some [item], None) ∧
  (h _ db_ListRepoURLs open_and_secret).1.1 = ["https://open/r"; "https://secret/r"] ∧
  Repo <$> [item]
    = List.filter (λ url, bool_decide (url ≠ "https://secret/r"))
        (h _ db_ListRepoURLs open_and_secret).1.1.
Proof.
  intros h q item.
  assert (outcome h (ListRepositories "bob" q) open_and_secret = Done (Some [item], None))
    as Hrun by (vm_compute; reflexivity).
  split; [done|]. split; [vm_compute; reflexivity|].
  exact (proj2 (proj1
    (proj2 (proj2 (proj2 (mutations_are_gated_and_list_filters "bob")))
       _ h (λ url, bool_decide (url ≠ "https://secret/r")) q open_and_secret
       (λ _ _, eq_refl))
    _ None Hrun)).
Defined.

Lemma connection_errors_are_captured_witness :
  let h := Store.handle open_env in
  let down := Repository_of_url "https://down/x" in
  probing h "https://down/x" true (world_of [down]) = Some (world_of [down]) ∧
  outcome h (getConnectionState "https://down/x" true) (world_of [down])
    = Done (state_failed (Errorf "repository not found") 0%Z).
Proof.
  split; [reflexivity|].
  apply (proj2 (connection_errors_are_captured (Store.handle open_env)
                  "https://down/x" true (world_of [Repository_of_url "https://down/x"])
                  _ eq_refl)
           (Repository_of_url "https://down/x")).
  vm_compute; reflexivity.
Defined.

(** C7, as stated, fails: in the empty store the look-up of the URL fails with
    NotFound, and [getConnectionState] does not propagate this error: it
    returns normally, with the error captured in the state Failed. *)
Lemma lookup_error_is_not_propagated :
  let h := Store.handle open_env in
  let url := "https://x/y" in
  (h _ (db_GetRepository url) (h _ metav1_Now empty_world).2).1
    = (None, Some (not_found url)) ∧
  outcome h (getConnectionState url true) empty_world
    = Done (state_failed (not_found url) 0%Z).
Proof. split; vm_compute; reflexivity. Qed.

Lemma create_twice_is_idempotent_witness :
  let h := Store.handle open_env in
  let create := CreateRepository "admin" {| Create_Repo := Some alice; Create_Upsert := false |} in
  let response := Repository_of_url "git@x/y" in
  let stale := set_ConnectionState (state_failed (Errorf "timeout") 7%Z) alice in
  let w := world_of [stale] in
  let w1 := final h create open_and_secret in
  (repos w !! Repo alice = Some stale ∧ spec_of stale = spec_of alice ∧
   stale ≠ set_ConnectionState successful alice ∧
   allowed open_env "admin" ResourceRepositories ActionCreate (Repo alice) = true ∧
   create_probe open_env w alice = None ∧
   outcome h create open_and_secret = Done (Some response, None)) ∧
  (outcome h create w = Done (Some response, None) ∧ final h create w = w) ∧
  repos w1 !! Repo alice = Some (set_ConnectionState successful alice) ∧
  outcome h create w1 = Done (Some response, None) ∧
  final h create w1 = w1.
Proof.
  intros h create response stale w w1.
  assert (repos w !! Repo alice = Some stale) as Hstored by (vm_compute; reflexivity).
  assert (spec_of stale = spec_of alice) as Hspec by reflexivity.
  assert (stale ≠ set_ConnectionState successful alice) as Hstale by discriminate.
  assert (create_probe open_env w alice = None) as Hprobe by (vm_compute; reflexivity).
  assert (outcome h create open_and_secret = Done (Some response, None)) as Hfirst
    by (vm_compute; reflexivity).
  split; [done|].
  destruct (create_twice_is_idempotent open_env "admin" alice w) as [Hagain _].
  destruct (Hagain stale Hstored Hspec eq_refl Hprobe) as (_ & _ & Hout & Hfin).
  destruct (create_twice_is_idempotent open_env "admin" alice open_and_secret) as [_ Htwice].
  destruct (Htwice response Hfirst) as (_ & Hkept & _ & Hout1 & Hfin1).
  split; [split; [exact Hout|exact Hfin]|].
  split; [exact Hkept|]. split; [exact Hout1|exact Hfin1].
Defined.

Lemma create_conflict_is_rejected_witness :
  let h := Store.handle open_env in
  let q := {| Create_Repo := Some bob; Create_Upsert := false |} in
  let w := world_of [alice] in
  (repos w !! Repo bob = Some alice ∧ spec_of alice ≠ spec_of bob) ∧
  final h (CreateRepository "admin" q) w = w ∧
  outcome h (CreateRepository "admin" q) w
    = Done (None, Some (status_Errorf InvalidArgument
        "existing repository spec is different; use upsert flag to force update")).
Proof.
  intros h q w.
  assert (repos w !! Repo bob = Some alice) as Hstored by (vm_compute; reflexivity).
  assert (spec_of alice ≠ spec_of bob) as Hdiff by discriminate.
  split; [done|].
  destruct (create_conflict_is_rejected open_env "admin" bob alice w Hstored Hdiff)
    as (Hfinal & _ & Herr).
  split; [exact Hfinal|]. apply Herr; vm_compute; reflexivity.
Defined.


End ServiceExamples.

(** ** The key ring: the calls of each function *)

Section KeyCalls.
Import appsv1 db KeySpec.
Context `{gpg_pure}.

Lemma validatePGPKey_calls keyData : CallsOnly reads (validatePGPKey keyData).
Proof. unfold validatePGPKey. calls_only. Qed.

Lemma ListConfiguredGPGPublicKeys_loop_calls entries result :
  CallsOnly reads (ListConfiguredGPGPublicKeys_loop entries result).
Proof.
  revert result. induction entries as [|[k p] entries IH]; intros result; cbn.
  - constructor.
  - case_decide; [|constructor].
    apply CallsOnly_mbind; [apply validatePGPKey_calls|].
    intros [parsedKeyID [e|]]; [constructor|]. case_decide; [constructor|apply IH].
Qed.

Lemma ListConfiguredGPGPublicKeys_calls : CallsOnly reads ListConfiguredGPGPublicKeys.
Proof.
  unfold ListConfiguredGPGPublicKeys. simpl.
  constructor; [done|]. intros []. constructor; [done|]. intros [keysCM [e|]]; simpl.
  - constructor.
  - destruct keysCM; simpl; [|constructor]. constructor; [done|].
    intros entries. simpl. apply ListConfiguredGPGPublicKeys_loop_calls.
Qed.

Lemma ListInstalledGPGPublicKeys_loop_calls keys result :
  CallsOnly reads (ListInstalledGPGPublicKeys_loop keys result).
Proof.
  revert result. induction keys as [|v keys IH]; intros result; calls_only.
Qed.

Lemma ListInstalledGPGPublicKeys_calls : CallsOnly reads ListInstalledGPGPublicKeys.
Proof.
  unfold ListInstalledGPGPublicKeys. calls_only. apply ListInstalledGPGPublicKeys_loop_calls.
Qed.

Lemma SynchronizeGPGPublicKeys_import_calls entries installedKeys :
  CallsOnly (λ X c, is_sem c = false ∧ is_delete c = false)
    (SynchronizeGPGPublicKeys_import entries installedKeys).
Proof. induction entries as [|[keyID keyData] entries IH]; calls_only. Qed.

Lemma SynchronizeGPGPublicKeys_remove_calls entries configuredKeys :
  CallsOnly (λ X c, is_sem c = false ∧ is_import c = false)
    (SynchronizeGPGPublicKeys_remove entries configuredKeys).
Proof. induction entries as [|[keyID v] entries IH]; calls_only. Qed.

Lemma SynchronizeGPGPublicKeys_locked_calls :
  CallsOnly no_sem SynchronizeGPGPublicKeys_locked.
Proof.
  unfold SynchronizeGPGPublicKeys_locked.
  apply CallsOnly_mbind.
  { eapply CallsOnly_mono; [|apply ListConfiguredGPGPublicKeys_calls]. by intros X c []. }
  intros [configuredKeys [e|]]; [constructor|].
  apply CallsOnly_mbind.
  { eapply CallsOnly_mono; [|apply ListInstalledGPGPublicKeys_calls]. by intros X c []. }
  intros [installedKeys [e|]]; [constructor|].
  simpl. constructor; [done|]. intros entries.
  apply CallsOnly_bind.
  { eapply CallsOnly_mono; [|apply SynchronizeGPGPublicKeys_import_calls]. by intros X c []. }
  intros []. constructor; [done|]. intros entries'.
  apply CallsOnly_bind.
  { eapply CallsOnly_mono; [|apply SynchronizeGPGPublicKeys_remove_calls]. by intros X c []. }
  intros []. constructor.
Qed.
End KeyCalls.

(** ** Loading the declared key set, at the reference key ring *)

Section Configured.
Import appsv1 db Keyring KeySpec.
Context `{gpg_pure} (env : Env).
Local Abbreviation h := (Keyring.handle env).

Lemma Accepted_or_Rejected k p : Accepted env k p ∨ Rejected env k p.
Proof.
  unfold Accepted.
  destruct (decide (gpg_KeyID k = "")) as [?|Hk]; [right; by apply invalid_keyID|].
  destruct (parse env p) as [ids|] eqn:Hp; [|right; by apply fails_validation].
  destruct ids as [|parsedKeyID [|]].
  - right. by eapply ambiguous.
  - destruct (decide (parsedKeyID = gpg_KeyID k)) as [->|?]; [by left|].
    right. by eapply keyID_mismatch.
  - right. by eapply ambiguous.
Qed.

Lemma Rejected_not_Accepted k p : Rejected env k p → ¬ Accepted env k p.
Proof.
  intros [Hp|ids Hp Hlen|parsedKeyID Hp Hne|Hk] [Hk' Hp']; simplify_eq; done.
Qed.

Lemma validatePGPKey_outcome keyData w :
  outcome h (validatePGPKey keyData) w = Done (validated env keyData).
Proof.
  unfold outcome, validatePGPKey, validated. simpl.
  rewrite lookup_insert_eq.
  destruct (parse env keyData) as [[|keyID [|]]|]; simpl; done.
Qed.

Lemma validated_Accepted k p : Accepted env k p → validated env p = (gpg_KeyID k, None).
Proof. intros [_ Hp]. unfold validated. by rewrite Hp. Qed.

Lemma validated_Rejected k p :
  gpg_KeyID k ≠ "" → Rejected env k p →
  (∃ e, validated env p = ("", Some e)) ∨
  (∃ parsedKeyID, validated env p = (parsedKeyID, None) ∧ gpg_KeyID k ≠ parsedKeyID).
Proof.
  intros Hk [Hp|ids Hp Hlen|parsedKeyID Hp Hne|Hk']; unfold validated; [| | |done].
  - rewrite Hp. eauto.
  - rewrite Hp. destruct ids as [|? [|]]; [eauto|done|eauto].
  - rewrite Hp. right. eauto.
Qed.

Lemma loop_Accepted entries : 
  Forall (λ kp, Accepted env kp.1 kp.2) entries →
  ∀ result w,
  outcome h (ListConfiguredGPGPublicKeys_loop entries result) w
    = Done (Some (declared entries result), None).
Proof.
  induction 1 as [|[k p] entries Hkp Hentries IH]; intros result w; [done|].
  cbn. rewrite decide_True by apply Hkp.
  rewrite outcome_mbind, validatePGPKey_outcome, (validated_Accepted k p Hkp).
  rewrite decide_False by naive_solver. apply IH.
Qed.

Lemma loop_Rejected entries :
  Exists (λ kp, Rejected env kp.1 kp.2) entries →
  ∀ result w,
  ∃ e, outcome h (ListConfiguredGPGPublicKeys_loop entries result) w = Done (None, Some e).
Proof.
  induction entries as [|[k p] entries IH]; intros Hex result w.
  { by apply Exists_nil in Hex. }
  cbn. case_decide as Hk; [|by eexists].
  rewrite outcome_mbind, validatePGPKey_outcome.
  destruct (Accepted_or_Rejected k p) as [Hacc|Hrej].
  - rewrite (validated_Accepted k p Hacc). rewrite decide_False by naive_solver.
    apply IH. apply Exists_cons in Hex as [Hrej|Hex]; [|done].
    by apply Rejected_not_Accepted in Hrej.
  - destruct (validated_Rejected k p Hk Hrej) as [[e ->]|(parsedKeyID & -> & Hne)].
    + by eexists.
    + rewrite decide_True by done. by eexists.
Qed.

Lemma declared_lookup entries result keyID p :
  declared entries result !! keyID = Some p →
  result !! keyID = Some p ∨ ∃ k, (k, p) ∈ entries ∧ gpg_KeyID k = keyID.
Proof.
  revert result. induction entries as [|[k p'] entries IH]; intros result; [by left|].
  simpl. intros [Hres|(k' & Hin & Hk')]%IH.
  - destruct (decide (gpg_KeyID k = keyID)) as [<-|Hne].
    + rewrite lookup_insert_eq in Hres. simplify_eq. right. exists k. split; [left|done].
    + rewrite lookup_insert_ne in Hres by done. by left.
  - right. exists k'. split; [by right|done].
Qed.

Lemma declared_is_Some entries result keyID :
  is_Some (result !! keyID) ∨ keyID ∈ (gpg_KeyID ∘ fst) <$> entries →
  is_Some (declared entries result !! keyID).
Proof.
  revert result. induction entries as [|[k p'] entries IH]; intros result; simpl.
  - intros [?|Hin]; [done|]. by apply elem_of_nil in Hin.
  - intros Hor. apply IH.
    destruct (decide (gpg_KeyID k = keyID)) as [<-|Hne].
    + left. by rewrite lookup_insert_eq.
    + rewrite lookup_insert_ne by done. destruct Hor as [?|Hin]; [by left|].
      apply elem_of_cons in Hin as [?|?]; [done|by right].
Qed.

Lemma Forall_or_Exists entries :
  Forall (λ kp, Accepted env kp.1 kp.2) entries ∨
  Exists (λ kp, Rejected env kp.1 kp.2) entries.
Proof.
  induction entries as [|[k p] entries [IH|IH]].
  - left. constructor.
  - destruct (Accepted_or_Rejected k p); [left|right]; by constructor.
  - right. by constructor.
Qed.

Lemma ListConfiguredGPGPublicKeys_outcome w data :
  config w = Some data →
  outcome h ListConfiguredGPGPublicKeys w
    = outcome h (ListConfiguredGPGPublicKeys_loop (order env _ (map_to_list data)) ∅) w.
Proof.
  intros Hdata. unfold ListConfiguredGPGPublicKeys, outcome. simpl. by rewrite Hdata.
Qed.

(** C8: at the reference key ring, with the ConfigMap [data],
    [ListConfiguredGPGPublicKeys] returns an error and no map, not even a
    partial one, as soon as one entry is rejected: its material fails
    validation, is ambiguous (the validator finds other than exactly one
    key), holds a key whose ID differs from the declared one, or its key is
    no valid key ID.  It returns a map only if every entry is accepted, and
    when every entry is accepted it returns a map, without an error, that
    maps the declared key ID of each entry to material declared for this
    ID: to the material of the entry itself when no other entry declares the
    same key ID. *)
Theorem configured_keys_all_or_nothing w data :
  OrderLaw env → config w = Some data →
  ((∃ k p, data !! k = Some p ∧ Rejected env k p) →
     ∃ e, outcome h ListConfiguredGPGPublicKeys w = Done (None, Some e)) ∧
  (∀ result err, outcome h ListConfiguredGPGPublicKeys w = Done (Some result, err) →
     err = None ∧ ∀ k p, data !! k = Some p → Accepted env k p) ∧
  ((∀ k p, data !! k = Some p → Accepted env k p) →
     ∃ result, outcome h ListConfiguredGPGPublicKeys w = Done (Some result, None) ∧
       (∀ keyID p, result !! keyID = Some p →
          ∃ k, data !! k = Some p ∧ gpg_KeyID k = keyID) ∧
       (∀ k p, data !! k = Some p →
          is_Some (result !! gpg_KeyID k) ∧
          ((∀ k', is_Some (data !! k') → gpg_KeyID k' = gpg_KeyID k → k' = k) →
           result !! gpg_KeyID k = Some p))).
Proof.
  intros Horder Hdata. rewrite (ListConfiguredGPGPublicKeys_outcome w data Hdata).
  set (entries := order env _ (map_to_list data)).
  assert (∀ k p, (k, p) ∈ entries ↔ data !! k = Some p) as Hentries.
  { intros k p. unfold entries. rewrite (Horder _ (map_to_list data)).
    apply elem_of_map_to_list. }
  assert ((∀ k p, data !! k = Some p → Accepted env k p) →
          Forall (λ kp, Accepted env kp.1 kp.2) entries) as Hall.
  { intros Hacc. apply Forall_forall. intros [k p] Hin. by apply Hacc, Hentries. }
  split_and!.
  - intros (k & p & Hkp & Hrej). apply loop_Rejected.
    apply Exists_exists. exists (k, p). split; [by apply Hentries|done].
  - intros result err Hout.
    destruct (Forall_or_Exists entries) as [Hacc|Hrej].
    + rewrite (loop_Accepted entries Hacc) in Hout. simplify_eq. split; [done|].
      intros k p Hkp. apply Hentries in Hkp.
      by apply (proj1 (Forall_forall _ _) Hacc (k, p)).
    + destruct (loop_Rejected entries Hrej ∅ w) as [e He]. congruence.
  - intros Hacc. eexists. split; [by apply loop_Accepted, Hall|].
    assert (∀ keyID p, declared entries ∅ !! keyID = Some p →
              ∃ k, data !! k = Some p ∧ gpg_KeyID k = keyID) as Hfrom.
    { intros keyID p [Hempty|(k & Hin & Hk)]%declared_lookup; [done|].
      exists k. split; [by apply Hentries|done]. }
    split; [done|]. intros k p Hkp.
    assert (is_Some (declared entries ∅ !! gpg_KeyID k)) as [p' Hp'].
    { apply declared_is_Some. right. apply list_elem_of_fmap. exists (k, p).
      split; [done|]. by apply Hentries. }
    split; [by eexists|]. intros Huniq.
    destruct (Hfrom _ _ Hp') as (k' & Hk'p' & Hk'). 
    assert (k' = k) as -> by (apply Huniq; [by eexists|done]). congruence.
Qed.
End Configured.

(** ** Secret keys are never deleted *)

Section Secret.
Import appsv1 db KeySpec.
Context `{gpg_pure} {W : Type} (h : Handler Call W) (secret : W → string → Prop).
Context (keeper : SecretKeeper h secret) (keyID : string).
Local Abbreviation Safe := (KeySpec.Safe h secret keyID).

Lemma Safe_CallsOnly {A} (p : Prog Call A) :
  CallsOnly (λ X c, is_delete c = false) p → Safe p.
Proof.
  intros Hp w Hw.
  assert (CallsOnly (spares keyID) p) as Hp'.
  { eapply CallsOnly_mono; [|done]. intros X c Hc. unfold spares. destruct c; simpl in *; first [done|tauto]. }
  split.
  - by apply trace_CallsOnly.
  - eapply (final_CallsOnly h _ (λ w, secret w keyID)); [|done..].
    intros X c w' Hc Hw'. by apply keeper.
Qed.

Lemma Safe_mbind {A B} (p : Prog Call A) (f : A → Prog Call B) :
  Safe p → (∀ a, Safe (f a)) → Safe (p ≫= f).
Proof.
  intros Hp Hf w Hw. destruct (Hp w Hw) as [Htrace Hfinal].
  rewrite trace_mbind, final_mbind.
  destruct (outcome h p w) as [a|msg].
  - destruct (Hf a _ Hfinal) as [Htrace' Hfinal']. split; [|done].
    by apply Forall_app.
  - split; [|done]. by rewrite app_nil_r.
Qed.

Lemma Safe_defer {A} (d : Prog Call unit) (p : Prog Call A) :
  Safe d → Safe p → Safe (defer d p).
Proof.
  intros Hd Hp w Hw. destruct (Hp w Hw) as [Htrace Hfinal].
  destruct (Hd _ Hfinal) as [Htrace' Hfinal'].
  unfold trace, final in *. rewrite run_defer. simpl. split; [|done].
  by apply Forall_app.
Qed.

Lemma Safe_remove entries configuredKeys :
  Safe (SynchronizeGPGPublicKeys_remove entries configuredKeys).
Proof.
  induction entries as [|[keyID' v] entries IH]; intros w Hw; [done|].
  cbn. destruct (configuredKeys !! keyID'); [by apply IH|].
  set (rest := SynchronizeGPGPublicKeys_remove entries configuredKeys) in *.
  assert (∀ X (c : Call X) w', spares keyID X c → secret w' keyID →
            secret (h X c w').2 keyID) as Hkept.
  { intros X c w' Hc Hw'. by apply keeper. }
  assert (∀ X (c : Call X) x tr, spares keyID X c →
            Forall (EventIs (spares keyID)) tr →
            Forall (EventIs (spares keyID)) (Ev c x :: tr)) as Hcons.
  { intros X c x tr Hc Htr. by constructor. }
  unfold trace, final. cbn.
  destruct (h _ (gpg_IsSecretKey keyID') w) as [[isSecret err] w1] eqn:Hask. cbn.
  assert (secret w1 keyID) as Hw1.
  { replace w1 with (h _ (gpg_IsSecretKey keyID') w).2 by by rewrite Hask.
    apply Hkept; [spare|done]. }
  destruct err as [e|]; cbn.
  { match goal with |- context [h unit ?c w1] =>
      destruct (IH (h unit c w1).2) as [??]; [apply Hkept; [spare|done]|] end.
    split; [|done]. do 2 (apply Hcons; [spare|]). done. }
  destruct isSecret; cbn.
  { destruct (IH w1 Hw1) as [??]. split; [|done]. apply Hcons; [spare|done]. }
  assert (keyID' ≠ keyID) as Hne.
  { intros ->. assert (false = true); [|done].
    eapply (secret_answer h secret keeper keyID w); [done|]. by rewrite Hask. }
  match goal with |- context [h unit ?c w1] => set (w2 := (h unit c w1).2) end.
  assert (secret w2 keyID) as Hw2 by (apply Hkept; [spare|done]).
  destruct (h _ (gpg_DeletePGPKey keyID') w2) as [err w3] eqn:Hdel. cbn.
  assert (secret w3 keyID) as Hw3.
  { replace w3 with (h _ (gpg_DeletePGPKey keyID') w2).2 by by rewrite Hdel.
    apply Hkept; [spare|done]. }
  destruct err as [e|]; cbn.
  - match goal with |- context [h unit ?c w3] =>
      destruct (IH (h unit c w3).2) as [??]; [apply Hkept; [spare|done]|] end.
    split; [|done]. do 4 (apply Hcons; [spare|]). done.
  - destruct (IH w3 Hw3) as [??]. split; [|done]. do 3 (apply Hcons; [spare|]). done.
Qed.

Lemma Safe_locked : Safe SynchronizeGPGPublicKeys_locked.
Proof.
  unfold SynchronizeGPGPublicKeys_locked.
  apply Safe_mbind.
  { apply Safe_CallsOnly. eapply CallsOnly_mono; [|apply ListConfiguredGPGPublicKeys_calls].
    by intros X c (?&?&?). }
  intros [configuredKeys [e|]]; [by apply Safe_CallsOnly; constructor|].
  apply Safe_mbind.
  { apply Safe_CallsOnly. eapply CallsOnly_mono; [|apply ListInstalledGPGPublicKeys_calls].
    by intros X c (?&?&?). }
  intros [installedKeys [e|]]; [by apply Safe_CallsOnly; constructor|].
  apply Safe_mbind; [by apply Safe_CallsOnly; apply CallsOnly_call|]. intros entries.
  apply Safe_mbind.
  { apply Safe_CallsOnly.
    eapply CallsOnly_mono; [|apply SynchronizeGPGPublicKeys_import_calls]. by intros X c [??]. }
  intros []. apply Safe_mbind; [by apply Safe_CallsOnly; apply CallsOnly_call|].
  intros entries'. apply Safe_mbind; [apply Safe_remove|].
  intros []. apply Safe_CallsOnly. constructor.
Qed.

(** C2: whatever the declared key set and whatever the collaborators answer,
    as long as the key ring keeps its secret keys ([SecretKeeper]), a key that
    is marked secret when [SynchronizeGPGPublicKeys] starts is never deleted
    by it: no call of the run is [gpg.DeletePGPKey] on this key ID. *)
Theorem secret_keys_are_never_deleted w :
  secret w keyID →
  Forall (EventIs (spares keyID)) (trace h SynchronizeGPGPublicKeys w).
Proof.
  intros Hw. unfold SynchronizeGPGPublicKeys.
  assert (Safe SynchronizeGPGPublicKeys) as Hsafe; [|by apply Hsafe].
  apply Safe_mbind; [by apply Safe_CallsOnly; apply CallsOnly_call|].
  intros []; cbn; [|by apply Safe_CallsOnly; constructor].
  apply Safe_defer; [by apply Safe_CallsOnly; apply CallsOnly_call|apply Safe_locked].
Qed.
End Secret.

(** ** Convergence, at the reference key ring *)

Section Convergence.
Import appsv1 db Keyring KeySpec.
Context `{gpg_pure} (env : Env).
Local Abbreviation h := (Keyring.handle env).

Lemma public_keys_lookup w keyID : keyID ∈ public_keys w ↔ keyring w !! keyID = Some false.
Proof.
  unfold public_keys. rewrite elem_of_dom. unfold is_Some.
  setoid_rewrite map_lookup_filter_Some. simpl. split.
  - intros (b & Hb & ->). done.
  - intros Hb. by exists false.
Qed.

Lemma secret_keys_lookup w keyID : keyID ∈ secret_keys w ↔ keyring w !! keyID = Some true.
Proof.
  unfold secret_keys. rewrite elem_of_dom. unfold is_Some.
  setoid_rewrite map_lookup_filter_Some. simpl. split.
  - intros (b & Hb & ->). done.
  - intros Hb. by exists true.
Qed.

(** Calls that read leave the key ring, the ConfigMap and the semaphore. *)
Lemma reads_same_ring X (c : Call X) w w0 :
  reads X c → same_ring w0 w → same_ring w0 (h X c w).2.
Proof.
  intros (Hsem & Himp & Hdel) Hw. destruct c; simpl in *; try done.
  - destruct (config w); [case_decide|]; done.
  - destruct (files w !! keyFile); [destruct (parse env _)|]; done.
  - by destruct (fails env (tick w)).
  - by destruct (fails env (tick w)).
Qed.

Lemma final_reads {A} (p : Prog Call A) w :
  CallsOnly reads p → same_ring w (final h p w).
Proof.
  intros Hp. apply (final_CallsOnly h reads (same_ring w)); [|done..].
  intros X c w'. apply reads_same_ring.
Qed.

Lemma ListInstalled_loop_outcome keys : ∀ result w,
  outcome h (ListInstalledGPGPublicKeys_loop keys result) w
    = Done (Some (foldl (installed_step (keyring w)) result keys), None) ∨
  ∃ e, outcome h (ListInstalledGPGPublicKeys_loop keys result) w = Done (None, Some e).
Proof.
  induction keys as [|v keys IH]; intros result w; [by left|].
  unfold outcome in *. cbn. destruct (fails env (tick w)); cbn; [right; by eexists|].
  unfold installed_step at 2.
  destruct (default false (keyring w !! KeyID v)); cbn.
  - destruct (IH result (next w)) as [IH'|[e IH']]; [left|right; exists e];
      by destruct (run h (ListInstalledGPGPublicKeys_loop keys result) (next w)) as [[o t] w'].
  - destruct (IH (<[KeyID v := v]> result) (next w)) as [IH'|[e IH']]; [left|right; exists e];
      by destruct (run h (ListInstalledGPGPublicKeys_loop keys _) (next w)) as [[o t] w'].
Qed.

Lemma installed_lookup kr keys : ∀ result keyID,
  is_Some (foldl (installed_step kr) result keys !! keyID) ↔
  is_Some (result !! keyID) ∨
  (keyID ∈ KeyID <$> keys ∧ default false (kr !! keyID) = false).
Proof.
  induction keys as [|v keys IH]; intros result keyID; simpl.
  - rewrite elem_of_nil. tauto.
  - rewrite IH, elem_of_cons. unfold installed_step.
    destruct (default false (kr !! KeyID v)) eqn:Hv.
    + split.
      * intros [?|[??]]; [by left|right; split; [by right|done]].
      * intros [?|[[->|?] ?]]; [by left|congruence|by right].
    + destruct (decide (keyID = KeyID v)) as [->|Hne].
      * rewrite lookup_insert_eq. split; [|by left]. intros _. right. split; [by left|done].
      * rewrite lookup_insert_ne by done. split.
        -- intros [?|[??]]; [by left|right; split; [by right|done]].
        -- intros [?|[[->|?] ?]]; [by left|done|by right].
Qed.

Lemma GetInstalled_keys w keyID :
  keyID ∈ KeyID ∘ public_key <$> (map_to_list (keyring w)).*1 ↔ is_Some (keyring w !! keyID).
Proof.
  rewrite list_elem_of_fmap. split.
  - intros (k & -> & Hk). simpl. apply list_elem_of_fmap in Hk as ([k' b] & -> & Hkb).
    apply elem_of_map_to_list in Hkb. by eexists.
  - intros [b Hb]. exists keyID. split; [done|]. apply list_elem_of_fmap.
    exists (keyID, b). split; [done|]. by apply elem_of_map_to_list.
Qed.

(** [ListInstalledGPGPublicKeys] fails, or returns the public keys of the
    ring. *)
Lemma ListInstalled_outcome w :
  (∃ e, outcome h ListInstalledGPGPublicKeys w = Done (None, Some e)) ∨
  ∃ installedKeys,
    outcome h ListInstalledGPGPublicKeys w = Done (Some installedKeys, None) ∧
    ∀ keyID, is_Some (installedKeys !! keyID) ↔ keyring w !! keyID = Some false.
Proof.
  unfold ListInstalledGPGPublicKeys, outcome. cbn.
  destruct (fails env (tick w)); cbn; [left; by eexists|].
  destruct (ListInstalled_loop_outcome (public_key <$> (map_to_list (keyring w)).*1)
              ∅ (next w)) as [Hloop|Hloop]; unfold outcome in Hloop.
  2:{ left. destruct Hloop as [e He]. exists e.
      by destruct (run h (ListInstalledGPGPublicKeys_loop _ _) _) as [[o t] w']. }
  right. eexists. split.
  { destruct (run h (ListInstalledGPGPublicKeys_loop _ _) _) as [[o t] w']. exact Hloop. }
  intros keyID. change (keyring (next w)) with (keyring w).
  rewrite installed_lookup, lookup_empty, <-list_fmap_compose, GetInstalled_keys.
  destruct (keyring w !! keyID) as [[]|]; simpl; (split; [intros Hx|intros Hx; try done]).
  - destruct Hx as [Hx|[_ Hx]]; [by apply is_Some_None in Hx|done].
  - done.
  - right. split; [by eexists|done].
  - destruct Hx as [Hx|[Hx _]]; by apply is_Some_None in Hx.
Qed.

Lemma import_run installedKeys entries : ∀ w,
  (∀ keyID keyData, (keyID, keyData) ∈ entries → parse env keyData = Some [keyID]) →
  Forall attempt_succeeded (trace h (SynchronizeGPGPublicKeys_import entries installedKeys) w) →
  outcome h (SynchronizeGPGPublicKeys_import entries installedKeys) w = Done () ∧
  keyring (final h (SynchronizeGPGPublicKeys_import entries installedKeys) w)
    = foldl (import_step installedKeys) (keyring w) entries.*1 ∧
  config (final h (SynchronizeGPGPublicKeys_import entries installedKeys) w) = config w ∧
  sem_cur (final h (SynchronizeGPGPublicKeys_import entries installedKeys) w) = sem_cur w.
Proof.
  induction entries as [|[keyID keyData] entries IH]; intros w Hparse Hok; [done|].
  assert (∀ keyID keyData, (keyID, keyData) ∈ entries → parse env keyData = Some [keyID])
    as Hparse' by (intros ???; apply Hparse; by right).
  revert Hok. unfold outcome, trace, final. cbn. unfold import_step at 2.
  destruct (installedKeys !! keyID); cbn; [by apply IH|].
  destruct (fails env (tick w)); cbn.
  { intros Hok. apply Forall_cons in Hok as [_ Hok]. by apply Forall_cons in Hok as [? _]. }
  rewrite (Hparse keyID keyData) by left. cbn.
  rewrite decide_False by (intros Hne; by apply Hne).
  cbn. intros Hok. do 2 apply Forall_cons in Hok as [_ Hok].
  exact (IH _ Hparse' Hok).
Qed.

Lemma remove_run configuredKeys entries : ∀ w,
  Forall attempt_succeeded
    (trace h (SynchronizeGPGPublicKeys_remove entries configuredKeys) w) →
  outcome h (SynchronizeGPGPublicKeys_remove entries configuredKeys) w = Done () ∧
  keyring (final h (SynchronizeGPGPublicKeys_remove entries configuredKeys) w)
    = foldl (remove_step configuredKeys) (keyring w) entries.*1 ∧
  config (final h (SynchronizeGPGPublicKeys_remove entries configuredKeys) w) = config w ∧
  sem_cur (final h (SynchronizeGPGPublicKeys_remove entries configuredKeys) w) = sem_cur w.
Proof.
  induction entries as [|[keyID v] entries IH]; intros w; [done|].
  unfold outcome, trace, final. cbn. unfold remove_step at 2.
  destruct (configuredKeys !! keyID); cbn; [by apply IH|].
  destruct (fails env (tick w)); cbn.
  { intros Hok. by apply Forall_cons in Hok as [? _]. }
  destruct (default false (keyring w !! keyID)); cbn.
  { intros Hok. apply Forall_cons in Hok as [_ Hok]. by apply IH. }
  destruct (fails env (S (tick w))); cbn.
  { intros Hok. do 2 apply Forall_cons in Hok as [_ Hok].
    by apply Forall_cons in Hok as [? _]. }
  intros Hok. do 3 apply Forall_cons in Hok as [_ Hok].
  exact (IH _ Hok).
Qed.

(** Nothing to import, nothing to remove. *)
Lemma import_nothing installedKeys entries w :
  (∀ keyID, keyID ∈ entries.*1 → is_Some (installedKeys !! keyID)) →
  run h (SynchronizeGPGPublicKeys_import entries installedKeys) w = (Done (), [], w).
Proof.
  induction entries as [|[keyID keyData] entries IH]; intros Hin; [done|].
  cbn. destruct (Hin keyID) as [v ->]; [by left|]. cbn.
  apply IH. intros ??. apply Hin. by right.
Qed.

Lemma remove_nothing configuredKeys entries w :
  (∀ keyID, keyID ∈ entries.*1 → is_Some (configuredKeys !! keyID)) →
  run h (SynchronizeGPGPublicKeys_remove entries configuredKeys) w = (Done (), [], w).
Proof.
  induction entries as [|[keyID v] entries IH]; intros Hin; [done|].
  cbn. destruct (Hin keyID) as [p ->]; [by left|]. cbn.
  apply IH. intros ??. apply Hin. by right.
Qed.

Lemma install_lookup kr keyID x :
  install kr keyID !! x
  = match kr !! x with
    | Some b => Some b
    | None => if decide (x = keyID) then Some false else None
    end.
Proof.
  unfold install. destruct (decide (x = keyID)) as [->|Hne].
  - destruct (kr !! keyID) eqn:Hk; [by rewrite Hk|]. by rewrite lookup_insert_eq.
  - destruct (kr !! keyID) eqn:Hk; [by destruct (kr !! x)|].
    rewrite lookup_insert_ne by done. by destruct (kr !! x).
Qed.

Lemma import_steps_lookup installedKeys ids : ∀ kr x,
  foldl (import_step installedKeys) kr ids !! x
  = match kr !! x with
    | Some b => Some b
    | None => if decide (x ∈ ids ∧ installedKeys !! x = None) then Some false else None
    end.
Proof.
  induction ids as [|keyID ids IH]; intros kr x; cbn [foldl].
  - destruct (kr !! x); [done|]. rewrite decide_False; [done|]. rewrite elem_of_nil. tauto.
  - rewrite IH. unfold import_step.
    destruct (installedKeys !! keyID) eqn:Hinst.
    + destruct (kr !! x); [done|]. apply decide_ext. rewrite elem_of_cons.
      split; [tauto|]. intros [[->|?] ?]; [congruence|tauto].
    + rewrite install_lookup. destruct (kr !! x); [done|].
      destruct (decide (x = keyID)) as [->|Hne].
      * case_decide as Hd; [done|]. exfalso. apply Hd. split; [by left|done].
      * apply decide_ext. rewrite elem_of_cons. tauto.
Qed.

Lemma remove_steps_lookup configuredKeys ids : ∀ kr x,
  foldl (remove_step configuredKeys) kr ids !! x
  = if decide (x ∈ ids ∧ configuredKeys !! x = None ∧ kr !! x ≠ Some true)
    then None else kr !! x.
Proof.
  induction ids as [|keyID ids IH]; intros kr x; cbn [foldl].
  - rewrite decide_False; [done|]. rewrite elem_of_nil. tauto.
  - rewrite IH. unfold remove_step.
    destruct (configuredKeys !! keyID) eqn:Hcfg.
    + apply decide_ext. rewrite elem_of_cons.
      split; [tauto|]. intros [[->|?] [??]]; [congruence|tauto].
    + destruct (kr !! keyID) as [[]|] eqn:Hk; simpl.
      * apply decide_ext. rewrite elem_of_cons.
        split; [tauto|]. intros [[->|?] [??]]; [congruence|tauto].
      * destruct (decide (x = keyID)) as [->|Hne].
        -- rewrite lookup_delete_eq. rewrite Hk. repeat case_decide; try done.
           all: exfalso; match goal with Hd : ¬ (_ ∈ _ :: _ ∧ _) |- _ => apply Hd end.
           all: split; [by left|done].
        -- rewrite lookup_delete_ne by done.
           apply decide_ext. rewrite elem_of_cons. tauto.
      * destruct (decide (x = keyID)) as [->|Hne].
        -- rewrite lookup_delete_eq. rewrite Hk. by repeat case_decide.
        -- rewrite lookup_delete_ne by done.
           apply decide_ext. rewrite elem_of_cons. tauto.
Qed.

Lemma run_mbind_Done {A B} (p : Prog Call A) (f : A → Prog Call B) w a tr w' :
  run h p w = (Done a, tr, w') →
  run h (p ≫= f) w = ((run h (f a) w').1.1, tr ++ (run h (f a) w').1.2, (run h (f a) w').2).
Proof. intros Hp. rewrite run_mbind. unfold outcome, trace, final. by rewrite Hp. Qed.

Lemma ListConfigured_run w data :
  config w = Some data →
  Forall (λ kp, Accepted env kp.1 kp.2) (order env _ (map_to_list data)) →
  ∃ tr w',
    run h ListConfiguredGPGPublicKeys w
      = (Done (Some (declared (order env _ (map_to_list data)) ∅), None), tr, w') ∧
    Forall (EventIs reads) tr ∧ same_ring w w'.
Proof.
  intros Hdata Hacc.
  exists (trace h ListConfiguredGPGPublicKeys w), (final h ListConfiguredGPGPublicKeys w).
  split_and!.
  - pose proof (loop_Accepted env _ Hacc ∅ w) as Hloop.
    rewrite <-(ListConfiguredGPGPublicKeys_outcome env w data Hdata) in Hloop.
    unfold outcome, trace, final in *.
    destruct (run h ListConfiguredGPGPublicKeys w) as [[o t] w']. simpl in *. by subst.
  - apply trace_CallsOnly, ListConfiguredGPGPublicKeys_calls.
  - apply final_reads, ListConfiguredGPGPublicKeys_calls.
Qed.

Lemma locked_run w data :
  config w = Some data →
  Forall (λ kp, Accepted env kp.1 kp.2) (order env _ (map_to_list data)) →
  ((∃ e, outcome h SynchronizeGPGPublicKeys_locked w = Done (Some e)) ∧
   Forall (EventIs reads) (trace h SynchronizeGPGPublicKeys_locked w) ∧
   same_ring w (final h SynchronizeGPGPublicKeys_locked w)) ∨
  ∃ installedKeys tr w',
    let configuredKeys := declared (order env _ (map_to_list data)) ∅ in
    let import := SynchronizeGPGPublicKeys_import
                    (order env _ (map_to_list configuredKeys)) installedKeys in
    let remove := SynchronizeGPGPublicKeys_remove
                    (order env _ (map_to_list installedKeys)) configuredKeys in
    Forall (EventIs reads) tr ∧ same_ring w w' ∧
    (∀ keyID, is_Some (installedKeys !! keyID) ↔ keyring w !! keyID = Some false) ∧
    run h SynchronizeGPGPublicKeys_locked w
    = match outcome h import w' with
      | Done _ =>
        (match outcome h remove (final h import w') with
         | Done _ => Done None
         | Panicked msg => Panicked msg
         end,
         tr ++ Ev (range configuredKeys) (order env _ (map_to_list configuredKeys))
            :: trace h import w'
            ++ Ev (range installedKeys) (order env _ (map_to_list installedKeys))
            :: trace h remove (final h import w'),
         final h remove (final h import w'))
      | Panicked msg =>
        (Panicked msg,
         tr ++ Ev (range configuredKeys) (order env _ (map_to_list configuredKeys))
            :: trace h import w',
         final h import w')
      end.
Proof.
  intros Hdata Hacc.
  destruct (ListConfigured_run w data Hdata Hacc) as (tr1 & w1 & Hrun1 & Htr1 & Hw1).
  pose proof (trace_CallsOnly h reads _ w1 ListInstalledGPGPublicKeys_calls) as Htr2.
  pose proof (final_reads _ w1 ListInstalledGPGPublicKeys_calls) as Hw2.
  assert (same_ring w (final h ListInstalledGPGPublicKeys w1)) as Hw12.
  { destruct Hw1 as (?&?&?), Hw2 as (?&?&?). split_and!; congruence. }
  unfold SynchronizeGPGPublicKeys_locked.
  destruct (ListInstalled_outcome w1) as [[e He]|(installedKeys & Hout & Hinst)].
  - left. unfold outcome, trace, final in *.
    rewrite (run_mbind_Done _ _ _ _ _ _ Hrun1). cbn. rewrite run_mbind.
    unfold outcome, trace, final.
    destruct (run h ListInstalledGPGPublicKeys w1) as [[o2 tr2] w2]. cbn in *. subst o2.
    cbn. rewrite app_nil_r. split_and!; [by eexists|by apply Forall_app|done].
  - right. unfold outcome, trace, final in Hout, Htr2, Hw12.
    destruct (run h ListInstalledGPGPublicKeys w1) as [[o2 tr2] w2] eqn:Hrun2.
    cbn in Hout, Htr2, Hw12. subst o2.
    exists installedKeys, (tr1 ++ tr2), w2. cbn zeta. split_and!.
    + by apply Forall_app.
    + done.
    + intros keyID. rewrite Hinst. by destruct Hw1 as [-> _].
    + rewrite (run_mbind_Done _ _ _ _ _ _ Hrun1). cbn.
      rewrite (run_mbind_Done _ _ _ _ _ _ Hrun2). cbn.
      rewrite run_mbind.
      destruct (outcome h (SynchronizeGPGPublicKeys_import _ _) w2); cbn.
      * rewrite run_mbind.
        destruct (outcome h (SynchronizeGPGPublicKeys_remove _ _) _); cbn.
        -- by rewrite <-!app_assoc, app_nil_r.
        -- by rewrite <-!app_assoc.
      * by rewrite <-!app_assoc.
Qed.

Lemma Sync_run w :
  run h SynchronizeGPGPublicKeys w
  = if decide (1 ≤ sem_size - sem_cur w)%Z then
      let r := run h SynchronizeGPGPublicKeys_locked (set_sem (λ cur, cur + 1)%Z w) in
      (r.1.1, Ev (syncSemaphore_TryAcquire 1) true
                :: r.1.2 ++ [Ev (syncSemaphore_Release 1) ()],
       set_sem (λ cur, cur - 1)%Z r.2)
    else (Done (Some locked_error), [Ev (syncSemaphore_TryAcquire 1) false], w).
Proof.
  unfold SynchronizeGPGPublicKeys. cbn. case_decide; [|done]. cbn.
  rewrite run_defer. cbn.
  by destruct (run h SynchronizeGPGPublicKeys_locked _) as [[[] ?] ?].
Qed.

Lemma locked_rejected w data :
  config w = Some data →
  Exists (λ kp, Rejected env kp.1 kp.2) (order env _ (map_to_list data)) →
  (∃ e, outcome h SynchronizeGPGPublicKeys_locked w = Done (Some e)) ∧
  Forall (EventIs reads) (trace h SynchronizeGPGPublicKeys_locked w) ∧
  same_ring w (final h SynchronizeGPGPublicKeys_locked w).
Proof.
  intros Hdata Hrej.
  destruct (loop_Rejected env _ Hrej ∅ w) as [e He].
  rewrite <-(ListConfiguredGPGPublicKeys_outcome env w data Hdata) in He.
  unfold SynchronizeGPGPublicKeys_locked.
  rewrite outcome_mbind, trace_mbind, final_mbind, He. cbn. rewrite app_nil_r.
  split_and!; [by eexists|..].
  - apply trace_CallsOnly, ListConfiguredGPGPublicKeys_calls.
  - apply final_reads, ListConfiguredGPGPublicKeys_calls.
Qed.

Lemma declared_dom data x :
  OrderLaw env →
  is_Some (declared (order env _ (map_to_list data)) ∅ !! x) ↔ x ∈ declared_keys data.
Proof.
  intros Horder. unfold declared_keys. rewrite elem_of_map. setoid_rewrite elem_of_dom.
  assert (∀ k p, (k, p) ∈ order env _ (map_to_list data) ↔ data !! k = Some p) as Hentries.
  { intros k p. rewrite (Horder _ (map_to_list data)). apply elem_of_map_to_list. }
  split.
  - intros [p [Hp|(k & Hin & Hk)]%declared_lookup]; [done|].
    exists k. split; [done|]. exists p. by apply Hentries.
  - intros (k & -> & p & Hp). apply declared_is_Some. right.
    apply list_elem_of_fmap. exists (k, p). split; [done|]. by apply Hentries.
Qed.

Lemma range_keys {V} (m : gmap string V) x :
  OrderLaw env → x ∈ (order env V (map_to_list m)).*1 ↔ is_Some (m !! x).
Proof.
  intros Horder. rewrite (Horder V (map_to_list m)), list_elem_of_fmap. split.
  - intros ([k v] & -> & Hkv). apply elem_of_map_to_list in Hkv. by eexists.
  - intros [v Hv]. exists (x, v). split; [done|]. by apply elem_of_map_to_list.
Qed.

(** C1, as amended: at the reference key ring, with the ConfigMap [data]
    declaring the key set D, none of whose key IDs is the ID of a secret key
    of the ring: if [SynchronizeGPGPublicKeys] returns without error and
    every import, delete and secret-key check it attempts succeeds, then
    afterwards the non-secret subset of the key ring equals D.  And, for every D, a call
    that finds the non-secret subset of the key ring equal to D performs no
    import and no delete, and leaves the key ring as it is. *)
Theorem sync_converges w data :
  OrderLaw env → config w = Some data →
  (declared_keys data ## secret_keys w →
   outcome h SynchronizeGPGPublicKeys w = Done None →
   Forall attempt_succeeded (trace h SynchronizeGPGPublicKeys w) →
   public_keys (final h SynchronizeGPGPublicKeys w) = declared_keys data) ∧
  (public_keys w = declared_keys data →
   Forall (EventIs no_mutation) (trace h SynchronizeGPGPublicKeys w) ∧
   keyring (final h SynchronizeGPGPublicKeys w) = keyring w).
Proof.
  intros Horder Hdata. unfold outcome, trace, final. rewrite Sync_run.
  case_decide as Hsem; cbn; [|by split; [|repeat constructor]].
  set (w1 := set_sem (λ cur, (cur + 1)%Z) w).
  assert (config w1 = Some data) as Hdata1 by done.
  assert ((∃ e, outcome h SynchronizeGPGPublicKeys_locked w1 = Done (Some e)) ∧
          Forall (EventIs reads) (trace h SynchronizeGPGPublicKeys_locked w1) ∧
          same_ring w1 (final h SynchronizeGPGPublicKeys_locked w1) ∨
          Forall (λ kp, Accepted env kp.1 kp.2) (order env _ (map_to_list data)))
    as [([e He] & Htr & Hw)|Hacc].
  { destruct (Forall_or_Exists env (order env _ (map_to_list data))) as [Hacc|Hrej];
      [by right|left]. by apply (locked_rejected w1 data). }
  { unfold outcome, trace, final in *. split; [by rewrite He|].
    intros _. split.
    - constructor; [done|]. apply Forall_app. split; [|by repeat constructor].
      eapply Forall_impl; [done|]. intros [X c x] (?&?&?). by split.
    - by destruct Hw as [-> _]. }
  destruct (locked_run w1 data Hdata1 Hacc)
    as [([e He] & Htr & Hw)|(installedKeys & tr & w2 & Hlocked)].
  { unfold outcome, trace, final in *. split; [by rewrite He|].
    intros _. split.
    - constructor; [done|]. apply Forall_app. split; [|by repeat constructor].
      eapply Forall_impl; [done|]. intros [X c x] (?&?&?). by split.
    - by destruct Hw as [-> _]. }
  cbn zeta in Hlocked. destruct Hlocked as (Htr & Hw2 & Hinst & Hrun).
  set (configuredKeys := declared (order env _ (map_to_list data)) ∅) in *.
  set (entries1 := order env _ (map_to_list configuredKeys)) in *.
  set (entries2 := order env _ (map_to_list installedKeys)) in *.
  assert (keyring w2 = keyring w) as Hkr2 by by destruct Hw2 as [-> _].
  change (keyring w1) with (keyring w) in Hinst.
  split.
  - intros Hdisj Hout Hok. rewrite Hrun in Hout, Hok |- *.
    destruct (outcome h (SynchronizeGPGPublicKeys_import _ _) w2) as [[]|] eqn:Himp;
      [|done]. cbn in *.
    rewrite ?Forall_cons, ?Forall_app, ?Forall_cons, ?Forall_app, ?Forall_cons in Hok.
    destruct Hok as (_ & (_ & _ & Hok1 & _ & Hok2) & _).
    destruct (import_run installedKeys entries1 w2) as (_ & Hkr3 & _); [|done|].
    { intros keyID keyData Hin. unfold entries1 in Hin.
      rewrite (Horder _ (map_to_list configuredKeys)) in Hin.
      apply elem_of_map_to_list, declared_lookup in Hin as [?|(k & Hin & <-)]; [done|].
      by apply (proj1 (Forall_forall _ _) Hacc (k, keyData)). }
    destruct (remove_run configuredKeys entries2 _ Hok2) as (_ & Hkr4 & _).
    apply set_eq. intros x. rewrite public_keys_lookup. cbn.
    rewrite Hkr4, Hkr3, Hkr2, remove_steps_lookup, import_steps_lookup.
    rewrite <-(declared_dom data x Horder). fold configuredKeys.
    assert (x ∈ entries1.*1 ↔ is_Some (configuredKeys !! x)) as Hx1
      by by apply range_keys.
    assert (x ∈ entries2.*1 ↔ keyring w !! x = Some false) as Hx2.
    { unfold entries2. rewrite range_keys by done. rewrite Hinst. done. }
    assert (is_Some (configuredKeys !! x) → keyring w !! x ≠ Some true) as Hx3.
    { intros Hx Hsec. apply (Hdisj x); [by apply declared_dom|by apply secret_keys_lookup]. }
    assert (installedKeys !! x = None ↔ keyring w !! x ≠ Some false) as Hx4.
    { rewrite <-Hinst, eq_None_not_Some. done. }
    destruct (configuredKeys !! x) as [p|] eqn:Hcfg.
    + rewrite decide_False by (intros (?&?&?); done).
      destruct (keyring w !! x) as [[]|] eqn:Hkr.
      * exfalso. apply Hx3; [by eexists|done].
      * split; [by eexists|done].
      * rewrite decide_True; [split; [by eexists|done]|].
        split; [apply Hx1; by eexists|]. by apply Hx4.
    + destruct (keyring w !! x) as [[]|] eqn:Hkr.
      * rewrite decide_False by (intros (?&?&?); done).
        split; [done|]. by intros []%is_Some_None.
      * rewrite decide_True by (split_and!; [by apply Hx2|done..]).
        split; [done|]. by intros []%is_Some_None.
      * rewrite (decide_False (P := x ∈ entries1.*1 ∧ _)).
        2:{ intros [Hin _]. apply Hx1 in Hin. by apply is_Some_None in Hin. }
        case_decide; (split; [done|]); by intros []%is_Some_None.
  - intros Hpub.
    assert (∀ x, is_Some (configuredKeys !! x) ↔ keyring w !! x = Some false) as Hsame.
    { intros x. unfold configuredKeys. rewrite declared_dom by done.
      by rewrite <-Hpub, public_keys_lookup. }
    rewrite Hrun. unfold outcome, trace, final.
    rewrite (import_nothing installedKeys entries1 w2). 
    2:{ intros x Hx. apply Hinst. apply Hsame. by apply range_keys in Hx. }
    cbn. rewrite (remove_nothing configuredKeys entries2 w2).
    2:{ intros x Hx. apply Hsame. apply Hinst. by apply range_keys in Hx. }
    cbn. split; [|done].
    constructor; [done|]. rewrite <-app_assoc. apply Forall_app. split.
    + eapply Forall_impl; [done|]. intros [X c x] (?&?&?). by split.
    + by repeat constructor.
Qed.
End Convergence.

(** ** Mutual exclusion *)

Section Exclusion.
Import appsv1 db KeySpec.
Context `{gpg_pure} {W : Type} (h : Handler Call W).

Lemma CallsOnly_Do_inv (P : ∀ X, Call X → Prop) {A X} (c : Call X) (k : X → Prog Call A) :
  CallsOnly P (Do c k) → P X c ∧ ∀ x, CallsOnly P (k x).
Proof.
  intros Hp.
  change (match Do c k with
          | Do c k => P _ c ∧ ∀ x, CallsOnly P (k x)
          | _ => True
          end).
  by destruct Hp.
Qed.

Lemma with_sem_other X (c : Call X) cur w :
  is_sem c = false →
  with_sem h X c (cur, w) = ((h X c w).1, (cur, (h X c w).2)).
Proof. by destruct c. Qed.

Lemma locked_when_held cur w :
  (1 ≤ cur)%Z →
  run (with_sem h) SynchronizeGPGPublicKeys (cur, w)
  = (Done (Some locked_error), [Ev (syncSemaphore_TryAcquire 1) false], (cur, w)).
Proof.
  intros Hcur. unfold SynchronizeGPGPublicKeys. cbn.
  rewrite decide_False by (unfold sem_size; lia). done.
Qed.

Lemma released_on_exit cur w :
  (final (with_sem h) SynchronizeGPGPublicKeys (cur, w)).1 = cur.
Proof.
  unfold SynchronizeGPGPublicKeys, final. cbn. case_decide; [|done]. cbn.
  rewrite run_defer. cbn.
  pose proof (final_CallsOnly (with_sem h) no_sem (λ s, s.1 = (cur + 1)%Z)
                SynchronizeGPGPublicKeys_locked ((cur + 1)%Z, w)) as Hfinal.
  unfold final in Hfinal. rewrite Hfinal; [lia| |apply SynchronizeGPGPublicKeys_locked_calls|done].
  intros X c [cur' w'] Hc Hcur. by rewrite with_sem_other.
Qed.

Lemma held_comm ph1 ph2 : held ph1 ph2 = held ph2 ph1.
Proof. unfold held. apply decide_ext. tauto. Qed.

Lemma held_Holding_l ph : held Holding ph = 1%Z.
Proof. unfold held. rewrite decide_True; [done|by left]. Qed.
Lemma held_Holding_r ph : held ph Holding = 1%Z.
Proof. unfold held. rewrite decide_True; [done|by right]. Qed.
Lemma held_free ph1 ph2 : ph1 ≠ Holding → ph2 ≠ Holding → held ph1 ph2 = 0%Z.
Proof. intros ??. unfold held. rewrite decide_False; [done|]. by intros [?|?]. Qed.

Lemma thread_step (me other : Phase) (p : Prog Call (option error)) cur w :
  in_phase me p → cur = held me other → ¬ (me = Holding ∧ other = Holding) →
  match p with
  | Do c k =>
    let r := with_sem h _ c (cur, w) in
    ∃ me', protocol_step me other (Ev c r.1) = Some me' ∧
      in_phase me' (k r.1) ∧ r.2.1 = held me' other ∧
      ¬ (me' = Holding ∧ other = Holding)
  | _ => True
  end.
Proof.
  intros Hp -> Hex. destruct me; simpl in Hp.
  - (* about to try *)
    subst p. unfold SynchronizeGPGPublicKeys.
    destruct (decide (other = Holding)) as [->|Hother].
    + rewrite !held_Holding_r. cbn. exists Refused.
      rewrite held_Holding_r. split_and!; try done. not_both.
    + rewrite held_free by done. cbn. exists Holding. rewrite held_Holding_l.
      split_and!; [by destruct other| |done|not_both].
      eexists. split; [done|]. apply SynchronizeGPGPublicKeys_locked_calls.
  - (* in the locked part *)
    destruct Hp as (rest & -> & Hrest).
    assert (other ≠ Holding) as Hother by (intros ?; by apply Hex).
    rewrite held_Holding_l.
    destruct rest as [err|msg|X c k]; cbn.
    + exists Released. rewrite held_free by done.
      split_and!; [done|left; by eexists|done|not_both].
    + exists Released. rewrite held_free by done.
      split_and!; [done|right; by eexists|done|not_both].
    + apply CallsOnly_Do_inv in Hrest as [Hc Hk]. rewrite with_sem_other by done. cbn.
      exists Holding. rewrite held_Holding_l.
      split_and!; [by destruct c|by eexists|done|not_both].
  - by subst p.
  - by destruct Hp as [[err ->]|[msg ->]].
Qed.

Lemma interleave_protocol sched : ∀ p1 p2 cur w ph1 ph2,
  in_phase ph1 p1 → in_phase ph2 p2 → cur = held ph1 ph2 →
  ¬ (ph1 = Holding ∧ ph2 = Holding) →
  let r := interleave (with_sem h) sched p1 p2 (cur, w) in
  ∃ ph1' ph2', protocol ph1 ph2 r.1 = Some (ph1', ph2') ∧
    in_phase ph1' r.2.1.1 ∧ in_phase ph2' r.2.1.2 ∧
    r.2.2.1 = held ph1' ph2' ∧ ¬ (ph1' = Holding ∧ ph2' = Holding).
Proof.
  induction sched as [|t sched IH]; intros p1 p2 cur w ph1 ph2 Hp1 Hp2 Hcur Hex.
  { by exists ph1, ph2. }
  destruct t; cbn -[protocol_step with_sem].
  - pose proof (thread_step ph2 ph1 p2 cur w Hp2) as Hstep.
    destruct p2 as [err|msg|X c k]; [by apply IH..|].
    destruct Hstep as (ph2' & Hproto & Hp2' & Hcur' & Hex');
      [by rewrite held_comm|tauto|].
    cbn -[protocol_step with_sem]. rewrite Hproto.
    destruct (with_sem h X c (cur, w)) as [x [cur' w']]. cbn in *.
    apply IH; [done..|by rewrite held_comm|tauto].
  - pose proof (thread_step ph1 ph2 p1 cur w Hp1) as Hstep.
    destruct p1 as [err|msg|X c k]; [by apply IH..|].
    destruct Hstep as (ph1' & Hproto & Hp1' & Hcur' & Hex'); [done..|].
    cbn -[protocol_step with_sem]. rewrite Hproto.
    destruct (with_sem h X c (cur, w)) as [x [cur' w']]. cbn in *.
    by apply IH.
Qed.

(** C3: [SynchronizeGPGPublicKeys] takes the single-slot semaphore with one
    non-blocking [TryAcquire].  When the semaphore is held, the call returns
    the locked error at once: the failed [TryAcquire] is its only call.
    Whatever way the call ends (a return, an error, a panic), it leaves the
    semaphore as it found it.  And of two calls that run at once, under any
    schedule and whatever the other collaborators answer, the calls follow
    the protocol: a call makes its other calls only while it holds the
    semaphore; it obtains the semaphore only while the other call does not
    hold it, and is rejected only while the other holds it; a rejected call
    makes no further call and returns the locked error; the two never hold
    the semaphore together, and the semaphore is taken exactly when one of
    them holds it. *)
Theorem sync_is_mutually_exclusive w sched :
  (∀ cur, (1 ≤ cur)%Z →
     run (with_sem h) SynchronizeGPGPublicKeys (cur, w)
     = (Done (Some locked_error), [Ev (syncSemaphore_TryAcquire 1) false], (cur, w))) ∧
  (∀ cur, (final (with_sem h) SynchronizeGPGPublicKeys (cur, w)).1 = cur) ∧
  (let r := interleave (with_sem h) sched
              SynchronizeGPGPublicKeys SynchronizeGPGPublicKeys (0%Z, w) in
   ∃ ph1 ph2, protocol Fresh Fresh r.1 = Some (ph1, ph2) ∧
     in_phase ph1 r.2.1.1 ∧ in_phase ph2 r.2.1.2 ∧
     r.2.2.1 = held ph1 ph2 ∧ ¬ (ph1 = Holding ∧ ph2 = Holding)).
Proof.
  split_and!.
  - intros cur. apply locked_when_held.
  - intros cur. apply released_on_exit.
  - apply interleave_protocol; [done..|]. not_both.
Qed.
End Exclusion.

(** ** The reference key ring keeps its secret keys *)

Section KeyringFacts.
Import appsv1 db Keyring KeySpec.

Lemma foldl_install_lookup ids : ∀ kr keyID b,
  kr !! keyID = Some b → foldl install kr ids !! keyID = Some b.
Proof.
  induction ids as [|id ids IH]; intros kr keyID b Hb; [done|].
  simpl. apply IH. rewrite install_lookup. by rewrite Hb.
Qed.

Lemma Keyring_keeps_secrets env :
  SecretKeeper (Keyring.handle env) (λ w keyID, keyring w !! keyID = Some true).
Proof.
  split.
  - intros keyID w isSecret Hsecret. simpl.
    destruct (fails env (tick w)); [done|]. rewrite Hsecret. simpl. congruence.
  - intros X c keyID w Hc Hsecret. destruct c; simpl in *; try done.
    + by case_decide.
    + destruct (config w); [case_decide|]; done.
    + destruct (files w !! keyFile); [destruct (parse env _)|]; done.
    + by destruct (fails env (tick w)).
    + by destruct (fails env (tick w)).
    + destruct (fails env (tick w)); [done|]. destruct (parse env keyData); [|done].
      simpl. by apply foldl_install_lookup.
    + destruct (fails env (tick w)); [done|]. simpl.
      rewrite lookup_delete_ne; [done|]. done.
Qed.

Lemma plain_order : OrderLaw plain_env.
Proof. by intros V l. Qed.

End KeyringFacts.

(** ** The key ring: examples *)

Section KeyExamples.
Import appsv1 db Keyring KeySpec.

Lemma secret_keys_are_never_deleted_witness :
  let w := world0 [] [("C", false); ("S", true)] in
  keyring w !! "S" = Some true ∧
  Forall (EventIs (spares "S"))
    (trace (Keyring.handle plain_env) (@SynchronizeGPGPublicKeys plain_gpg) w).
Proof.
  split; [vm_compute; reflexivity|].
  apply (@secret_keys_are_never_deleted plain_gpg World (Keyring.handle plain_env)
           (λ w keyID, keyring w !! keyID = Some true)
           (Keyring_keeps_secrets plain_env) "S"
           (world0 [] [("C", false); ("S", true)])).
  vm_compute; reflexivity.
Defined.

Local Abbreviation sync := (@SynchronizeGPGPublicKeys plain_gpg).
Local Abbreviation hk := (Keyring.handle plain_env).

Lemma sync_converges_witness :
  let data : gmap string string := list_to_map [("A", "A"); ("B", "B")] in
  (@declared_keys plain_gpg data ## secret_keys example_world ∧
   outcome hk sync example_world = Done None ∧
   Forall attempt_succeeded (trace hk sync example_world)) ∧
  public_keys (final hk sync example_world) = @declared_keys plain_gpg data ∧
  keyring (final hk sync example_world) = list_to_map [("A", false); ("B", false); ("S", true)].
Proof.
  intros data.
  assert (@declared_keys plain_gpg data ## secret_keys example_world) as Hdisj.
  { refine (bool_decide_unpack _ _). vm_compute. exact I. }
  assert (outcome hk sync example_world = Done None) as Hout by (vm_compute; reflexivity).
  assert (Forall attempt_succeeded (trace hk sync example_world)) as Hok.
  { vm_compute. repeat constructor. }
  split; [exact (conj Hdisj (conj Hout Hok))|]. split; [|vm_compute; reflexivity].
  exact (proj1 (@sync_converges plain_gpg plain_env example_world data plain_order eq_refl)
           Hdisj Hout Hok).
Defined.

(** C1, as stated, fails in two ways.  When a declared key ID is the ID of a
    secret key of the ring: with D = {A} and A secret, the call returns
    without error, its one import succeeds, and afterwards the non-secret
    subset of the key ring is empty, not D.  And when the secret-key check of
    the removal loop fails: with D empty and the public key C in the ring,
    the call returns without error and attempts no import and no delete, and
    afterwards C is still in the ring. *)
Lemma convergence_fails_as_stated :
  (let w := world0 [("A", "A")] [("A", true)] in
   outcome hk sync w = Done None ∧
   Forall mutation_succeeded (trace hk sync w) ∧
   Exists (EventIs (λ X c, is_import c = true)) (trace hk sync w) ∧
   @declared_keys plain_gpg (list_to_map [("A", "A")]) = {["A"]} ∧
   public_keys (final hk sync w) = ∅ ∧
   public_keys (final hk sync w) ≠ {["A"]}) ∧
  (let w := world0 [] [("C", false)] in
   let hf := Keyring.handle flaky_env in
   outcome hf sync w = Done None ∧
   Forall mutation_succeeded (trace hf sync w) ∧
   Forall (EventIs no_mutation) (trace hf sync w) ∧
   Exists (λ ev, ¬ attempt_succeeded ev) (trace hf sync w) ∧
   @declared_keys plain_gpg ∅ = ∅ ∧
   public_keys (final hf sync w) = {["C"]} ∧
   public_keys (final hf sync w) ≠ ∅).
Proof.
  split; cbn zeta; split_and!.
  - vm_compute; reflexivity.
  - vm_compute. repeat constructor.
  - vm_compute. repeat first [by apply Exists_cons_hd | apply Exists_cons_tl].
  - vm_compute; reflexivity.
  - vm_compute; reflexivity.
  - intros Heq. assert ("A" ∈ public_keys (final hk sync (world0 [("A", "A")] [("A", true)]))) as Hin.
    { rewrite Heq. by apply elem_of_singleton. }
    apply public_keys_lookup in Hin. vm_compute in Hin. discriminate.
  - vm_compute; reflexivity.
  - vm_compute. repeat constructor.
  - vm_compute. repeat constructor.
  - vm_compute. repeat first [by apply Exists_cons_hd; intros [=] | apply Exists_cons_tl].
  - vm_compute; reflexivity.
  - vm_compute; reflexivity.
  - intros Heq.
    assert ("C" ∈ public_keys (final (Keyring.handle flaky_env) sync (world0 [] [("C", false)])))
      as Hin by (apply public_keys_lookup; vm_compute; reflexivity).
    rewrite Heq in Hin. by apply elem_of_empty in Hin.
Qed.

Lemma configured_keys_all_or_nothing_witness :
  let bad := world0 [("A", "A"); ("B", "A+B")] [] in
  let good := world0 [("A", "A"); ("B", "B")] [] in
  (∃ e, outcome hk (@ListConfiguredGPGPublicKeys plain_gpg) bad = Done (None, Some e)) ∧
  (∃ result, outcome hk (@ListConfiguredGPGPublicKeys plain_gpg) good = Done (Some result, None) ∧
     result !! "B" = Some "B").
Proof.
  split.
  - apply (proj1 (@configured_keys_all_or_nothing plain_gpg plain_env
                    (world0 [("A", "A"); ("B", "A+B")] [])
                    (list_to_map [("A", "A"); ("B", "A+B")]) plain_order eq_refl)).
    exists "B", "A+B". split; [vm_compute; reflexivity|].
    by apply (@ambiguous plain_gpg plain_env "B" "A+B" ["A"; "B"]).
  - destruct (proj2 (proj2 (@configured_keys_all_or_nothing plain_gpg plain_env
                    (world0 [("A", "A"); ("B", "B")] [])
                    (list_to_map [("A", "A"); ("B", "B")]) plain_order eq_refl)))
      as (result & Hout & _ & Hto).
    + intros k p Hkp.
      assert ((k, p) ∈ [("A", "A"); ("B", "B")]) as Hin.
      { apply (elem_of_list_to_map_2 (M := gmap string)), Hkp. }
      apply elem_of_cons in Hin as [[= -> ->]|Hin]; [by split|].
      apply elem_of_cons in Hin as [[= -> ->]|Hin]; [by split|].
      by apply elem_of_nil in Hin.
    + exists result. split; [done|].
      assert ((list_to_map [("A", "A"); ("B", "B")] : gmap string string) !! "B" = Some "B")
        as HB by (vm_compute; reflexivity).
      apply (proj2 (Hto "B" "B" HB)). intros k' _ Hid. exact Hid.
Defined.

Lemma sync_is_mutually_exclusive_witness :
  let sched := false :: true :: replicate 30 false in
  let r := interleave (with_sem hk) sched sync sync (0%Z, example_world) in
  protocol Fresh Fresh r.1 = Some (Released, Refused) ∧
  r.2.1.2 = Ret (Some locked_error) ∧ r.2.2.1 = 0%Z.
Proof.
  intros sched r.
  destruct (proj2 (proj2 (@sync_is_mutually_exclusive plain_gpg World hk example_world sched)))
    as (ph1 & ph2 & Hproto & _ & Hp2 & Hsem & _).
  fold r in Hproto, Hp2, Hsem.
  assert (protocol Fresh Fresh r.1 = Some (Released, Refused)) as Hrun
    by (vm_compute; reflexivity).
  rewrite Hrun in Hproto. injection Hproto as <- <-.
  split; [exact Hrun|]. split; [exact Hp2|exact Hsem].
Defined.

End KeyExamples.

(** * More properties *)

Section LiftFacts.
Import Lift.
Context {E F : Type → Type} (inj : ∀ X, E X → F X) {W : Type} (h : Handler F W).

Lemma run_lift {A} (p : Prog E A) w :
  run h (lift inj p) w
  = ((run (lower inj h) p w).1.1, lift_event inj <$> (run (lower inj h) p w).1.2,
     (run (lower inj h) p w).2).
Proof.
  revert w. induction p as [a|msg|X c k IH]; intros w; [done..|].
  cbn. rewrite IH. done.
Qed.

Lemma CallsOnly_lift (P : ∀ X, F X → Prop) {A} (p : Prog E A) :
  CallsOnly (λ X c, P X (inj X c)) p → CallsOnly P (lift inj p).
Proof. induction 1; cbn; by constructor. Qed.
End LiftFacts.

Section ValidateFacts.
Import appsv1 db KeySpec KeyTrace.
Context `{gpg_pure} {W : Type} (h : Handler Call W).

Lemma validatePGPKey_files keyData w :
  let tr := trace h (validatePGPKey keyData) w in
  omap removed tr = omap created tr ∧
  (omap created tr = [] → length tr = 1) ∧
  (∀ f, omap created tr = [f] → ∃ x, last tr = Some (Ev (os_Remove f) x)) ∧
  (Exists write_failed tr → omap closed tr = []).
Proof.
  unfold validatePGPKey, trace. cbn.
  destruct (h _ (ioutil_TempFile "" "gpg-public-key") w) as [[f [e|]] w1]; cbn;
    [by split_and!|].
  destruct (h _ (ioutil_WriteFile f keyData 384) w1) as [[e|] w2]; cbn.
  { split_and!; try done. intros ? [= <-]. by eexists. }
  destruct (h _ (File_Close f) w2) as [? w3]; cbn.
  assert (∀ tl : list (Event Call),
            Forall (λ ev, ¬ write_failed ev) tl →
            ¬ Exists write_failed
                (Ev (ioutil_TempFile "" "gpg-public-key") (f, None)
                 :: Ev (ioutil_WriteFile f keyData 384) None :: tl)) as Hno.
  { intros tl Htl Hex. do 2 (apply Exists_cons in Hex as [Hex|Hex]; [by cbn in Hex|]).
    apply Exists_exists in Hex as (ev & Hin & Hev).
    by apply (proj1 (Forall_forall _ _) Htl ev Hin). }
  destruct (h _ (gpg_ValidatePGPKeys f) w3) as [[parsed [e|]] w4]; cbn;
    [|case_decide; cbn; [|destruct parsed as [|parsed0 parsed]; cbn]].
  all: split_and!; try done.
  all: try (intros ? [= <-]; by eexists).
  all: intros Hex; exfalso; revert Hex; apply Hno;
    repeat first [apply Forall_nil | apply Forall_cons_2; [cbn; tauto|]].
  all: exact I.
Qed.

(** X1: [validatePGPKey] removes the temporary file it creates, whatever the
    collaborators answer: the removed files are the created files; when no
    file was created the function has made one call; when a file was created
    its removal is the last call of the function, on every return path; and
    when the write fails the file is removed without having been closed. *)
Theorem validatePGPKey_removes_its_file keyData w :
  let tr := trace h (validatePGPKey keyData) w in
  omap removed tr = omap created tr ∧
  (omap created tr = [] → length tr = 1) ∧
  (∀ f, omap created tr = [f] → ∃ x, last tr = Some (Ev (os_Remove f) x)) ∧
  (Exists write_failed tr → omap closed tr = []).
Proof. apply validatePGPKey_files. Qed.

(** X2: when the validator answers without an error, [validatePGPKey] returns
    the key ID if the material holds exactly one key, and the error "More
    than one key found in input data" otherwise, also when it holds no key
    at all. *)
Theorem validatePGPKey_wants_one_key keyData w parsed :
  Exists (validator_answered (parsed, None)) (trace h (validatePGPKey keyData) w) →
  outcome h (validatePGPKey keyData) w
  = Done (match parsed with
          | [keyID] => (keyID, None)
          | _ => ("", Some (Errorf "More than one key found in input data"))
          end).
Proof.
  unfold validatePGPKey, trace, outcome. cbn.
  destruct (h _ (ioutil_TempFile "" "gpg-public-key") w) as [[f [e|]] w1]; cbn.
  { intros [?|[]%Exists_nil]%Exists_cons. done. }
  destruct (h _ (ioutil_WriteFile f keyData 384) w1) as [[e|] w2]; cbn.
  { intros Hex. repeat (apply Exists_cons in Hex as [Hex|Hex]; [by cbn in Hex|]).
    by apply Exists_nil in Hex. }
  destruct (h _ (File_Close f) w2) as [? w3]; cbn.
  destruct (h _ (gpg_ValidatePGPKeys f) w3) as [[parsed' err] w4]; cbn.
  intros Hex.
  assert ((parsed', err) = (parsed, None)) as [= -> ->].
  { do 3 (apply Exists_cons in Hex as [Hex|Hex]; [by cbn in Hex|]).
    apply Exists_cons in Hex as [Hex|Hex]; [exact Hex|].
    destruct err as [e|]; cbn in Hex.
    - repeat (apply Exists_cons in Hex as [Hex|Hex]; [by cbn in Hex|]).
      by apply Exists_nil in Hex.
    - case_decide; cbn in Hex; [|destruct parsed'; cbn in Hex].
      all: repeat (apply Exists_cons in Hex as [Hex|Hex]; [by cbn in Hex|]).
      all: by apply Exists_nil in Hex. }
  cbn. destruct parsed as [|keyID [|]]; cbn; try done.
  all: by destruct (h _ (os_Remove f) w4).
Qed.
End ValidateFacts.

Section InstalledFacts.
Import appsv1 db KeySpec KeyTrace.
Context `{gpg_pure} {W : Type} (h : Handler Call W).


End InstalledFacts.

Section SyncFacts.
Import appsv1 db KeySpec KeyTrace.
Context `{gpg_pure} {W : Type} (h : Handler Call W).

Lemma reads_no_mutation (tr : list (Event Call)) :
  Forall (EventIs reads) tr → Forall (EventIs no_mutation) tr.
Proof. intros Htr. eapply Forall_impl; [done|]. intros [X c x] (?&?&?). by split. Qed.

(** X4: an error of [SynchronizeGPGPublicKeys] means that nothing was changed:
    whatever the collaborators answer, a call that returns an error has
    attempted no import and no delete.  (The errors are those of the lock
    and of the two listings; from the first import on, failures are only
    logged.) *)
Theorem failed_sync_changes_nothing w e :
  outcome h SynchronizeGPGPublicKeys w = Done (Some e) →
  Forall (EventIs no_mutation) (trace h SynchronizeGPGPublicKeys w).
Proof.
  unfold SynchronizeGPGPublicKeys, outcome, trace. cbn.
  destruct (h _ (syncSemaphore_TryAcquire 1) w) as [[] w1]; cbn;
    [|intros _; by repeat constructor].
  rewrite run_defer. cbn.
  destruct (h _ (syncSemaphore_Release 1) _) as [[] w']. cbn.
  intros Hout. constructor; [done|]. apply Forall_app. split; [|by repeat constructor].
  revert Hout. unfold SynchronizeGPGPublicKeys_locked.
  rewrite run_mbind.
  pose proof (trace_CallsOnly h reads _ w1 ListConfiguredGPGPublicKeys_calls) as Htr1.
  apply reads_no_mutation in Htr1.
  destruct (outcome h ListConfiguredGPGPublicKeys w1) as [[configuredKeys [e1|]]|msg];
    cbn; [by rewrite app_nil_r|..|done].
  rewrite run_mbind.
  pose proof (trace_CallsOnly h reads _ (final h ListConfiguredGPGPublicKeys w1)
                ListInstalledGPGPublicKeys_calls) as Htr2.
  apply reads_no_mutation in Htr2.
  destruct (outcome h ListInstalledGPGPublicKeys _) as [[installedKeys [e2|]]|msg];
    cbn; [intros _; rewrite app_nil_r; by apply Forall_app|..|done].
  match goal with |- context [h ?X (range ?m) ?w] => destruct (h X (range m) w) as [entries w2] end.
  cbn. rewrite run_mbind.
  destruct (outcome h (SynchronizeGPGPublicKeys_import _ _) _) as [[]|]; cbn; [|done].
  match goal with |- context [h ?X (range ?m) ?w] => destruct (h X (range m) w) as [entries' w3] end.
  cbn. rewrite run_mbind.
  by destruct (outcome h (SynchronizeGPGPublicKeys_remove _ _) _) as [[]|].
Qed.

Lemma import_loop_attempts entries installedKeys : ∀ w,
  let tr := trace h (SynchronizeGPGPublicKeys_import entries installedKeys) w in
  (outcome h (SynchronizeGPGPublicKeys_import entries installedKeys) w = Done () →
   omap imported tr = (filter (λ kp, installedKeys !! kp.1 = None) entries).*2) ∧
  (∀ p, p ∈ omap imported tr → ∃ keyID, (keyID, p) ∈ entries ∧ installedKeys !! keyID = None) ∧
  omap deleted tr = [].
Proof.
  induction entries as [|[keyID keyData] entries IH]; intros w; unfold outcome, trace.
  { cbn. split_and!; [done| |done]. by intros p []%elem_of_nil. }
  assert (∀ w3, let r := run h (SynchronizeGPGPublicKeys_import entries installedKeys) w3 in
    (r.1.1 = Done () →
     omap imported r.1.2 = (filter (λ kp, installedKeys !! kp.1 = None) entries).*2) ∧
    (∀ p, p ∈ omap imported r.1.2 →
       ∃ k, (k, p) ∈ (keyID, keyData) :: entries ∧ installedKeys !! k = None) ∧
    omap deleted r.1.2 = []) as Hrest.
  { intros w3. destruct (IH w3) as (IH1 & IH2 & IH3). split_and!; [done| |done].
    intros p Hp. destruct (IH2 p Hp) as (k & ? & ?). exists k. split; [by right|done]. }
  clear IH. rewrite filter_cons. cbn -[filter].
  destruct (installedKeys !! keyID) eqn:Hinst; cbn -[filter].
  { rewrite decide_False by done. apply Hrest. }
  rewrite decide_True by done. cbn -[filter].
  assert (∀ w3, let r := run h (SynchronizeGPGPublicKeys_import entries installedKeys) w3 in
    (r.1.1 = Done () →
     keyData :: omap imported r.1.2
     = keyData :: (filter (λ kp, installedKeys !! kp.1 = None) entries).*2) ∧
    (∀ p, p ∈ keyData :: omap imported r.1.2 →
       ∃ k, (k, p) ∈ (keyID, keyData) :: entries ∧ installedKeys !! k = None) ∧
    omap deleted r.1.2 = []) as Hrest'.
  { intros w3. destruct (Hrest w3) as (H1 & H2 & H3). split_and!; [|
      intros p [->|Hp]%elem_of_cons; [exists keyID; split; [by left|done]|by apply H2]|done].
    intros Ho. by rewrite H1. }
  clear Hrest.
  destruct (h _ (log_Infof _) w) as [[] w1]. cbn -[filter].
  destruct (h _ (gpg_ImportPGPKeysFromString keyData) w1) as [[importedKeys [e|]] w2];
    cbn -[filter].
  - destruct (h _ (log_Warnf _) w2) as [[] w3]. cbn -[filter]. apply Hrest'.
  - destruct importedKeys as [|imported0 importedKeys]; cbn -[filter].
    + split_and!; [done| |done].
      intros p [->|[]%elem_of_nil]%elem_of_cons. exists keyID. split; [by left|done].
    + case_decide; cbn -[filter]; [|apply Hrest'].
      destruct (h _ (log_Warnf _) w2) as [[] w3]. cbn -[filter]. apply Hrest'.
Qed.

Lemma remove_loop_attempts entries configuredKeys : ∀ w,
  let tr := trace h (SynchronizeGPGPublicKeys_remove entries configuredKeys) w in
  outcome h (SynchronizeGPGPublicKeys_remove entries configuredKeys) w = Done () ∧
  omap checked tr = (filter (λ kv, configuredKeys !! kv.1 = None) entries).*1 ∧
  (∀ k, k ∈ omap deleted tr →
     k ∈ entries.*1 ∧ configuredKeys !! k = None ∧
     Exists (secret_check k (false, None)) tr) ∧
  omap imported tr = [].
Proof.
  induction entries as [|[keyID v] entries IH]; intros w; unfold outcome, trace.
  { cbn. split_and!; [done..| |done]. by intros p []%elem_of_nil. }
  assert (∀ w3 (pre : list (Event Call)),
    let r := run h (SynchronizeGPGPublicKeys_remove entries configuredKeys) w3 in
    r.1.1 = Done () ∧
    omap checked r.1.2 = (filter (λ kv, configuredKeys !! kv.1 = None) entries).*1 ∧
    (∀ k, k ∈ omap deleted r.1.2 →
       k ∈ ((keyID, v) :: entries).*1 ∧ configuredKeys !! k = None ∧
       Exists (secret_check k (false, None)) (pre ++ r.1.2)) ∧
    omap imported r.1.2 = []) as Hrest.
  { intros w3 pre. destruct (IH w3) as (IH1 & IH2 & IH3 & IH4). split_and!; [done..| |done].
    intros k Hk. destruct (IH3 k Hk) as (? & ? & ?).
    split_and!; [by right|done|]. apply Exists_app. by right. }
  clear IH. rewrite filter_cons. cbn -[filter].
  destruct (configuredKeys !! keyID) eqn:Hcfg; cbn -[filter].
  { rewrite decide_False by done. apply (Hrest w []). }
  rewrite decide_True by done. cbn -[filter].
  destruct (h _ (gpg_IsSecretKey keyID) w) as [[isSecret [e|]] w1]; cbn -[filter].
  - destruct (h _ (log_Warnf _) w1) as [[] w2]. cbn -[filter].
    destruct (Hrest w2 [Ev (gpg_IsSecretKey keyID) (isSecret, Some e);
                        Ev (log_Warnf ("Error figuring out private key status for key ID "
                                        +:+ keyID +:+ ": " +:+ Error e)) ()])
      as (H1 & H2 & H3 & H4).
    cbn in *. split_and!; [done|by rewrite H2|done|done].
  - destruct isSecret; cbn -[filter].
    + destruct (Hrest w1 [Ev (gpg_IsSecretKey keyID) (true, None)]) as (H1 & H2 & H3 & H4).
      cbn in *. split_and!; [done|by rewrite H2|done|done].
    + destruct (h _ (log_Infof _) w1) as [[] w2]. cbn -[filter].
      destruct (h _ (gpg_DeletePGPKey keyID) w2) as [[e|] w3]; cbn -[filter].
      * destruct (h _ (log_Warnf _) w3) as [[] w4]. cbn -[filter].
        destruct (Hrest w4
          [Ev (gpg_IsSecretKey keyID) (false, None);
           Ev (log_Infof ("Removing key ID '" +:+ keyID +:+ "' from GnuPG's keyring")) ();
           Ev (gpg_DeletePGPKey keyID) (Some e);
           Ev (log_Warnf ("Could not delete key with key ID '" +:+ keyID
                           +:+ "': " +:+ Error e)) ()]) as (H1 & H2 & H3 & H4).
        cbn in *. split_and!; [done|by rewrite H2| |done].
        intros k [->|Hk]%elem_of_cons; [|by apply H3].
        split_and!; [by left|done|by apply Exists_cons_hd].
      * destruct (Hrest w3
          [Ev (gpg_IsSecretKey keyID) (false, None);
           Ev (log_Infof ("Removing key ID '" +:+ keyID +:+ "' from GnuPG's keyring")) ();
           Ev (gpg_DeletePGPKey keyID) None]) as (H1 & H2 & H3 & H4).
        cbn in *. split_and!; [done|by rewrite H2| |done].
        intros k [->|Hk]%elem_of_cons; [|by apply H3].
        split_and!; [by left|done|by apply Exists_cons_hd].
Qed.

(** X5: the two loops of [SynchronizeGPGPublicKeys] are best effort, whatever
    the collaborators answer.  The import loop attempts, in the order of the
    loop, the import of every configured key that is not installed, also
    after an import has failed (it stops only by the panic on an import that
    reports success and no key); it deletes nothing.  The removal loop never
    fails: it checks every installed key that is not configured, also after
    a check or a delete has failed, it deletes a key only when the check of
    this key has just answered "not secret" without an error, and it imports
    nothing. *)
Theorem sync_loops_are_best_effort entries1 entries2 installedKeys configuredKeys w1 w2 :
  let import := SynchronizeGPGPublicKeys_import entries1 installedKeys in
  let remove := SynchronizeGPGPublicKeys_remove entries2 configuredKeys in
  ((outcome h import w1 = Done () →
    omap imported (trace h import w1)
    = (filter (λ kp, installedKeys !! kp.1 = None) entries1).*2) ∧
   omap deleted (trace h import w1) = []) ∧
  (outcome h remove w2 = Done () ∧
   omap checked (trace h remove w2)
   = (filter (λ kv, configuredKeys !! kv.1 = None) entries2).*1 ∧
   (∀ k, k ∈ omap deleted (trace h remove w2) →
      Exists (secret_check k (false, None)) (trace h remove w2)) ∧
   omap imported (trace h remove w2) = []).
Proof.
  intros import remove. split.
  - destruct (import_loop_attempts entries1 installedKeys w1) as (H1 & _ & H3). done.
  - destruct (remove_loop_attempts entries2 configuredKeys w2) as (H1 & H2 & H3 & H4).
    split_and!; [done..| |done]. intros k Hk. by apply H3.
Qed.
End SyncFacts.

Section RingFacts.
Import appsv1 db Keyring KeySpec KeyTrace.
Context `{gpg_pure} (env : Env).
Local Abbreviation h := (Keyring.handle env).

Lemma reads_attempt_nothing (tr : list (Event Call)) :
  Forall (EventIs reads) tr → omap imported tr = [] ∧ omap deleted tr = [].
Proof.
  induction 1 as [|[X c x] tr (Hsem & Himp & Hdel) Htr [IH1 IH2]]; [done|].
  cbn. rewrite IH1, IH2. by destruct c.
Qed.

(** X6: at the reference key ring, [SynchronizeGPGPublicKeys] touches only the
    difference between the declared keys and the installed public keys: the
    material it tries to import is that of a declared key whose ID is not
    the ID of an installed public key, and a key it tries to delete is an
    installed public key that is not declared. *)
Theorem sync_touches_only_the_difference w data :
  OrderLaw env → config w = Some data →
  let tr := trace h SynchronizeGPGPublicKeys w in
  (∀ p, p ∈ omap imported tr →
     ∃ k, data !! k = Some p ∧ gpg_KeyID k ∉ public_keys w) ∧
  (∀ keyID, keyID ∈ omap deleted tr →
     keyID ∈ public_keys w ∧ keyID ∉ declared_keys data).
Proof.
  intros Horder Hdata. unfold trace. rewrite Sync_run.
  case_decide as Hsem; cbn; [|split; by intros ? []%elem_of_nil].
  set (w1 := set_sem (λ cur, (cur + 1)%Z) w).
  assert (config w1 = Some data) as Hdata1 by done.
  rewrite !omap_app. cbn. rewrite !app_nil_r.
  assert ((∃ e, outcome h SynchronizeGPGPublicKeys_locked w1 = Done (Some e)) ∧
          Forall (EventIs reads) (trace h SynchronizeGPGPublicKeys_locked w1) ∧
          same_ring w1 (final h SynchronizeGPGPublicKeys_locked w1) ∨
          Forall (λ kp, Accepted env kp.1 kp.2) (order env _ (map_to_list data)))
    as [(_ & Htr & _)|Hacc].
  { destruct (Forall_or_Exists env (order env _ (map_to_list data))) as [Hacc|Hrej];
      [by right|left]. by apply (locked_rejected env w1 data). }
  { apply reads_attempt_nothing in Htr as [Htr1 Htr2]. unfold trace in *.
    rewrite Htr1, Htr2. split; by intros ? []%elem_of_nil. }
  destruct (locked_run env w1 data Hdata1 Hacc)
    as [(_ & Htr & _)|(installedKeys & tr & w2 & Hlocked)].
  { apply reads_attempt_nothing in Htr as [Htr1 Htr2]. unfold trace in *.
    rewrite Htr1, Htr2. split; by intros ? []%elem_of_nil. }
  cbn zeta in Hlocked. destruct Hlocked as (Htr & Hw2 & Hinst & Hrun).
  set (configuredKeys := declared (order env _ (map_to_list data)) ∅) in *.
  set (entries1 := order env _ (map_to_list configuredKeys)) in *.
  set (entries2 := order env _ (map_to_list installedKeys)) in *.
  change (keyring w1) with (keyring w) in Hinst.
  apply reads_attempt_nothing in Htr as [Htr1 Htr2].
  destruct (import_loop_attempts (Keyring.handle env) entries1 installedKeys w2)
    as (_ & Himp & Himp').
  destruct (remove_loop_attempts (Keyring.handle env) entries2 configuredKeys
              (final h (SynchronizeGPGPublicKeys_import entries1 installedKeys) w2))
    as (_ & _ & Hrem & Hrem').
  assert (∀ p, p ∈ omap imported
                     (trace h (SynchronizeGPGPublicKeys_import entries1 installedKeys) w2) →
            ∃ k, data !! k = Some p ∧ gpg_KeyID k ∉ public_keys w) as Himports.
  { intros p Hp. destruct (Himp p Hp) as (keyID & Hin & Hnone).
    unfold entries1 in Hin. rewrite (Horder _ (map_to_list configuredKeys)) in Hin.
    apply elem_of_map_to_list, declared_lookup in Hin as [?|(k & Hin & <-)]; [done|].
    exists k. split.
    - rewrite (Horder _ (map_to_list data)) in Hin. by apply elem_of_map_to_list in Hin.
    - rewrite public_keys_lookup, <-Hinst, Hnone. by intros []%is_Some_None. }
  assert (∀ keyID, keyID ∈ omap deleted
                     (trace h (SynchronizeGPGPublicKeys_remove entries2 configuredKeys)
                        (final h (SynchronizeGPGPublicKeys_import entries1 installedKeys) w2)) →
            keyID ∈ public_keys w ∧ keyID ∉ declared_keys data) as Hdeletes.
  { intros keyID Hk. destruct (Hrem keyID Hk) as (Hin & Hnone & _). split.
    - apply public_keys_lookup, Hinst. unfold entries2 in Hin. by apply range_keys in Hin.
    - rewrite <-(declared_dom env data keyID Horder). fold configuredKeys.
      rewrite Hnone. by intros []%is_Some_None. }
  rewrite Hrun. unfold outcome, trace, final in *.
  destruct (run h (SynchronizeGPGPublicKeys_import _ _) w2).1.1 as [[]|msg]; cbn.
  - rewrite !omap_app. cbn. rewrite !omap_app. cbn.
    rewrite Htr1, Htr2, Himp', Hrem'. cbn. rewrite app_nil_r. done.
  - rewrite !omap_app. cbn. rewrite Htr1, Htr2, Himp'. cbn. split; [done|].
    by intros ? []%elem_of_nil.
Qed.

Lemma never_a_new_secret {A} (p : Prog Call A) w keyID :
  keyring (final h p w) !! keyID = Some true → keyring w !! keyID = Some true.
Proof.
  revert w. induction p as [a|msg|X c k IH]; intros w; [done..|].
  unfold final. cbn. intros Hfin. apply IH in Hfin. revert Hfin.
  destruct c; cbn; try done.
  - by case_decide.
  - destruct (config w); [case_decide|]; done.
  - destruct (files w !! keyFile); [destruct (parse env _)|]; done.
  - by destruct (fails env (tick w)).
  - by destruct (fails env (tick w)).
  - destruct (fails env (tick w)); [done|]. destruct (parse env keyData) as [ids|]; [|done].
    cbn. generalize (keyring w). induction ids as [|id ids IHids]; intros kr; [done|].
    cbn. intros Hkr%IHids. rewrite install_lookup in Hkr.
    destruct (kr !! keyID); [done|]. by case_decide.
  - destruct (fails env (tick w)); [done|]. cbn.
    destruct (decide (keyID = keyID0)) as [->|Hne].
    + by rewrite lookup_delete_eq.
    + by rewrite lookup_delete_ne.
Qed.

(** X7: at the reference key ring, [SynchronizeGPGPublicKeys] leaves the
    secret keys as they are, whatever is declared and whatever fails: the
    secret keys after the call are the secret keys before it. *)
Theorem sync_keeps_the_secret_keys w :
  secret_keys (final h SynchronizeGPGPublicKeys w) = secret_keys w.
Proof.
  apply set_eq. intros keyID. rewrite !secret_keys_lookup. split.
  - apply never_a_new_secret.
  - intros Hsecret.
    assert (Safe h (λ w keyID, keyring w !! keyID = Some true) keyID
              SynchronizeGPGPublicKeys) as Hsafe; [|by apply Hsafe].
    pose proof (Keyring_keeps_secrets env) as keeper.
    unfold SynchronizeGPGPublicKeys.
    apply Safe_mbind; [by apply Safe_CallsOnly; [|apply CallsOnly_call]|].
    intros []; cbn; [|by apply Safe_CallsOnly; [|constructor]].
    apply Safe_defer; [by apply Safe_CallsOnly; [|apply CallsOnly_call]|].
    by apply Safe_locked.
Qed.
End RingFacts.

Section ConfiguredFiles.
Import appsv1 db KeySpec KeyTrace.
Context `{gpg_pure} {W : Type} (h : Handler Call W).

Lemma ListConfigured_loop_files entries : ∀ result w,
  omap removed (trace h (ListConfiguredGPGPublicKeys_loop entries result) w)
  = omap created (trace h (ListConfiguredGPGPublicKeys_loop entries result) w).
Proof.
  induction entries as [|[k p] entries IH]; intros result w; [done|].
  cbn. case_decide; [|done].
  rewrite trace_mbind, !omap_app.
  destruct (validatePGPKey_files h p w) as [-> _]. f_equal.
  destruct (outcome h (validatePGPKey p) w) as [[parsedKeyID [e|]]|msg]; [done| |done].
  case_decide; [done|]. apply IH.
Qed.

Lemma ListConfigured_files w :
  omap removed (trace h ListConfiguredGPGPublicKeys w)
  = omap created (trace h ListConfiguredGPGPublicKeys w).
Proof.
  unfold ListConfiguredGPGPublicKeys, trace. cbn.
  destruct (h _ (log_Debugf _) w) as [[] w1]. cbn.
  destruct (h _ (settingsMgr_GetConfigMapByName _) w1) as [[keysCM [e|]] w2]; cbn; [done|].
  destruct keysCM as [keysCM|]; cbn; [|done].
  destruct (h _ (range _) w2) as [entries w3]. cbn.
  apply ListConfigured_loop_files.
Qed.
End ConfiguredFiles.

Section InitFacts.
Import appsv1 db Lift gpgkeys.
Context `{gpg_pure} {W : Type} (h : Handler Call W).

Lemma cleanup_created (tr : list (Event Call)) :
  omap cleanup tr = [] → omap removed tr = [].
Proof.
  induction tr as [|ev tr IH]; [done|]. cbn. unfold cleanup, removed.
  destruct (file_op ev) as [[]|]; cbn; try done; auto.
Qed.

Lemma InitializeGPGKeyRing_loop_files entries : ∀ importedKeys w,
  ∃ body tail,
    trace h (InitializeGPGKeyRing_loop entries importedKeys) w = body ++ tail ∧
    omap cleanup body = [] ∧
    omap created tail = [] ∧
    length (omap cleanup tail) = length tail ∧
    omap cleanup tail
    = flat_map (λ f, [Closed f; Removed f]) (reverse (omap created body)).
Proof.
  induction entries as [|[k key] entries IH]; intros importedKeys w.
  { by exists [], []. }
  unfold trace. cbn -[defer].
  destruct (h _ (base (ioutil_TempFile "" "gpg-import-key")) w) as [[f [e|]] w1]; cbn -[defer].
  { match goal with |- ∃ body tail, ?l = _ ∧ _ => by exists l, [] end. }
  rewrite !run_defer.
  match goal with |- context [run h ?p w1] =>
    assert (∃ body tail,
      (run h p w1).1.2 = body ++ tail ∧
      omap cleanup body = [] ∧ omap created tail = [] ∧
      length (omap cleanup tail) = length tail ∧
      omap cleanup tail
      = flat_map (λ f, [Closed f; Removed f]) (reverse (omap created body)))
      as (body & tail & Htr & Hbody & Htail1 & Htail2 & Htail3);
    [|destruct (run h p w1) as [[o tr] w']]
  end.
  { cbn.
    destruct (h _ (File_WriteString f key) w1) as [[n [e|]] w2]; cbn.
    { match goal with |- ∃ body tail, ?l = _ ∧ _ => by exists l, [] end. }
    destruct (h _ (gpg_ImportPGPKeys f) w2) as [[keys [e|]] w3]; cbn.
    { match goal with |- ∃ body tail, ?l = _ ∧ _ => by exists l, [] end. }
    case_decide; cbn.
    { match goal with |- ∃ body tail, ?l = _ ∧ _ => by exists l, [] end. }
    destruct keys as [|keys0 keys]; cbn.
    { match goal with |- ∃ body tail, ?l = _ ∧ _ => by exists l, [] end. }
    destruct (h _ (base (log_Infof _)) w3) as [[] w4]. cbn.
    destruct (IH (<[KeyID keys0 := keys0]> importedKeys) w4)
      as (body & tail & Htr & Hbody & Htail1 & Htail2 & Htail3).
    unfold trace in Htr. rewrite Htr.
    match goal with |- ∃ body' tail', ?a :: ?b :: ?c :: _ = _ ∧ _ =>
      by exists (a :: b :: c :: body), tail end. }
  cbn in *. subst tr.
  destruct (h _ (base (File_Close f)) w') as [x1 w5]. cbn.
  destruct (h _ (base (os_Remove f)) w5) as [x2 w6]. cbn.
  exists (Ev (base (ioutil_TempFile "" "gpg-import-key")) (f, None) :: body),
         (tail ++ [Ev (base (File_Close f)) x1; Ev (base (os_Remove f)) x2]).
  split_and!.
  - by rewrite <-!app_assoc.
  - done.
  - rewrite omap_app, Htail1. done.
  - rewrite omap_app, !length_app, Htail2. done.
  - rewrite omap_app, Htail3.
    change (omap created (Ev (base (ioutil_TempFile "" "gpg-import-key")) (f, None) :: body))
      with (f :: omap created body).
    by rewrite reverse_cons, flat_map_app.
Qed.

Lemma removed_lift (tr : list (Event db.Call)) :
  omap removed (lift_event (@base) <$> tr) = omap KeyTrace.removed tr.
Proof.
  induction tr as [|[X c x] tr IH]; [done|]. cbn. rewrite IH.
  unfold removed, file_op. cbn. destruct c; try done. by destruct x as [? []].
Qed.

Lemma created_lift (tr : list (Event db.Call)) :
  omap created (lift_event (@base) <$> tr) = omap KeyTrace.created tr.
Proof.
  induction tr as [|[X c x] tr IH]; [done|]. cbn. rewrite IH.
  unfold created, file_op. cbn. destruct c; try done. by destruct x as [? []].
Qed.

Lemma removed_cleanup (tr : list (Event Call)) :
  omap removed tr
  = omap (λ op, match op with Removed f => Some f | _ => None end) (omap cleanup tr).
Proof.
  induction tr as [|ev tr IH]; [done|]. cbn. rewrite IH. unfold removed, cleanup.
  by destruct (file_op ev) as [[]|].
Qed.

Lemma removed_flat_map (l : list string) :
  omap (λ op, match op with Removed f => Some f | _ => None end)
    (flat_map (λ f, [Closed f; Removed f]) l) = l.
Proof. induction l as [|f l IH]; [done|]. cbn. by rewrite IH. Qed.

(** X8: [InitializeGPGKeyRing] leaves no temporary file behind, whatever the
    collaborators answer and wherever it returns: the files it removes are,
    up to their order, the files it has created.  In its import loop the
    clean-up comes last: after the last import every file the loop has
    created is closed and then removed, the file created last first. *)
Theorem InitializeGPGKeyRing_removes_its_files w :
  omap removed (trace h InitializeGPGKeyRing w)
    ≡ₚ omap created (trace h InitializeGPGKeyRing w) ∧
  ∀ entries importedKeys w, ∃ body tail,
    trace h (InitializeGPGKeyRing_loop entries importedKeys) w = body ++ tail ∧
    omap cleanup body = [] ∧
    length (omap cleanup tail) = length tail ∧
    omap cleanup tail
    = flat_map (λ f, [Closed f; Removed f]) (reverse (omap created body)).
Proof.
  split.
  - unfold InitializeGPGKeyRing, trace. cbn.
    destruct (h _ gpg_InitializeGnuPG w) as [[e|] w1]; cbn; [done|].
    rewrite run_mbind. unfold outcome, trace, final. rewrite !run_lift. cbn.
    pose proof (ListConfigured_files (lower (@base) h) w1) as Hfiles.
    unfold trace in Hfiles.
    destruct (run (lower (@base) h) ListConfiguredGPGPublicKeys w1)
      as [[[[configuredKeys [e|]]|msg] tr1] w2]; cbn in *.
    + by rewrite app_nil_r, removed_lift, created_lift, Hfiles.
    + destruct (h _ (base (range (gomap configuredKeys))) w2) as [entries w3]. cbn.
      destruct (InitializeGPGKeyRing_loop_files entries ∅ w3)
        as (body & tail & Htr & Hbody & Htail1 & Htail2 & Htail3).
      unfold trace in Htr. rewrite Htr.
      rewrite !omap_app, removed_lift, created_lift, Hfiles. cbn. rewrite !omap_app.
      rewrite Htail1, app_nil_r, (cleanup_created body Hbody). cbn.
      rewrite (removed_cleanup tail), Htail3, removed_flat_map.
      by rewrite reverse_Permutation.
    + by rewrite removed_lift, created_lift, Hfiles.
  - intros entries importedKeys w0.
    destruct (InitializeGPGKeyRing_loop_files entries importedKeys w0)
      as (body & tail & ? & ? & ? & ? & ?).
    by exists body, tail.
Qed.

End InitFacts.

Section InitResult.
Import appsv1 db Lift gpgkeys.
Context `{gpg_pure} {W : Type} (h : Handler Call W).


Lemma InitializeGPGKeyRing_loop_calls entries : ∀ importedKeys,
  CallsOnly unlocked (InitializeGPGKeyRing_loop entries importedKeys).
Proof.
  induction entries as [|[k key] entries IH]; intros importedKeys; calls_only.
Qed.

(** X10: [InitializeGPGKeyRing] starts with [gpg.InitializeGnuPG] and, when
    this fails, returns its error without any other call.  It runs outside
    the lock of [SynchronizeGPGPublicKeys] and only adds to the key ring: it
    makes no call on the semaphore and deletes no key. *)
Theorem InitializeGPGKeyRing_takes_no_lock :
  CallsOnly unlocked InitializeGPGKeyRing ∧
  ∀ w e, (h _ gpg_InitializeGnuPG w).1 = Some e →
    run h InitializeGPGKeyRing w
    = (Done (None, Some e), [Ev gpg_InitializeGnuPG (Some e)], (h _ gpg_InitializeGnuPG w).2).
Proof.
  split.
  - unfold InitializeGPGKeyRing. cbn. constructor; [done|]. intros [e|]; [constructor|].
    apply CallsOnly_mbind.
    { apply CallsOnly_lift. eapply CallsOnly_mono; [|apply ListConfiguredGPGPublicKeys_calls].
      by intros X c (?&?&?). }
    intros [configuredKeys [e|]]; [constructor|]. cbn.
    constructor; [done|]. intros entries. apply InitializeGPGKeyRing_loop_calls.
  - intros w e He. unfold InitializeGPGKeyRing. cbn.
    destruct (h _ gpg_InitializeGnuPG w) as [x w1]. cbn in *. by subst x.
Qed.
End InitResult.

Section ListFacts.
Import appsv1 repositorypkg repository Spec ServiceTrace.
Context (claims : string) {W : Type} (h : Handler Call W).

Lemma ListRepositoryCredentials_loop_spec (allowed : string → bool) urls :
  (∀ url w,
     (h _ (enf_Enforce claims ResourceRepositories ActionGet url) w).1 = allowed url) →
  ∀ items w items',
  outcome h (server.ListRepositoryCredentials_loop claims urls items) w = Done (inl items') →
  Repo <$> items' = (Repo <$> items) ++ List.filter allowed urls ∧
  (Forall only_username items → Forall only_username items').
Proof.
  intros Hallowed. induction urls as [|url urls IH]; intros items w items'.
  - unfold outcome. cbn. intros [= <-]. by rewrite app_nil_r.
  - unfold outcome. cbn. specialize (Hallowed url w).
    destruct (h bool _ w) as [b w1]. cbn in *. subst b.
    destruct (allowed url) eqn:Hurl; cbn.
    + destruct (h _ (db_GetRepositoryCredentials url) w1) as [[repo [e|]] w2]; cbn; [done|].
      destruct repo as [repo|]; cbn; [|done].
      intros Hout. apply IH in Hout as [Hout1 Hout2]. split.
      * rewrite Hout1, fmap_app. cbn. by rewrite <-app_assoc.
      * intros Hitems. apply Hout2. apply Forall_app. split; [done|].
        by apply Forall_singleton.
    + apply IH.
Qed.

Lemma ListRepositoryCredentials_loop_calls urls : ∀ items,
  CallsOnly reads_credentials (server.ListRepositoryCredentials_loop claims urls items).
Proof. induction urls as [|url urls IH]; intros items; calls_only. Qed.

(** X11: [ListRepositoryCredentials] filters like [ListRepositories], and gives
    away no more than the user names.  With an enforcer that follows the
    policy [allowed], a list that is returned holds, in order, one record for
    each listed URL the policy allows, and this record holds the URL and the
    user name and nothing else.  Whatever the collaborators answer, the
    function asks the enforcer and reads the credential sets, and makes no
    other call: it tests no connection and writes nothing. *)
Theorem ListRepositoryCredentials_gives_only_user_names (allowed : string → bool) q w :
  (∀ url w,
     (h _ (enf_Enforce claims ResourceRepositories ActionGet url) w).1 = allowed url) →
  (∀ items err,
     outcome h (server.ListRepositoryCredentials claims q) w = Done (Some items, err) →
     err = None ∧
     Repo <$> items = List.filter allowed (h _ db_ListRepositoryCredentials w).1.1 ∧
     Forall only_username items) ∧
  CallsOnly reads_credentials (server.ListRepositoryCredentials claims q).
Proof.
  intros Hallowed. split.
  - intros items err. unfold server.ListRepositoryCredentials, outcome. cbn.
    destruct (h _ db_ListRepositoryCredentials w) as [[urls [e|]] w1]; cbn; [done|].
    rewrite run_mbind.
    pose proof (ListRepositoryCredentials_loop_spec allowed urls Hallowed [] w1) as Hloop.
    destruct (outcome h (server.ListRepositoryCredentials_loop claims urls []) w1)
      as [[items'|e]|msg]; cbn; [|done..].
    intros [= <- <-]. destruct (Hloop items' eq_refl) as [H1 H2].
    split_and!; [done|done|by apply H2].
  - unfold server.ListRepositoryCredentials. calls_only. apply ListRepositoryCredentials_loop_calls.
Qed.

Lemma ListRepositories_loop_no_secret urls : ∀ items w items',
  outcome h (ListRepositories_loop claims urls items) w = Done (inl items') →
  Forall no_secret items → Forall no_secret items'.
Proof.
  induction urls as [|url urls IH]; intros items w items'.
  - unfold outcome. cbn. by intros [= <-].
  - unfold outcome. cbn.
    destruct (h bool _ w) as [[] w1]; cbn; [|apply IH].
    destruct (h _ (db_GetRepository url) w1) as [[repo [e|]] w2]; cbn; [done|].
    destruct repo as [repo|]; cbn; [|done].
    intros Hout Hitems. apply (IH _ _ _ Hout). apply Forall_app. split; [done|].
    by apply Forall_singleton.
Qed.

Lemma ListRepositories_states_no_secret force items : ∀ done w res,
  outcome h (ListRepositories_states items done force) w = Done res →
  Forall no_secret items → Forall no_secret done → Forall no_secret res.
Proof.
  induction items as [|item items IH]; intros done w res.
  - unfold outcome. cbn. by intros [= <-].
  - cbn. rewrite outcome_mbind.
    destruct (outcome h (getConnectionState (Repo item) force) w) as [state|]; [|done].
    intros Hres [Hitem Hitems]%Forall_cons Hdone. apply (IH _ _ _ Hres Hitems).
    apply Forall_app. split; [done|]. by apply Forall_singleton.
Qed.

(** X12: [ListRepositories] gives away no secret, whatever the storage holds
    and whatever the collaborators answer: no record of a list it returns
    carries a password, an SSH private key or a TLS client certificate. *)
Theorem ListRepositories_gives_no_secret q w items err :
  outcome h (ListRepositories claims q) w = Done (Some items, err) →
  Forall no_secret items.
Proof.
  unfold ListRepositories, outcome. cbn.
  destruct (h _ db_ListRepoURLs w) as [[urls [e|]] w1]; cbn; [done|].
  rewrite run_mbind.
  pose proof (ListRepositories_loop_no_secret urls [] w1) as Hloop.
  destruct (outcome h (ListRepositories_loop claims urls []) w1)
    as [[items'|e]|msg]; cbn; [|done..].
  rewrite run_mbind.
  pose proof (ListRepositories_states_no_secret (Query_ForceRefresh q) items' []
                (final h (ListRepositories_loop claims urls []) w1)) as Hstates.
  destruct (outcome h (ListRepositories_states items' [] _) _) as [res|msg]; cbn; [|done].
  intros [= <- <-]. apply (Hstates res eq_refl); [|done]. by apply (Hloop items' eq_refl).
Qed.
End ListFacts.

Section ProbeFacts.
Import appsv1 repositorypkg repository Spec ServiceTrace.
Context (claims : string) {W : Type} (h : Handler Call W).

Lemma getConnectionState_connect_cache url w :
  match outcome h (getConnectionState_connect url) w with
  | Done state =>
    omap (cached url) (trace h (getConnectionState_connect url) w) = [Some state]
  | Panicked _ => True
  end ∧
  Forall (EventIs (λ X c, ¬ reads_cache X c ∧ touches (λ url', url' = url) X c))
    (trace h (getConnectionState_connect url) w).
Proof.
  unfold getConnectionState_connect, outcome, trace. cbn.
  destruct (h _ metav1_Now w) as [now w1]. cbn.
  destruct (h _ (db_GetRepository url) w1) as [[repo [e|]] w2]; cbn.
  - destruct (h _ (cache_SetRepoConnectionState url _) w2) as [[e'|] w3]; cbn.
    + destruct (h _ (log_Warnf _) w3) as [[] w4]. cbn. rewrite decide_True by done.
      split; [done|]. repeat (apply Forall_cons_2; [by cbn; auto|]). done.
    + rewrite decide_True by done.
      split; [done|]. repeat (apply Forall_cons_2; [by cbn; auto|]). done.
  - destruct repo as [repo|]; cbn.
    2:{ split; [done|]. repeat (apply Forall_cons_2; [by cbn; auto|]). done. }
    destruct (h _ (git_TestRepo _ _ _ _) w2) as [err w3]. cbn.
    destruct (h _ (cache_SetRepoConnectionState url _) w3) as [[e'|] w4]; cbn.
    + destruct (h _ (log_Warnf _) w4) as [[] w5]. cbn. rewrite decide_True by done.
      split; [by destruct err|]. repeat (apply Forall_cons_2; [by cbn; auto|]). done.
    + rewrite decide_True by done.
      split; [by destruct err|]. repeat (apply Forall_cons_2; [by cbn; auto|]). done.
Qed.

(** X14: the cache of [getConnectionState].  Without a forced refresh, a state
    the cache holds is returned as it is, and the look-up in the cache is the
    only call: nothing is tested.  With a forced refresh the cache is never
    read.  And whenever the function connects and returns a state, it has
    written this very state to the cache, for this URL, exactly once,
    whether or not the write succeeded. *)
Theorem getConnectionState_cache url w :
  (∀ state,
     (h _ (cache_GetRepoConnectionState url) w).1 = (state, None) →
     run h (getConnectionState url false) w
     = (Done state, [Ev (cache_GetRepoConnectionState url) (state, None)],
        (h _ (cache_GetRepoConnectionState url) w).2)) ∧
  Forall (EventIs (λ X c, ¬ reads_cache X c)) (trace h (getConnectionState url true) w) ∧
  (∀ forceRefresh state w',
     probing h url forceRefresh w = Some w' →
     outcome h (getConnectionState url forceRefresh) w = Done state →
     omap (cached url) (trace h (getConnectionState url forceRefresh) w) = [Some state]).
Proof.
  split_and!.
  - intros state Hcache. unfold getConnectionState. cbn.
    destruct (h _ (cache_GetRepoConnectionState url) w) as [[state' err] w1].
    cbn in *. by simplify_eq.
  - change (getConnectionState url true) with (getConnectionState_connect url).
    destruct (getConnectionState_connect_cache url w) as [_ Htr].
    eapply Forall_impl; [done|]. by intros [X c x] [? _].
  - intros forceRefresh state w' Hprobing.
    unfold probing in Hprobing. destruct forceRefresh.
    + change (getConnectionState url true) with (getConnectionState_connect url).
      destruct (getConnectionState_connect_cache url w) as [Hout _].
      intros Hstate. by rewrite Hstate in Hout.
    + unfold getConnectionState, outcome, trace. cbn -[getConnectionState_connect] in *.
      destruct (h _ (cache_GetRepoConnectionState url) w) as [[state' [e|]] w1];
        cbn -[getConnectionState_connect] in *; [|done].
      destruct (getConnectionState_connect_cache url w1) as [Hout _].
      unfold outcome, trace in Hout. intros Hstate. by rewrite Hstate in Hout.
Qed.

Lemma getConnectionState_touches url force w :
  Forall (EventIs (touches (λ url', url' = url))) (trace h (getConnectionState url force) w).
Proof.
  assert (∀ w, Forall (EventIs (touches (λ url', url' = url)))
                 (trace h (getConnectionState_connect url) w)) as Hconnect.
  { intros w0. destruct (getConnectionState_connect_cache url w0) as [_ Htr].
    eapply Forall_impl; [done|]. by intros [X c x] [_ ?]. }
  destruct force; [apply Hconnect|].
  unfold getConnectionState, trace. cbn -[getConnectionState_connect].
  destruct (h _ (cache_GetRepoConnectionState url) w) as [[state [e|]] w1];
    cbn -[getConnectionState_connect].
  - apply Forall_cons_2; [done|]. apply Hconnect.
  - by apply Forall_cons_2.
Qed.

Lemma ListRepositories_loop_touches (allowed : string → bool) urls :
  (∀ url w,
     (h _ (enf_Enforce claims ResourceRepositories ActionGet url) w).1 = allowed url) →
  ∀ items w,
  Forall (EventIs (touches (λ url, allowed url = true)))
    (trace h (ListRepositories_loop claims urls items) w).
Proof.
  intros Hallowed. induction urls as [|url urls IH]; intros items w; [constructor|].
  unfold trace. cbn. specialize (Hallowed url w).
  destruct (h bool _ w) as [b w1]. cbn in *. subst b.
  apply Forall_cons_2; [done|].
  destruct (allowed url) eqn:Hurl; cbn; [|apply IH].
  destruct (h _ (db_GetRepository url) w1) as [[repo [e|]] w2]; cbn.
  - by apply Forall_cons_2.
  - apply Forall_cons_2; [done|]. destruct repo as [repo|]; cbn; [apply IH|done].
Qed.

Lemma ListRepositories_states_touches (P : string → Prop) force items : ∀ done w,
  Forall (λ item, P (Repo item)) items →
  Forall (EventIs (touches P)) (trace h (ListRepositories_states items done force) w).
Proof.
  induction items as [|item items IH]; intros done w Hitems; [constructor|].
  cbn. rewrite trace_mbind. apply Forall_cons in Hitems as [Hitem Hitems].
  apply Forall_app. split.
  - eapply Forall_impl; [apply getConnectionState_touches|].
    intros [X c x]. unfold EventIs, touches. destruct (touched c); [by intros ->|done].
  - destruct (outcome h _ w); [by apply IH|constructor].
Qed.

(** X13: [ListRepositories] leaves alone the repositories the subject may not
    see.  With an enforcer that follows the policy [allowed], whatever the
    other collaborators answer, every URL whose record the function looks up
    in the storage, or whose cached connection state it reads or writes, is
    a URL the policy allows. *)
Theorem ListRepositories_skips_what_is_denied (allowed : string → bool) q w :
  (∀ url w,
     (h _ (enf_Enforce claims ResourceRepositories ActionGet url) w).1 = allowed url) →
  Forall (EventIs (touches (λ url, allowed url = true)))
    (trace h (ListRepositories claims q) w).
Proof.
  intros Hallowed. unfold ListRepositories, trace. cbn.
  destruct (h _ db_ListRepoURLs w) as [[urls [e|]] w1]; cbn; [by apply Forall_cons_2|].
  apply Forall_cons_2; [done|]. rewrite run_mbind.
  pose proof (ListRepositories_loop_touches allowed urls Hallowed [] w1) as Htr.
  pose proof (ListRepositories_loop_spec claims h allowed urls Hallowed [] w1) as Hspec.
  unfold trace in Htr.
  destruct (outcome h (ListRepositories_loop claims urls []) w1)
    as [[items|e]|msg]; cbn; [|by rewrite ?app_nil_r..].
  apply Forall_app. split; [done|]. rewrite run_mbind.
  assert (Forall (λ item, allowed (Repo item) = true) items) as Hitems.
  { apply Forall_forall. intros item Hitem.
    assert (Repo item ∈ Repo <$> items) as Hin by (apply list_elem_of_fmap; eauto).
    rewrite Hspec in Hin. cbn in Hin. apply list_elem_of_In, filter_In in Hin. tauto. }
  pose proof (ListRepositories_states_touches (λ url, allowed url = true)
                (Query_ForceRefresh q) items []
                (final h (ListRepositories_loop claims urls []) w1) Hitems) as Hstates.
  unfold trace in Hstates.
  destruct (outcome h (ListRepositories_states items [] _) _); cbn;
    by rewrite ?app_nil_r.
Qed.
End ProbeFacts.

Section CreateFacts.
Import appsv1 repositorypkg repository Spec ServiceTrace.
Context (claims : string) {W : Type} (h : Handler Call W).

Ltac no_event Hex :=
  repeat (apply Exists_cons in Hex as [Hex|Hex];
          [cbn in Hex; first [done|by destruct Hex as [_ ?]|by simplify_eq]|]);
  by apply Exists_nil in Hex.

(** X15: [CreateRepository] stores only what it has tested, whatever the
    collaborators answer.  A record it gives to the storage, to create or to
    update, is the record of the request with the connection state
    Successful, and the connectivity test of its URL has passed before; and
    when the connectivity test fails the call returns the error of the test
    and no record, and gives nothing to the storage. *)
Theorem CreateRepository_stores_what_it_tested r upsert w :
  let p := CreateRepository claims {| Create_Repo := Some r; Create_Upsert := upsert |} in
  (∀ r', r' ∈ omap stored (trace h p w) →
     r' = set_ConnectionState successful r ∧ Exists (probe (Repo r) None) (trace h p w)) ∧
  (∀ e, Exists (probe (Repo r) (Some e)) (trace h p w) →
     outcome h p w = Done (None, Some e) ∧ omap stored (trace h p w) = []).
Proof.
  intros p. subst p. unfold CreateRepository, outcome, trace. cbn.
  destruct (h _ (enf_Enforce _ _ _ _) w) as [[] w1]; cbn.
  2:{ split; [by intros ? []%elem_of_nil|]. intros e Hex. no_event Hex. }
  assert (∀ (pre : list (Event Call)) creds w2,
    omap stored pre = [] → Forall (λ ev, ∀ ans, ¬ probe (Repo r) ans ev) pre →
    let rest :=
      err ← call (git_TestRepo (Repo r) (argo_GetRepoCreds creds) (IsInsecure r) (EnableLFS r));
      match err with
      | Some e => Ret (None, Some e)
      | None =>
        let r := set_ConnectionState successful r in
        '(repo, err) ← call (db_CreateRepository r);
        if decide (status_Code err = AlreadyExists) then
          '(existing, getErr) ← call (db_GetRepository (Repo r));
          match getErr with
          | Some getErr =>
            Ret (None, Some (status_Errorf Internal
                   ("unable to check existing repository details: " +:+ Error getErr)))
          | None =>
            existing ← deref existing;
            let existing := set_ConnectionState (ConnectionState_ r) existing in
            if decide (existing = r) then
              Ret (Some (Repository_of_url (Repo existing)), None)
            else if upsert then
              UpdateRepository claims {| Update_Repo := Some r |}
            else
              Ret (None, Some (status_Errorf InvalidArgument
                     "existing repository spec is different; use upsert flag to force update"))
          end
        else
          repo ← deref repo;
          Ret (Some (Repository_of_url (Repo repo)), err)
      end in
    (∀ r', r' ∈ omap stored (pre ++ (run h rest w2).1.2) →
       r' = set_ConnectionState successful r ∧
       Exists (probe (Repo r) None) (pre ++ (run h rest w2).1.2)) ∧
    (∀ e, Exists (probe (Repo r) (Some e)) (pre ++ (run h rest w2).1.2) →
       (run h rest w2).1.1 = Done (None, Some e) ∧
       omap stored (pre ++ (run h rest w2).1.2) = [])) as Hrest.
  { intros pre creds w2 Hpre1 Hpre2. cbn.
    assert (∀ tl ans, Exists (probe (Repo r) ans) (pre ++ tl) → Exists (probe (Repo r) ans) tl)
      as Hskip.
    { intros tl ans [Hex|Hex]%Exists_app; [|done]. exfalso.
      apply Exists_exists in Hex as (ev & Hin & Hev).
      by apply (proj1 (Forall_forall _ _) Hpre2 ev Hin ans). }
    assert (∀ tl, Exists (probe (Repo r) None) tl → Exists (probe (Repo r) None) (pre ++ tl))
      as Hadd by (intros tl ?; apply Exists_app; by right).
    destruct (h _ (git_TestRepo _ _ _ _) w2) as [[e|] w3]; cbn.
    { rewrite omap_app, Hpre1. cbn. split; [by intros ? []%elem_of_nil|].
      intros e' Hex%Hskip. apply Exists_cons in Hex as [[_ [= ->]]|[]%Exists_nil]. done. }
    rewrite !omap_app, Hpre1. cbn.
    destruct (h _ (db_CreateRepository _) w3) as [[repo err] w4]; cbn.
    case_decide; cbn.
    - destruct (h _ (db_GetRepository (Repo r)) w4) as [[existing [getErr|]] w5]; cbn.
      { split.
        - intros r' [->|[]%elem_of_nil]%elem_of_cons. split; [done|].
          apply Hadd. by apply Exists_cons_hd.
        - intros e Hex%Hskip. no_event Hex. }
      destruct existing as [existing|]; cbn.
      2:{ split.
          - intros r' [->|[]%elem_of_nil]%elem_of_cons. split; [done|].
            apply Hadd. by apply Exists_cons_hd.
          - intros e Hex%Hskip. no_event Hex. }
      case_decide; cbn.
      { split.
        - intros r' [->|[]%elem_of_nil]%elem_of_cons. split; [done|].
          apply Hadd. by apply Exists_cons_hd.
        - intros e Hex%Hskip. no_event Hex. }
      destruct upsert; cbn.
      2:{ split.
          - intros r' [->|[]%elem_of_nil]%elem_of_cons. split; [done|].
            apply Hadd. by apply Exists_cons_hd.
          - intros e Hex%Hskip. no_event Hex. }
      destruct (h _ (enf_Enforce _ _ _ _) w5) as [[] w6]; cbn.
      2:{ split.
          - intros r' [->|[]%elem_of_nil]%elem_of_cons. split; [done|].
            apply Hadd. by apply Exists_cons_hd.
          - intros e Hex%Hskip. no_event Hex. }
      destruct (h _ (db_UpdateRepository _) w6) as [[? ?] w7]; cbn.
      split.
      + intros r' [->|[->|[]%elem_of_nil]%elem_of_cons]%elem_of_cons.
        all: split; [done|]; apply Hadd; by apply Exists_cons_hd.
      + intros e Hex%Hskip. no_event Hex.
    - destruct repo as [repo|]; cbn.
      all: split; [intros r' [->|[]%elem_of_nil]%elem_of_cons; split; [done|];
                    apply Hadd; by apply Exists_cons_hd
                  |intros e Hex%Hskip; no_event Hex]. }
  destruct (HasCredentials r); cbn.
  - specialize (Hrest [Ev (enf_Enforce claims ResourceRepositories ActionCreate (Repo r)) true]
                  (Some (CopyCredentialsFrom r (Repository_of_url (Repo r)))) w1).
    cbn in Hrest. apply Hrest; [done|]. apply Forall_singleton. by intros ans [].
  - destruct (h _ (db_GetRepositoryCredentials _) w1) as [[creds [e|]] w2]; cbn.
    { split; [by intros ? []%elem_of_nil|]. intros e' Hex. no_event Hex. }
    specialize (Hrest [Ev (enf_Enforce claims ResourceRepositories ActionCreate (Repo r)) true;
                       Ev (db_GetRepositoryCredentials (Repo r)) (creds, None)] creds w2).
    cbn in Hrest. apply Hrest; [done|].
    apply Forall_cons_2; [by intros ans []|]. apply Forall_singleton. by intros ans [].
Qed.

(** X16: a storage that fails the insertion with another error than
    AlreadyExists, and returns no record with it, makes [CreateRepository]
    and [CreateRepositoryCredentials] panic: both read the URL of the record
    the storage returned, which is nil, to build their answer; the error of
    the storage is not returned. *)
Theorem create_panics_when_the_storage_fails q w e :
  status_Code (Some e) ≠ AlreadyExists →
  (Exists (insertion (None, Some e)) (trace h (CreateRepository claims q) w) →
   outcome h (CreateRepository claims q) w
   = Panicked "invalid memory address or nil pointer dereference") ∧
  (Exists (insertion (None, Some e)) (trace h (CreateRepositoryCredentials claims q) w) →
   outcome h (CreateRepositoryCredentials claims q) w
   = Panicked "invalid memory address or nil pointer dereference").
Proof.
  intros Hcode. destruct q as [[r|] upsert]; (split; [|]).
  3,4: by intros []%Exists_nil.
  - unfold CreateRepository, outcome, trace. cbn.
    destruct (h _ (enf_Enforce _ _ _ _) w) as [[] w1]; cbn; [|intros Hex; no_event Hex].
    assert (∀ creds w2 (tl : list (Event Call)),
      let rest := (run h (
      err ← call (git_TestRepo (Repo r) (argo_GetRepoCreds creds) (IsInsecure r) (EnableLFS r));
      match err with
      | Some e => Ret (None, Some e)
      | None =>
        let r := set_ConnectionState successful r in
        '(repo, err) ← call (db_CreateRepository r);
        if decide (status_Code err = AlreadyExists) then
          '(existing, getErr) ← call (db_GetRepository (Repo r));
          match getErr with
          | Some getErr =>
            Ret (None, Some (status_Errorf Internal
                   ("unable to check existing repository details: " +:+ Error getErr)))
          | None =>
            existing ← deref existing;
            let existing := set_ConnectionState (ConnectionState_ r) existing in
            if decide (existing = r) then
              Ret (Some (Repository_of_url (Repo existing)), None)
            else if upsert then
              UpdateRepository claims {| Update_Repo := Some r |}
            else
              Ret (None, Some (status_Errorf InvalidArgument
                     "existing repository spec is different; use upsert flag to force update"))
          end
        else
          repo ← deref repo;
          Ret (Some (Repository_of_url (Repo repo)), err)
      end) w2) in
      Exists (insertion (None, Some e)) rest.1.2 →
      rest.1.1 = Panicked "invalid memory address or nil pointer dereference") as Hrest.
    { intros creds w2 _. cbn.
      destruct (h _ (git_TestRepo _ _ _ _) w2) as [[e'|] w3]; cbn; [intros Hex; no_event Hex|].
      destruct (h _ (db_CreateRepository _) w3) as [[repo err] w4]; cbn.
      case_decide as Hexists; cbn.
      - assert (err ≠ Some e) as Hne by (by intros ->).
        destruct (h _ (db_GetRepository (Repo r)) w4) as [[existing [getErr|]] w5]; cbn.
        { intros Hex. apply Exists_cons in Hex as [Hex|Hex]; [by cbn in Hex|].
          apply Exists_cons in Hex as [Hex|Hex]; [cbn in Hex; by simplify_eq|]. no_event Hex. }
        destruct existing as [existing|]; cbn; [|done].
        case_decide; cbn.
        { intros Hex. apply Exists_cons in Hex as [Hex|Hex]; [by cbn in Hex|].
          apply Exists_cons in Hex as [Hex|Hex]; [cbn in Hex; by simplify_eq|]. no_event Hex. }
        destruct upsert; cbn.
        2:{ intros Hex. apply Exists_cons in Hex as [Hex|Hex]; [by cbn in Hex|].
          apply Exists_cons in Hex as [Hex|Hex]; [cbn in Hex; by simplify_eq|]. no_event Hex. }
        destruct (h _ (enf_Enforce _ _ _ _) w5) as [[] w6]; cbn.
        2:{ intros Hex. apply Exists_cons in Hex as [Hex|Hex]; [by cbn in Hex|].
          apply Exists_cons in Hex as [Hex|Hex]; [cbn in Hex; by simplify_eq|]. no_event Hex. }
        destruct (h _ (db_UpdateRepository _) w6) as [[? ?] w7]; cbn.
        intros Hex. apply Exists_cons in Hex as [Hex|Hex]; [by cbn in Hex|].
        apply Exists_cons in Hex as [Hex|Hex]; [cbn in Hex; by simplify_eq|]. no_event Hex.
      - destruct repo as [repo|]; cbn; [|done].
        intros Hex. apply Exists_cons in Hex as [Hex|Hex]; [by cbn in Hex|].
        apply Exists_cons in Hex as [Hex|Hex]; [cbn in Hex; by simplify_eq|]. no_event Hex. }
    destruct (HasCredentials r); cbn.
    + intros Hex. apply Exists_cons in Hex as [Hex|Hex]; [by cbn in Hex|].
      revert Hex. apply (Hrest _ w1 []).
    + destruct (h _ (db_GetRepositoryCredentials _) w1) as [[creds [e'|]] w2]; cbn.
      { intros Hex. no_event Hex. }
      intros Hex. do 2 (apply Exists_cons in Hex as [Hex|Hex]; [by cbn in Hex|]).
      revert Hex. apply (Hrest _ w2 []).
  - unfold CreateRepositoryCredentials, outcome, trace. cbn.
    destruct (h _ (enf_Enforce _ _ _ _) w) as [[] w1]; cbn; [|intros Hex; no_event Hex].
    destruct (h _ (db_CreateRepositoryCredentials _) w1) as [[repo err] w2]; cbn.
    case_decide as Hexists; cbn.
    + assert (err ≠ Some e) as Hne by (by intros ->).
      destruct (h _ (db_GetRepositoryCredentials (Repo r)) w2) as [[existing [getErr|]] w3]; cbn.
      { intros Hex. apply Exists_cons in Hex as [Hex|Hex]; [by cbn in Hex|].
        apply Exists_cons in Hex as [Hex|Hex]; [cbn in Hex; by simplify_eq|]. no_event Hex. }
      case_decide; cbn.
      { subst existing. cbn.
        intros Hex. apply Exists_cons in Hex as [Hex|Hex]; [by cbn in Hex|].
        apply Exists_cons in Hex as [Hex|Hex]; [cbn in Hex; by simplify_eq|]. no_event Hex. }
      destruct upsert; cbn.
      2:{ intros Hex. apply Exists_cons in Hex as [Hex|Hex]; [by cbn in Hex|].
        apply Exists_cons in Hex as [Hex|Hex]; [cbn in Hex; by simplify_eq|]. no_event Hex. }
      destruct (h _ (enf_Enforce _ _ _ _) w3) as [[] w4]; cbn.
      2:{ intros Hex. apply Exists_cons in Hex as [Hex|Hex]; [by cbn in Hex|].
        apply Exists_cons in Hex as [Hex|Hex]; [cbn in Hex; by simplify_eq|]. no_event Hex. }
      destruct (h _ (db_UpdateRepositoryCredentials _) w4) as [[? ?] w5]; cbn.
      intros Hex. apply Exists_cons in Hex as [Hex|Hex]; [by cbn in Hex|].
      apply Exists_cons in Hex as [Hex|Hex]; [cbn in Hex; by simplify_eq|]. no_event Hex.
    + destruct repo as [repo|]; cbn; [|done].
      intros Hex. apply Exists_cons in Hex as [Hex|Hex]; [by cbn in Hex|].
      apply Exists_cons in Hex as [Hex|Hex]; [cbn in Hex; by simplify_eq|]. no_event Hex.
Qed.
End CreateFacts.

Section StoreMore.
Import appsv1 repositorypkg repository Spec ServiceTrace.
Context (env : Store.Env) (claims : string).
Local Abbreviation h := (Store.handle env).

(** X17: [CreateRepositoryCredentials] at the reference store, for a subject
    that may create.  For a URL without a credential set the record is
    stored as it is.  For a URL with a credential set the call is idempotent
    when the stored record equals the incoming one in every field, the
    connection state included (the call returns the URL and no error and
    changes nothing); otherwise it is [UpdateRepositoryCredentials] on the
    incoming record when upsert is set, and else fails with the
    InvalidArgument error that names the upsert flag, and changes nothing. *)
Theorem CreateRepositoryCredentials_at_the_store r upsert w :
  let q := {| Create_Repo := Some r; Create_Upsert := upsert |} in
  let prog := CreateRepositoryCredentials claims q in
  let update := UpdateRepositoryCredentials claims {| Update_Repo := Some r |} in
  Store.allowed env claims ResourceRepositories ActionCreate (Repo r) = true →
  match Store.credentials w !! Repo r with
  | None =>
    outcome h prog w = Done (Some (Repository_of_url (Repo r)), None) ∧
    final h prog w = Store.set_credentials (λ _, <[Repo r := r]> (Store.credentials w)) w
  | Some stored =>
    if decide (stored = r) then
      outcome h prog w = Done (Some (Repository_of_url (Repo r)), None) ∧
      final h prog w = w
    else if upsert then
      outcome h prog w = outcome h update w ∧ final h prog w = final h update w
    else
      outcome h prog w
      = Done (None, Some (status_Errorf InvalidArgument
          "existing repository credentials spec is different; use upsert flag to force update")) ∧
      final h prog w = w
  end.
Proof.
  intros q prog update Hallowed. subst q prog update.
  destruct w as [repos creds cache clock].
  unfold outcome, final, CreateRepositoryCredentials, UpdateRepositoryCredentials. simpl.
  rewrite Hallowed. simpl. unfold Store.create. simpl.
  destruct (creds !! Repo r) as [stored|] eqn:Hst; simpl; [|done].
  rewrite Hst. simpl.
  destruct (decide (stored = r)) as [->|Hne].
  - by rewrite decide_True.
  - rewrite decide_False by congruence. by destruct upsert.
Qed.

(** X18: creating a repository and deleting it again is a round trip at the
    reference store.  For a subject that may create and delete, a URL that
    is not stored and a connectivity test that passes, [CreateRepository]
    followed by [DeleteRepository] of the same URL succeeds and leaves the
    repositories and the credential sets as they were; of the cache only
    the state of this URL is gone. *)
Theorem create_then_delete_restores_the_store r upsert w :
  let create := CreateRepository claims {| Create_Repo := Some r; Create_Upsert := upsert |} in
  let delete_ := DeleteRepository claims
                   {| Query_Repo := Repo r; Query_ForceRefresh := false |} in
  Store.allowed env claims ResourceRepositories ActionCreate (Repo r) = true →
  Store.allowed env claims ResourceRepositories ActionDelete (Repo r) = true →
  create_probe env w r = None →
  Store.repos w !! Repo r = None →
  outcome h create w = Done (Some (Repository_of_url (Repo r)), None) ∧
  outcome h delete_ (final h create w) = Done (Some (), None) ∧
  Store.repos (final h delete_ (final h create w)) = Store.repos w ∧
  Store.credentials (final h delete_ (final h create w)) = Store.credentials w ∧
  Store.cache (final h delete_ (final h create w)) = delete (Repo r) (Store.cache w).
Proof.
  intros create delete_ Hcreate Hdelete Hprobe Hfresh. subst create delete_.
  pose proof (CreateRepository_run env claims r upsert w) as Hrun. cbn zeta in Hrun.
  rewrite Hcreate, Hprobe, Hfresh in Hrun. destruct Hrun as [Hout Hfin].
  rewrite Hfin. split; [done|].
  destruct w as [repos creds cache clock]. simpl in *.
  unfold outcome, final, DeleteRepository. simpl. rewrite Hdelete. simpl.
  unfold Store.remove. simpl. rewrite lookup_insert_eq. simpl.
  split_and!; try done. by rewrite delete_insert_eq, delete_id.
Qed.
End StoreMore.

Section AppsFacts.
Import appsv1 repositorypkg repository Lift.
Import server ServerTrace.
Context `{external} (claims : string).

Section AnyHandler.
Context {W : Type} (h : Handler Call W).

(** X19: [ValidateAccess] only tests, whatever the collaborators answer.  Its
    calls are the question to the enforcer, the look-up of the credential
    set of the URL, and the connectivity test of the URL, with the
    insecure flag of the query and never with LFS: it writes nothing.  When
    the query carries credentials the storage is not read and the test runs
    with the credentials of the query; when it carries none, the test runs
    with the stored credential set of the URL, and with the nil credentials
    when there is none.  It succeeds only when the test has passed. *)
Theorem ValidateAccess_only_tests q w :
  let tr := trace h (ValidateAccess claims q) w in
  CallsOnly (validates q) (ValidateAccess claims q) ∧
  (HasCredentials (ValidateAccess_repo q) = true →
   Forall (EventIs (λ X c, ¬ reads_storage X c)) tr ∧
   ∀ creds, creds ∈ omap tested_with tr →
     creds = Some (argo_GetRepoCreds (Some (ValidateAccess_repo q)))) ∧
  (HasCredentials (ValidateAccess_repo q) = false →
   ∀ creds, creds ∈ omap tested_with tr →
     match creds with
     | Some creds =>
       ∃ repoCreds, creds = argo_GetRepoCreds (Some repoCreds) ∧
                    Exists (credentials_found (Some repoCreds, None)) tr
     | None => Exists (credentials_found (None, None)) tr
     end) ∧
  (∀ res err, outcome h (ValidateAccess claims q) w = Done (Some res, err) →
     err = None ∧ Exists (tested None) tr).
Proof.
  intros tr. subst tr. split_and!.
  - unfold ValidateAccess. apply CallsOnly_mbind.
    { apply CallsOnly_lift. unfold enf_EnforceErr. calls_only. }
    intros [e|]; [constructor|]. cbn.
    destruct (HasCredentials _); cbn; calls_only.
  - intros Hcreds. unfold ValidateAccess, trace. cbn. rewrite Hcreds. cbn.
    destruct (h _ (base (enf_Enforce _ _ _ _)) w) as [[] w1]; cbn.
    + destruct (h _ (base (git_TestRepo _ _ _ _)) w1) as [[e|] w2]; cbn.
      all: split; [repeat (apply Forall_cons_2; [by cbn; auto|]); done|].
      all: by intros creds [->|[]%elem_of_nil]%elem_of_cons.
    + split; [repeat (apply Forall_cons_2; [by cbn; auto|]); done|].
      by intros creds []%elem_of_nil.
  - intros Hcreds. unfold ValidateAccess, trace. cbn. rewrite Hcreds. cbn.
    destruct (h _ (base (enf_Enforce _ _ _ _)) w) as [[] w1]; cbn;
      [|by intros creds []%elem_of_nil].
    destruct (h _ (base (db_GetRepositoryCredentials _)) w1) as [[repoCreds [e|]] w2]; cbn;
      [by intros creds []%elem_of_nil|].
    destruct repoCreds as [repoCreds|]; cbn.
    + destruct (h _ (base (git_TestRepo _ _ _ _)) w2) as [[e|] w3]; cbn.
      all: intros creds [->|[]%elem_of_nil]%elem_of_cons.
      all: exists repoCreds; split; [done|]; by apply Exists_cons_tl, Exists_cons_hd.
    + destruct (h _ (git_TestRepo_nil _ _ _) w2) as [[e|] w3]; cbn.
      all: intros creds [->|[]%elem_of_nil]%elem_of_cons.
      all: by apply Exists_cons_tl, Exists_cons_hd.
  - intros res err. unfold ValidateAccess, outcome, trace. cbn.
    destruct (h _ (base (enf_Enforce _ _ _ _)) w) as [[] w1]; cbn; [|done].
    destruct (HasCredentials _); cbn.
    + destruct (h _ (base (git_TestRepo _ _ _ _)) w1) as [[e|] w2]; cbn; [done|].
      intros [= <- <-]. split; [done|]. by apply Exists_cons_tl, Exists_cons_hd.
    + destruct (h _ (base (db_GetRepositoryCredentials _)) w1) as [[repoCreds [e|]] w2];
        cbn; [done|].
      destruct repoCreds as [repoCreds|]; cbn.
      * destruct (h _ (base (git_TestRepo _ _ _ _)) w2) as [[e|] w3]; cbn; [done|].
        intros [= <- <-]. split; [done|]. by do 2 apply Exists_cons_tl; apply Exists_cons_hd.
      * destruct (h _ (git_TestRepo_nil _ _ _) w2) as [[e|] w3]; cbn; [done|].
        intros [= <- <-]. split; [done|]. by do 2 apply Exists_cons_tl; apply Exists_cons_hd.
Qed.
End AnyHandler.

(** X20: the read operations of the repo server and [ValidateAccess] are gated
    like the mutating operations: [ListApps] and [GetAppDetails] first ask
    the enforcer for the action "get" on the URL of the query,
    [ValidateAccess] for the action "create"; on denial this is the only
    call and the operation fails with the permission error. *)
Theorem apps_and_access_are_gated :
  (∀ q, gated claims (ListApps claims q) ActionGet (Apps_Repo q)) ∧
  (∀ q, gated claims (GetAppDetails claims q) ActionGet (Details_Repo q)) ∧
  (∀ q, gated claims (ValidateAccess claims q) ActionCreate (Access_Repo q)).
Proof.
  split_and!; intros q W h w ask; subst ask.
  - unfold ListApps, trace. cbn.
    destruct (h _ (base (enf_Enforce _ _ _ _)) w) as [[] w1]; cbn.
    + split; [by eexists|done].
    + split; [by eexists|done].
  - unfold GetAppDetails, trace. cbn.
    destruct (h _ (base (enf_Enforce _ _ _ _)) w) as [[] w1]; cbn.
    + split; [by eexists|done].
    + split; [by eexists|done].
  - unfold ValidateAccess, trace. cbn.
    destruct (h _ (base (enf_Enforce _ _ _ _)) w) as [[] w1]; cbn.
    + split; [by eexists|done].
    + split; [by eexists|done].
Qed.
End AppsFacts.

Section PathFacts.
Import appsv1 repositorypkg repository Lift.
Import server ServerTrace.
Context `{external}.

Lemma componentDirs_spec componentRes d :
  d ∈ listAppsPaths_componentDirs componentRes ↔
  ∃ c, c ∈ componentRes ∧ filepath_Dir (filepath_Dir c) = d.
Proof.
  unfold listAppsPaths_componentDirs.
  assert (∀ acc : gset string,
    d ∈ foldl (λ componentDirs i, {[ filepath_Dir (filepath_Dir i) ]} ∪ componentDirs)
          acc componentRes ↔
    d ∈ acc ∨ ∃ c, c ∈ componentRes ∧ filepath_Dir (filepath_Dir c) = d) as Hgen.
  { induction componentRes as [|c componentRes IH]; intros acc; cbn.
    - split; [by left|]. intros [?|(c & []%elem_of_nil & _)]. done.
    - rewrite IH, elem_of_union, elem_of_singleton. split.
      + intros [[->|?]|(c' & ? & ?)].
        * right. exists c. split; [by left|done].
        * by left.
        * right. exists c'. split; [by right|done].
      + intros [?|(c' & [->|?]%elem_of_cons & ?)].
        * left. by right.
        * left. by left.
        * right. by exists c'. }
  rewrite Hgen, elem_of_empty. tauto.
Qed.

Lemma foldl_insert_lookup (v : string) (l : list string) : ∀ (m : gmap string string) i,
  foldl (λ m i, <[i := v]> m) m l !! i = if decide (i ∈ l) then Some v else m !! i.
Proof.
  induction l as [|j l IH]; intros m i; cbn.
  - rewrite decide_False; [done|]. by intros []%elem_of_nil.
  - rewrite IH. destruct (decide (i ∈ l)) as [Hin|Hnin].
    + rewrite decide_True; [done|]. by right.
    + destruct (decide (i = j)) as [->|Hne].
      * rewrite lookup_insert_eq, decide_True; [done|]. by left.
      * rewrite lookup_insert_ne by done. rewrite decide_False; [done|].
        by intros [?|?]%elem_of_cons.
Qed.

Lemma foldl_insert_if_lookup (v : string) (P : string → Prop) `{∀ i, Decision (P i)}
    (l : list string) : ∀ (m : gmap string string) i,
  foldl (λ m i, if decide (P i) then <[i := v]> m else m) m l !! i
  = if decide (i ∈ l ∧ P i) then Some v else m !! i.
Proof.
  induction l as [|j l IH]; intros m i; cbn.
  - rewrite decide_False; [done|]. by intros [[]%elem_of_nil _].
  - rewrite IH. destruct (decide (i ∈ l ∧ P i)) as [[Hin HP]|Hnin].
    + rewrite decide_True; [done|]. split; [by right|done].
    + destruct (decide (P j)) as [HPj|HPj].
      * destruct (decide (i = j)) as [->|Hne].
        -- rewrite lookup_insert_eq, decide_True; [done|]. split; [by left|done].
        -- rewrite lookup_insert_ne by done. rewrite decide_False; [done|].
           intros [[?|?]%elem_of_cons ?]; [done|]. by apply Hnin.
      * rewrite decide_False; [done|].
        intros [[->|?]%elem_of_cons ?]; [done|]. by apply Hnin.
Qed.

(** X21: how [listAppsPaths] types the paths it has found.  A path of the
    kustomization listing is of the type Kustomize; any other path of the
    Helm listing is of the type Helm; any other path of the ksonnet listing
    is of the type Ksonnet, provided that the directory above the directory
    of some file of the component listing is the directory of the path; and
    no other path is in the map. *)
Theorem listAppsPaths_types_the_paths ksonnetRes componentRes helmRes kustomizationRes i :
  let pathToType :=
    listAppsPaths_pathToType ksonnetRes componentRes helmRes kustomizationRes in
  let has_components :=
    ∃ c, c ∈ componentRes ∧ filepath_Dir (filepath_Dir c) = filepath_Dir i in
  (i ∈ kustomizationRes → pathToType !! i = Some ApplicationSourceTypeKustomize) ∧
  (i ∉ kustomizationRes → i ∈ helmRes → pathToType !! i = Some ApplicationSourceTypeHelm) ∧
  (i ∉ kustomizationRes → i ∉ helmRes → i ∈ ksonnetRes → has_components →
   pathToType !! i = Some ApplicationSourceTypeKsonnet) ∧
  (i ∉ kustomizationRes → i ∉ helmRes → ¬ (i ∈ ksonnetRes ∧ has_components) →
   pathToType !! i = None).
Proof.
  intros pathToType has_components. subst pathToType has_components.
  unfold listAppsPaths_pathToType. cbn zeta.
  rewrite !foldl_insert_lookup.
  rewrite (foldl_insert_if_lookup ApplicationSourceTypeKsonnet
             (λ i, filepath_Dir i ∈ listAppsPaths_componentDirs componentRes)).
  rewrite lookup_empty. split_and!.
  - intros Hin. by rewrite decide_True.
  - intros Hnin Hin. by rewrite decide_False, decide_True.
  - intros Hnin1 Hnin2 Hin Hcomp. rewrite !decide_False by done.
    rewrite decide_True; [done|]. split; [done|]. by apply componentDirs_spec.
  - intros Hnin1 Hnin2 Hno. rewrite !decide_False; [done| |done..].
    intros [Hin Hcomp]. apply Hno. split; [done|]. by apply componentDirs_spec.
Qed.

Section AnyHandler.
Context (claims : string) {W : Type} (h : Handler Call W).

Ltac no_event Hex :=
  repeat (apply Exists_cons in Hex as [Hex|Hex];
          [cbn in Hex; first [done|by destruct Hex as [_ ?]|by simplify_eq]|]);
  by apply Exists_nil in Hex.

(** X22: the listings [listAppsPaths] asks the repo server for.  They are, in
    this order, those of "*app.yaml", "*components/params.libsonnet",
    "*Chart.yaml" and of the first name of [kustomize.KustomizationNames]
    under [subPath], all for the same repository and revision, HEAD standing
    for the empty revision; a later kustomization name is never looked for.
    The first listing that fails ends the function, its error being
    returned; a map is returned only after all four listings. *)
Theorem listAppsPaths_asks_four_listings repoClient repo revision subPath w :
  let p := listAppsPaths repoClient repo revision subPath in
  let req path :=
    {| ListDir_Repo := repo;
       ListDir_Revision := if decide (revision = "") then "HEAD" else revision;
       ListDir_Path := path_Join subPath path |} in
  let all :=
    [req "*app.yaml"; req "*components/params.libsonnet"; req "*Chart.yaml"]
    ++ match KustomizationNames with
       | kustomization :: _ => [req ("*" +:+ kustomization)]
       | [] => []
       end in
  omap requested (trace h p w) `prefix_of` all ∧
  (∀ res e, Exists (listed (res, Some e)) (trace h p w) →
     outcome h p w = Done (None, Some e)) ∧
  (∀ m err, outcome h p w = Done (Some m, err) →
     err = None ∧ length (omap requested (trace h p w)) = 4).
Proof.
  intros p req all. subst p all. unfold listAppsPaths, getKustomizationRes, outcome, trace.
  fold (req "*app.yaml") (req "*components/params.libsonnet") (req "*Chart.yaml").
  cbn -[req].
  destruct (h _ (repoClient_ListDir repoClient (req "*app.yaml")) w)
    as [[ksonnetRes [e|]] w1]; cbn -[req].
  { split_and!; [by eexists| |done].
    intros res e' [Hex|[]%Exists_nil]%Exists_cons. cbn in Hex. by simplify_eq. }
  destruct (h _ (repoClient_ListDir repoClient (req "*components/params.libsonnet")) w1)
    as [[componentRes [e|]] w2]; cbn -[req].
  { split_and!; [by eexists| |done].
    intros res e' [Hex|[Hex|[]%Exists_nil]%Exists_cons]%Exists_cons;
      cbn in Hex; by simplify_eq. }
  destruct (h _ (repoClient_ListDir repoClient (req "*Chart.yaml")) w2)
    as [[helmRes [e|]] w3]; cbn -[req].
  { split_and!; [by eexists| |done].
    intros res e' [Hex|[Hex|[Hex|[]%Exists_nil]%Exists_cons]%Exists_cons]%Exists_cons;
      cbn in Hex; by simplify_eq. }
  destruct KustomizationNames as [|kustomization names]; cbn -[req].
  { split_and!; [by eexists| |done].
    intros res e' [Hex|[Hex|[Hex|[]%Exists_nil]%Exists_cons]%Exists_cons]%Exists_cons;
      cbn in Hex; by simplify_eq. }
  fold (req ("*" +:+ kustomization)).
  destruct (h _ (repoClient_ListDir repoClient (req ("*" +:+ kustomization))) w3)
    as [[kustomizationRes [e|]] w4]; cbn -[req].
  { split_and!; [by exists []| |done].
    intros res e' [Hex|[Hex|[Hex|[Hex|[]%Exists_nil]%Exists_cons]%Exists_cons]%Exists_cons]%Exists_cons;
      cbn in Hex; by simplify_eq. }
  destruct componentRes as [componentRes|], ksonnetRes as [ksonnetRes|],
    helmRes as [helmRes|], kustomizationRes as [kustomizationRes|]; cbn -[req].
  all: split_and!; [by exists []| |first [done|by intros m err [= <- <-]]].
  all: intros res e' [Hex|[Hex|[Hex|[Hex|[]%Exists_nil]%Exists_cons]%Exists_cons]%Exists_cons]%Exists_cons;
      cbn in Hex; by simplify_eq.
Qed.

Lemma closes_last {A} conn (p : Prog Call A) w :
  omap opened (trace h p w) = [] → omap closed (trace h p w) = [] →
  let tr := trace h (defer (call (util_Close conn)) p) w in
  omap opened tr = [] ∧ omap closed tr = [conn] ∧
  ∃ x, last tr = Some (Ev (util_Close conn) x).
Proof.
  intros Hopened Hclosed. unfold trace in *. rewrite run_defer. cbn.
  rewrite !omap_app, Hopened, Hclosed. cbn. split_and!; [done..|].
  rewrite last_snoc. by eexists.
Qed.

Lemma no_connection_trace {A} (p : Prog Call A) w :
  CallsOnly no_connection p →
  omap opened (trace h p w) = [] ∧ omap closed (trace h p w) = [].
Proof.
  intros Hp. pose proof (trace_CallsOnly h no_connection p w Hp) as Htr.
  induction Htr as [|[X c x] tr Hc Htr [IH1 IH2]]; [done|].
  cbn. rewrite IH1, IH2. by destruct c.
Qed.

Lemma listAppsPaths_calls repoClient repo revision subPath :
  CallsOnly no_connection (listAppsPaths repoClient repo revision subPath).
Proof. unfold listAppsPaths, getKustomizationRes. calls_only. Qed.

(** X23: [ListApps] and [GetAppDetails] close the connection to the repo
    server, whatever the collaborators answer.  Each opens at most one
    connection, and only after the enforcer has allowed the call and the
    storage has found the repository; a connection that was opened is
    closed exactly once, by the last call of the function, on every way out
    of it: a return, an error, a panic. *)
Theorem repo_server_connection_is_closed qa qd w :
  let closes_its_connection (tr : list (Event Call)) :=
    omap closed tr = omap opened tr ∧
    match omap opened tr with
    | [] => True
    | [conn] => ∃ x, last tr = Some (Ev (util_Close conn) x)
    | _ => False
    end in
  closes_its_connection (trace h (ListApps claims qa) w) ∧
  closes_its_connection (trace h (GetAppDetails claims qd) w).
Proof.
  intros closes_its_connection. subst closes_its_connection. cbn beta. split.
  - unfold ListApps, trace. cbn -[defer listAppsPaths].
    destruct (h _ (base (enf_Enforce _ _ _ _)) w) as [[] w1]; cbn -[defer listAppsPaths]; [|done].
    destruct (h _ (base (db_GetRepository _)) w1) as [[repo [e|]] w2]; cbn -[defer listAppsPaths]; [done|].
    destruct (h _ repoClientset_NewRepoServerClient w2) as [[[conn repoClient] [e|]] w3];
      cbn -[defer listAppsPaths]; [done|].
    match goal with |- context [run h (defer _ ?p) w3] =>
      assert (CallsOnly no_connection p) as Hp end.
    { apply CallsOnly_mbind; [apply CallsOnly_deref|]. intros rc.
      apply CallsOnly_mbind; [apply listAppsPaths_calls|].
      intros [paths [e|]]; calls_only. }
    match goal with |- context [run h (defer _ ?p) w3] =>
      destruct (no_connection_trace p w3 Hp) as [Hop Hcl];
      pose proof (closes_last conn p w3 Hop Hcl) as (H1 & H2 & H3) end.
    unfold trace in *. rewrite H1, H2. split; [done|].
      destruct H3 as [x H3]. exists x.
      by rewrite !last_cons, H3.
  - unfold GetAppDetails, trace. cbn -[defer].
    destruct (h _ (base (enf_Enforce _ _ _ _)) w) as [[] w1]; cbn -[defer]; [|done].
    destruct (h _ (base (db_GetRepository _)) w1) as [[repo [e|]] w2]; cbn -[defer]; [done|].
    destruct (h _ repoClientset_NewRepoServerClient w2) as [[[conn repoClient] [e|]] w3];
      cbn -[defer]; [done|].
    match goal with |- context [run h (defer _ ?p) w3] =>
      assert (CallsOnly no_connection p) as Hp end.
    { calls_only. }
    match goal with |- context [run h (defer _ ?p) w3] =>
      destruct (no_connection_trace p w3 Hp) as [Hop Hcl];
      pose proof (closes_last conn p w3 Hop Hcl) as (H1 & H2 & H3) end.
    unfold trace in *. rewrite H1, H2. split; [done|].
      destruct H3 as [x H3]. exists x.
      by rewrite !last_cons, H3.
Qed.

(** X24: [GetAppDetails] passes the request on to the repo server and returns
    its answer as it is, whatever the collaborators answer.  The query it
    sends carries the revision, the path and the Helm and ksonnet parameters
    of the request, and the record the storage has found for the URL of the
    request, the credentials included. *)
Theorem GetAppDetails_passes_the_request_on q w :
  let tr := trace h (GetAppDetails claims q) w in
  (∀ q', q' ∈ omap details_asked tr →
     Server_Revision q' = Details_Revision q ∧ Server_Path q' = Details_Path q ∧
     Server_Helm q' = Details_Helm q ∧ Server_Ksonnet q' = Details_Ksonnet q ∧
     Exists (repository_found (Details_Repo q) (Server_Repo q', None)) tr) ∧
  (∀ ans, Exists (details_answered ans) tr →
     outcome h (GetAppDetails claims q) w = Done ans).
Proof.
  unfold GetAppDetails, outcome, trace. cbn.
  destruct (h _ (base (enf_Enforce _ _ _ _)) w) as [[] w1]; cbn.
  2:{ split; [by intros ? []%elem_of_nil|]. intros ans Hex. no_event Hex. }
  destruct (h _ (base (db_GetRepository _)) w1) as [[repo [e|]] w2]; cbn.
  { split; [by intros ? []%elem_of_nil|]. intros ans Hex. no_event Hex. }
  destruct (h _ repoClientset_NewRepoServerClient w2) as [[[conn repoClient] [e|]] w3]; cbn.
  { split; [by intros ? []%elem_of_nil|]. intros ans Hex. no_event Hex. }
  destruct (h _ db_ListHelmRepos w3) as [[helmRepos [e|]] w4]; cbn.
  { destruct (h _ (util_Close conn) w4) as [[] w5]. cbn.
    split; [by intros ? []%elem_of_nil|]. intros ans Hex. no_event Hex. }
  destruct (h _ settings_GetKustomizeBuildOptions w4) as [[buildOptions [e|]] w5]; cbn.
  { destruct (h _ (util_Close conn) w5) as [[] w6]. cbn.
    split; [by intros ? []%elem_of_nil|]. intros ans Hex. no_event Hex. }
  destruct repoClient as [repoClient|]; cbn.
  2:{ destruct (h _ (util_Close conn) w5) as [[] w6]. cbn.
      split; [by intros ? []%elem_of_nil|]. intros ans Hex. no_event Hex. }
  destruct (h _ (repoClient_GetAppDetails _ _) w5) as [ans' w6]. cbn.
  destruct (h _ (util_Close conn) w6) as [[] w7]. cbn. split.
  - intros q' [->|[]%elem_of_nil]%elem_of_cons. cbn. split_and!; try done.
    by apply Exists_cons_tl, Exists_cons_hd.
  - intros ans Hex. do 5 (apply Exists_cons in Hex as [Hex|Hex]; [by cbn in Hex|]).
    apply Exists_cons in Hex as [Hex|Hex]; [cbn in Hex; by subst|]. no_event Hex.
Qed.
End AnyHandler.
End PathFacts.

Section GatewayFacts.
Import appsv1 repositorypkg gateway.
Context (pathParams : gmap string string).

Ltac refused := right; split; [repeat (apply Forall_cons_2; [by intros []|]); done|by eexists].
Ltac served :=
  left; eexists _, _, _, _; split; [by apply (eq_refl : _ = [_] ++ [_]) || by apply (eq_refl : _ = [_; _] ++ [_]) || by apply (eq_refl : _ = [_; _; _] ++ [_]) |];
  split; [repeat (apply Forall_cons_2; [split; [by intros []|cbn; by intros []]|]); done
         |repeat (apply Forall_cons_2; [by eauto|]); done].

(** X25: the gateway hands no request to the service that it could not
    decode.  Each of the functions that transcode a REST request (shown for
    ListRepositories, ListApps, CreateRepository, UpdateRepository,
    DeleteRepository and ValidateAccess) calls the service at most once, as
    its last call, and then returns what the service answers, unchanged;
    it calls the service only when the path parameters of the route are
    there and the body, the path parameters and the query were decoded
    without an error; otherwise it answers with an InvalidArgument error,
    no message and empty metadata. *)
Theorem gateway_transcodes :
  transcodes pathParams [] request_RepositoryService_ListRepositories_0 ∧
  transcodes pathParams ["repo"] (request_RepositoryService_ListApps_0 pathParams) ∧
  transcodes pathParams [] request_RepositoryService_CreateRepository_0 ∧
  transcodes pathParams ["repo.repo"] (request_RepositoryService_UpdateRepository_0 pathParams) ∧
  transcodes pathParams ["repo"] (request_RepositoryService_DeleteRepository_0 pathParams) ∧
  transcodes pathParams ["repo"] (request_RepositoryService_ValidateAccess_0 pathParams).
Proof.
  split_and!; intros W h w; unfold outcome, trace.
  - unfold request_RepositoryService_ListRepositories_0. cbn.
    destruct (h _ (runtime_PopulateQueryParameters _ _) w) as [[protoReq [e|]] w1]; cbn.
    + eexists. split; [done|]. refused.
    + destruct (h _ (client _ _) w1) as [ans w2]. cbn. exists ans. split; [done|]. served.
  - unfold request_RepositoryService_ListApps_0.
    destruct (pathParams !! "repo") as [val|] eqn:Hrepo; cbn.
    2:{ eexists. split; [done|]. refused. }
    destruct (h _ (runtime_String val) w) as [[repo [e|]] w1]; cbn.
    { eexists. split; [done|]. refused. }
    destruct (h _ (runtime_PopulateQueryParameters _ _) w1) as [[protoReq [e|]] w2]; cbn.
    + eexists. split; [done|]. refused.
    + destruct (h _ (client _ _) w2) as [ans w3]. cbn. exists ans. split; [done|].
      served.
  - unfold request_RepositoryService_CreateRepository_0. cbn.
    destruct (h _ (Decode _) w) as [[repo [e|]] w1]; cbn.
    { eexists. split; [done|]. refused. }
    destruct (h _ (runtime_PopulateQueryParameters _ _) w1) as [[protoReq [e|]] w2]; cbn.
    + eexists. split; [done|]. refused.
    + destruct (h _ (client _ _) w2) as [ans w3]. cbn. exists ans. split; [done|]. served.
  - unfold request_RepositoryService_UpdateRepository_0. cbn.
    destruct (h _ (Decode _) w) as [[repo [e|]] w1]; cbn.
    { eexists. split; [done|]. refused. }
    destruct (pathParams !! "repo.repo") as [val|] eqn:Hrepo; cbn.
    2:{ eexists. split; [done|]. refused. }
    destruct (h _ (runtime_PopulateFieldFromPath _ _ _) w1) as [[protoReq [e|]] w2]; cbn.
    + eexists. split; [done|]. refused.
    + destruct (h _ (client _ _) w2) as [ans w3]. cbn. exists ans. split; [done|].
      served.
  - unfold request_RepositoryService_DeleteRepository_0.
    destruct (pathParams !! "repo") as [val|] eqn:Hrepo; cbn.
    2:{ eexists. split; [done|]. refused. }
    destruct (h _ (runtime_String val) w) as [[repo [e|]] w1]; cbn.
    { eexists. split; [done|]. refused. }
    destruct (h _ (runtime_PopulateQueryParameters _ _) w1) as [[protoReq [e|]] w2]; cbn.
    + eexists. split; [done|]. refused.
    + destruct (h _ (client _ _) w2) as [ans w3]. cbn. exists ans. split; [done|].
      served.
  - unfold request_RepositoryService_ValidateAccess_0. cbn.
    destruct (h _ (Decode _) w) as [[repo [e|]] w1]; cbn.
    { eexists. split; [done|]. refused. }
    destruct (pathParams !! "repo") as [val|] eqn:Hrepo; cbn.
    2:{ eexists. split; [done|]. refused. }
    destruct (h _ (runtime_String val) w1) as [[repo' [e|]] w2]; cbn.
    { eexists. split; [done|]. refused. }
    destruct (h _ (runtime_PopulateQueryParameters _ _) w2) as [[protoReq [e|]] w3]; cbn.
    + eexists. split; [done|]. refused.
    + destruct (h _ (client _ _) w3) as [ans w4]. cbn. exists ans. split; [done|].
      served.
Qed.
End GatewayFacts.

Section MoreKeyExamples.
Import appsv1 db Keyring KeySpec KeyTrace.
Local Abbreviation sync := (@SynchronizeGPGPublicKeys plain_gpg).
Local Abbreviation hk := (Keyring.handle plain_env).

Lemma validatePGPKey_wants_one_key_witness :
  Exists (validator_answered (["A"; "B"], None)) (trace hk (validatePGPKey "A+B") (world0 [] [])) ∧
  outcome hk (validatePGPKey "A+B") (world0 [] [])
  = Done ("", Some (Errorf "More than one key found in input data")).
Proof.
  assert (Exists (validator_answered (["A"; "B"], None))
            (trace hk (validatePGPKey "A+B") (world0 [] []))) as Hex.
  { vm_compute. repeat first [by apply Exists_cons_hd | apply Exists_cons_tl]. }
  split; [exact Hex|].
  exact (validatePGPKey_wants_one_key hk "A+B" (world0 [] []) ["A"; "B"] Hex).
Defined.

Lemma failed_sync_changes_nothing_witness :
  let w := world0 [("A", "garbage")] [("C", false)] in
  let e := Errorf "Could not parse GPG key for entry 'A': no valid PGP key in input data" in
  outcome hk sync w = Done (Some e) ∧
  Forall (EventIs no_mutation) (trace hk sync w).
Proof.
  intros w e.
  assert (outcome hk sync w = Done (Some e)) as Hout by (vm_compute; reflexivity).
  split; [exact Hout|].
  exact (@failed_sync_changes_nothing plain_gpg World hk w e Hout).
Defined.

Lemma sync_touches_only_the_difference_witness :
  let data : gmap string string := list_to_map [("A", "A"); ("B", "B")] in
  let tr := trace hk sync example_world in
  (OrderLaw plain_env ∧ config example_world = Some data) ∧
  (∀ p, p ∈ omap imported tr →
     ∃ k, data !! k = Some p ∧ @gpg_KeyID plain_gpg k ∉ public_keys example_world) ∧
  (∀ keyID, keyID ∈ omap deleted tr →
     keyID ∈ public_keys example_world ∧ keyID ∉ @declared_keys plain_gpg data).
Proof.
  intros data tr. split; [split; [exact plain_order|reflexivity]|].
  exact (@sync_touches_only_the_difference plain_gpg plain_env example_world data
           plain_order eq_refl).
Defined.
End MoreKeyExamples.

Section MoreServiceExamples.
Import appsv1 repositorypkg repository Spec ServiceTrace Examples.

Lemma ListRepositoryCredentials_gives_only_user_names_witness :
  let h := Store.handle Store.guarded_env in
  let list := server.ListRepositoryCredentials "admin" list_all in
  (∀ url w,
     (h _ (enf_Enforce "admin" ResourceRepositories ActionGet url) w).1 = guarded url) ∧
  outcome h list two_credential_sets
  = Done (Some [ {| Repo := "https://open/r"; Username := "alice"; Password := "";
                    SSHPrivateKey := ""; ConnectionState_ := ConnectionState_zero;
                    Insecure := false; EnableLFS := false;
                    TLSClientCertData := ""; TLSClientCertKey := "" |} ], None) ∧
  (∀ items err,
     outcome h list two_credential_sets = Done (Some items, err) →
     err = None ∧
     Repo <$> items
     = List.filter guarded (h _ db_ListRepositoryCredentials two_credential_sets).1.1 ∧
     Forall only_username items).
Proof.
  intros h list.
  assert (∀ url w,
     (h _ (enf_Enforce "admin" ResourceRepositories ActionGet url) w).1 = guarded url)
    as Hpolicy by (intros url w; reflexivity).
  split; [exact Hpolicy|]. split; [vm_compute; reflexivity|].
  exact (proj1 (ListRepositoryCredentials_gives_only_user_names "admin" h guarded list_all
                  two_credential_sets Hpolicy)).
Defined.

Lemma ListRepositories_gives_no_secret_witness :
  let h := Store.handle Store.open_env in
  outcome h (ListRepositories "admin" list_all) (Store.world_of [Store.alice])
  = Done (Some [alice_listed], None) ∧
  Forall no_secret [alice_listed].
Proof.
  intros h.
  assert (outcome h (ListRepositories "admin" list_all) (Store.world_of [Store.alice])
          = Done (Some [alice_listed], None)) as Hout by (vm_compute; reflexivity).
  split; [exact Hout|].
  exact (ListRepositories_gives_no_secret "admin" h list_all (Store.world_of [Store.alice])
           [alice_listed] None Hout).
Defined.

Lemma ListRepositories_skips_what_is_denied_witness :
  let h := Store.handle Store.guarded_env in
  (∀ url w,
     (h _ (enf_Enforce "admin" ResourceRepositories ActionGet url) w).1 = guarded url) ∧
  Forall (EventIs (touches (λ url, guarded url = true)))
    (trace h (ListRepositories "admin" list_all) Store.open_and_secret).
Proof.
  intros h.
  assert (∀ url w,
     (h _ (enf_Enforce "admin" ResourceRepositories ActionGet url) w).1 = guarded url)
    as Hpolicy by (intros url w; reflexivity).
  split; [exact Hpolicy|].
  exact (ListRepositories_skips_what_is_denied "admin" h guarded list_all
           Store.open_and_secret Hpolicy).
Defined.

Lemma create_panics_when_the_storage_fails_witness :
  let q := {| Create_Repo := Some Store.alice; Create_Upsert := false |} in
  status_Code (Some out_of_order) ≠ AlreadyExists ∧
  Exists (insertion (None, Some out_of_order))
    (trace broken_storage (CreateRepository "admin" q) ()) ∧
  outcome broken_storage (CreateRepository "admin" q) ()
  = Panicked "invalid memory address or nil pointer dereference".
Proof.
  intros q.
  assert (status_Code (Some out_of_order) ≠ AlreadyExists) as Hcode by done.
  assert (Exists (insertion (None, Some out_of_order))
            (trace broken_storage (CreateRepository "admin" q) ())) as Hex.
  { vm_compute. repeat first [by apply Exists_cons_hd | apply Exists_cons_tl]. }
  split; [exact Hcode|]. split; [exact Hex|].
  exact (proj1 (create_panics_when_the_storage_fails "admin" broken_storage q ()
                  out_of_order Hcode) Hex).
Defined.

Lemma CreateRepositoryCredentials_at_the_store_witness :
  let h := Store.handle Store.open_env in
  let w := Store.set_credentials (λ _, {[ "git@x/y" := Store.alice ]}) Store.empty_world in
  let q := {| Create_Repo := Some Store.bob; Create_Upsert := false |} in
  Store.allowed Store.open_env "admin" ResourceRepositories ActionCreate (Repo Store.bob)
  = true ∧
  outcome h (CreateRepositoryCredentials "admin" q) w
  = Done (None, Some (status_Errorf InvalidArgument
      "existing repository credentials spec is different; use upsert flag to force update")) ∧
  final h (CreateRepositoryCredentials "admin" q) w = w.
Proof.
  intros h w q. split; [reflexivity|].
  pose proof (CreateRepositoryCredentials_at_the_store Store.open_env "admin" Store.bob false
                w eq_refl) as Hrun.
  cbn zeta in Hrun.
  assert (Store.credentials w !! Repo Store.bob = Some Store.alice) as Hst
    by (vm_compute; reflexivity).
  rewrite Hst in Hrun. rewrite decide_False in Hrun by done. exact Hrun.
Defined.

Lemma create_then_delete_restores_the_store_witness :
  let h := Store.handle Store.open_env in
  let create := CreateRepository "admin"
                  {| Create_Repo := Some Store.alice; Create_Upsert := false |} in
  let delete_ := DeleteRepository "admin"
                   {| Query_Repo := "git@x/y"; Query_ForceRefresh := false |} in
  (Store.allowed Store.open_env "admin" ResourceRepositories ActionCreate "git@x/y" = true ∧
   Store.allowed Store.open_env "admin" ResourceRepositories ActionDelete "git@x/y" = true ∧
   create_probe Store.open_env Store.empty_world Store.alice = None ∧
   Store.repos Store.empty_world !! "git@x/y" = None) ∧
  outcome h create Store.empty_world = Done (Some (Repository_of_url "git@x/y"), None) ∧
  outcome h delete_ (final h create Store.empty_world) = Done (Some (), None) ∧
  Store.repos (final h delete_ (final h create Store.empty_world)) = ∅.
Proof.
  intros h create delete_.
  assert (create_probe Store.open_env Store.empty_world Store.alice = None) as Hprobe
    by (vm_compute; reflexivity).
  split; [by split_and!|].
  destruct (create_then_delete_restores_the_store Store.open_env "admin" Store.alice false
              Store.empty_world eq_refl eq_refl Hprobe eq_refl) as (H1 & H2 & H3 & _).
  split_and!; [exact H1|exact H2|exact H3].
Defined.
End MoreServiceExamples.

Section DeleteFacts.
Import appsv1 repositorypkg repository Spec ServiceTrace.
Context (claims : string) {W : Type} (h : Handler Call W).

(** X26: [DeleteRepository] deletes whatever the cache does.  Once the
    enforcer has allowed the call, the function clears the cached connection
    state of the URL and then asks the storage to delete the repository,
    also when the cache has failed; it returns a response together with
    whatever the storage answered, an error included.  The only other call
    is the line "error invalidating cache: <nil>" in the error log, written
    exactly when the cache has been cleared without an error. *)
Theorem DeleteRepository_deletes_whatever_the_cache_does q w :
  let ask := enf_Enforce claims ResourceRepositories ActionDelete (Query_Repo q) in
  (h _ ask w).1 = true →
  ∃ x y,
    trace h (DeleteRepository claims q) w
    = Ev ask true :: Ev (cache_SetRepoConnectionState (Query_Repo q) None) x
      :: match x with
         | None => [Ev (log_Errorf "error invalidating cache: <nil>") ()]
         | Some _ => []
         end
      ++ [Ev (db_DeleteRepository (Query_Repo q)) y] ∧
    outcome h (DeleteRepository claims q) w = Done (Some (), y).
Proof.
  intros ask Hask. subst ask. unfold DeleteRepository, outcome, trace. cbn.
  destruct (h _ (enf_Enforce _ _ _ _) w) as [allowed w1]. cbn in *. subst allowed. cbn.
  destruct (h _ (cache_SetRepoConnectionState _ _) w1) as [[e|] w2]; cbn.
  - destruct (h _ (db_DeleteRepository _) w2) as [y w3]. cbn. by exists (Some e), y.
  - destruct (h _ (log_Errorf _) w2) as [[] w3]. cbn.
    destruct (h _ (db_DeleteRepository _) w3) as [y w4]. cbn. by exists None, y.
Qed.
End DeleteFacts.

Section ConfiguredFacts.
Import appsv1 db KeySpec KeyTrace.
Context `{gpg_pure} {W : Type} (h : Handler Call W).

(** X27: [ListConfiguredGPGPublicKeys] leaves no temporary file behind and
    changes nothing, whatever the collaborators answer: the files it removes
    are the files it has created, in the same order; and it makes no call on
    the semaphore, imports no key and deletes none. *)
Theorem ListConfigured_leaves_no_file w :
  omap removed (trace h ListConfiguredGPGPublicKeys w)
  = omap created (trace h ListConfiguredGPGPublicKeys w) ∧
  Forall (EventIs reads) (trace h ListConfiguredGPGPublicKeys w).
Proof.
  split; [apply ListConfigured_files|].
  apply trace_CallsOnly, ListConfiguredGPGPublicKeys_calls.
Qed.
End ConfiguredFacts.

Section DeleteExample.
Import appsv1 repositorypkg repository Spec ServiceTrace Examples.

Lemma DeleteRepository_deletes_whatever_the_cache_does_witness :
  let h := Store.handle Store.open_env in
  let q := {| Query_Repo := "git@x/y"; Query_ForceRefresh := false |} in
  let w := Store.world_of [Store.alice] in
  (h _ (enf_Enforce "admin" ResourceRepositories ActionDelete "git@x/y") w).1 = true ∧
  ∃ x y,
    trace h (DeleteRepository "admin" q) w
    = Ev (enf_Enforce "admin" ResourceRepositories ActionDelete "git@x/y") true
      :: Ev (cache_SetRepoConnectionState "git@x/y" None) x
      :: match x with
         | None => [Ev (log_Errorf "error invalidating cache: <nil>") ()]
         | Some _ => []
         end
      ++ [Ev (db_DeleteRepository "git@x/y") y] ∧
    outcome h (DeleteRepository "admin" q) w = Done (Some (), y).
Proof.
  intros h q w. split; [reflexivity|].
  exact (DeleteRepository_deletes_whatever_the_cache_does "admin" h q w eq_refl).
Defined.
End DeleteExample.

Section StoreList.
Import appsv1 repositorypkg repository Spec ServiceTrace.
Context (env : Store.Env) (claims : string).
Local Abbreviation h := (Store.handle env).

End StoreList.

Section StoreListExample.
Import appsv1 repositorypkg repository Spec ServiceTrace Examples.

End StoreListExample.
